(** * svn-all-fast-export: resume-point resolution and export orchestration

    A shallow embedding of [src/main.cpp]: the two file loaders
    ([loadIdentityMapFile], [loadRevisionsFile]) and [main], from the
    checks of the command line to the exit status.

    The collaborators declared in [repository.h], [svn.h] and
    [ruleparser.h] are taken as an interface ([Externals]); every call
    that [main] makes through that interface is recorded in a trace, so
    that statements about which calls happen, and in which order, are
    statements about a list of events, and the world that a run leaves
    is the one that the calls of its trace produce ([performs]).

    [main] has two loops that need not end: the [goto retry] of the
    resolver and the [for] loop over the revisions, whose [int] counter
    wraps around at [INT_MAX].  Both are run on fuel. *)

From Stdlib Require Import ZArith Ascii String List Lia Bool.
From stdpp Require Import gmap strings list fin_maps sorting.

Local Open Scope string_scope.
Local Open Scope list_scope.
Local Open Scope Z_scope.

(** ** QByteArray operations used by the loaders *)

Module QByteArray.

(** [isspace] in the C locale, which is what [trimmed] strips. *)
Definition isspace (c : ascii) : bool :=
  let n := nat_of_ascii c in
  ((9 <=? n) && (n <=? 13))%nat || (n =? 32)%nat.

Fixpoint ltrim (s : string) : string :=
  match s with
  | EmptyString => EmptyString
  | String c s' => if isspace c then ltrim s' else s
  end.

Fixpoint rtrim (s : string) : string :=
  match s with
  | EmptyString => EmptyString
  | String c s' =>
      match rtrim s' with
      | EmptyString => if isspace c then EmptyString else String c EmptyString
      | r => String c r
      end
  end.

Definition trimmed (s : string) : string := rtrim (ltrim s).

(** Position of the first occurrence of [needle], counted from 0. *)
Fixpoint find (needle s : string) {struct s} : option nat :=
  if String.prefix needle s then Some 0%nat
  else match s with
       | EmptyString => None
       | String _ s' => S <$> find needle s'
       end.

(** [indexOf] returns an [int], -1 when there is no occurrence. *)
Definition indexOf (needle s : string) : Z :=
  match find needle s with
  | Some n => Z.of_nat n
  | None => -1
  end.

(** [truncate(pos)]: keep the first [pos] bytes; nothing happens when
    [pos] is beyond the end. *)
Definition truncate (pos : Z) (s : string) : string :=
  String.substring 0 (Z.to_nat pos) s.

Fixpoint skip (n : nat) (s : string) : string :=
  match n, s with
  | O, _ => s
  | S n', String _ s' => skip n' s'
  | S _, EmptyString => EmptyString
  end.

(** [mid(pos)]: the bytes from position [pos] to the end. *)
Definition mid (pos : Z) (s : string) : string := skip (Z.to_nat pos) s.

End QByteArray.

Import QByteArray.

(** ** QFile::readLine *)

Definition LF : ascii := ascii_of_nat 10.

(** The successive results of [file.readLine()] until [file.atEnd()]:
    each line keeps its terminating newline, the last one may lack it. *)
Fixpoint readLines (content : string) : list string :=
  match content with
  | EmptyString => []
  | String c rest =>
      if Ascii.eqb c LF then String c EmptyString :: readLines rest
      else match readLines rest with
           | [] => [String c EmptyString]
           | l :: ls => String c l :: ls
           end
  end.

(** Diagnostics written to [stderr] by the loaders. *)
Inductive Diagnostic :=
| CouldNotOpen (fileName : string)
| UnableToConvert (line : string).

(** ** loadIdentityMapFile (main.cpp, lines 32-69) *)

(** The body of the [while] loop for one line: [None] is the
    [continue] of an invalid line, [Some (login, realname)] the pair
    handed to [result.insert]. *)
Definition identity_of_line (line : string) : option (string * string) :=
  let comment_pos := indexOf "#" line in
  let line := if comment_pos =? -1 then line else truncate comment_pos line in
  let line := trimmed line in
  let space := indexOf " " line in
  if space =? -1 then None
  else
    let rightspace := if indexOf " = " line =? space then space + 2 else space in
    let realname := trimmed (mid rightspace line) in
    let line := truncate space line in
    Some (line, realname).

Definition identity_step (result : gmap string string) (line : string)
  : gmap string string :=
  match identity_of_line line with
  | None => result
  | Some (login, realname) => <[login := realname]> result
  end.

(** [open] is the view of the file system: the contents of a file that
    can be opened for reading, [None] otherwise. *)
Definition loadIdentityMapFile (open : string -> option string) (fileName : string)
  : gmap string string * list Diagnostic :=
  if String.eqb fileName "" then (∅, [])
  else match open fileName with
       | None => (∅, [CouldNotOpen fileName])
       | Some content => (foldl identity_step ∅ (readLines content), [])
       end.

(** ** loadRevisionsFile (main.cpp, lines 71-96) *)

Section RevisionsFile.

(** [QByteArray::toInt(&ok)]: [None] stands for [ok == false]. *)
Variable toInt : string -> option Z.

Definition revisions_step (acc : gset Z * list Diagnostic) (line : string)
  : gset Z * list Diagnostic :=
  let '(revisions, diagnostics) := acc in
  let line := trimmed line in
  match toInt line with
  | None => (revisions, (diagnostics ++ [UnableToConvert line]))
  | Some rev => ({[rev]} ∪ revisions, diagnostics)
  end.

Definition loadRevisionsFile (open : string -> option string) (fileName : string)
  : gset Z * list Diagnostic :=
  if String.eqb fileName "" then (∅, [])
  else match open fileName with
       | None => (∅, [CouldNotOpen fileName])
       | Some content => foldl revisions_step (∅, []) (readLines content)
       end.

End RevisionsFile.

(** ** The identity-map line format, as the specification words it *)

Module IdentityFormat.

(** Everything before the first ['#']. *)
Fixpoint strip_comment (s : string) : string :=
  match s with
  | EmptyString => EmptyString
  | String c s' => if Ascii.eqb c "#"%char then EmptyString else String c (strip_comment s')
  end.

(** Split at the first space: the text before it and the text after it. *)
Fixpoint split_first_space (s : string) : option (string * string) :=
  match s with
  | EmptyString => None
  | String c s' =>
      if Ascii.eqb c " "%char then Some (EmptyString, s')
      else match split_first_space s' with
           | Some (login, rest) => Some (String c login, rest)
           | None => None
           end
  end.

(** Strip a leading ["= "]. *)
Definition strip_equals (rest : string) : string :=
  if String.prefix "= " rest then skip 2 rest else rest.

Definition entry (line : string) : option (string * string) :=
  match split_first_space (trimmed (strip_comment line)) with
  | None => None
  | Some (login, rest) => Some (login, trimmed (strip_equals rest))
  end.

End IdentityFormat.

Definition has_space (s : string) : Prop := In " "%char (list_ascii_of_string s).

(** ** The collaborators of [main] *)

(** [World] is everything outside [main]: the per-repository log files
    and fast-import processes, the Subversion repository, the file
    system.  [Repo] is a [Repository *], [Rule] a [Rules::Repository].
    [setupIncremental] takes [cutoff] by reference: it returns
    [repo_next] together with the value it leaves in [cutoff]. *)
Class Externals (World Repo Rule : Type) := {
  rule_name : Rule -> string;
  makeRepository : Rule -> gmap string Repo -> World -> option Repo * World;
  setupIncremental : Repo -> Z -> World -> Z * Z * World;
  restoreLog : Repo -> World -> World;
  finalizeTags : Repo -> World -> World;
  deleteRepository : Repo -> World -> World;
  youngestRevision : World -> Z;
  exportRevision : gmap string Repo -> gmap string string -> Z -> World -> bool * World;
  openFile : World -> string -> option string;
  toInt : string -> option Z
}.

Definition INT_MAX : Z := 2147483647.
Definition INT_MIN : Z := -2147483648.
Definition EXIT_SUCCESS : Z := 0.
Definition EXIT_FAILURE : Z := 1.

(** What an observer sees of a run of [main], in order. *)
Inductive Event (Repo : Type) :=
| MakeRepository (name : string) (made : option Repo)
| SetupIncremental (repo : Repo) (cutoff_in repo_next cutoff_out : Z)
| RestoreLog (repo : Repo)
| Critical (resume_from cutoff : Z)
| DebugSkipping (min_rev last_skipped : Z)
| Stderr (d : Diagnostic)
| YoungestRevision (rev : Z)
| PrintDot
| PrintNewline
| ExportRevision (rev : Z) (ok : bool)
| FinalizeTags (name : string) (repo : Repo)
| Delete (repo : Repo)
| PrintStats.

Arguments MakeRepository {Repo}.
Arguments SetupIncremental {Repo}.
Arguments RestoreLog {Repo}.
Arguments Critical {Repo}.
Arguments DebugSkipping {Repo}.
Arguments Stderr {Repo}.
Arguments YoungestRevision {Repo}.
Arguments PrintDot {Repo}.
Arguments PrintNewline {Repo}.
Arguments ExportRevision {Repo}.
Arguments FinalizeTags {Repo}.
Arguments Delete {Repo}.
Arguments PrintStats {Repo}.

(** The state threaded through [main]: the outside world, the trace of
    what has been done to it, and the local [repositories] hash. *)
Record State (World Repo : Type) := mkState {
  world : World;
  trace : list (Event Repo);
  repositories : gmap string Repo
}.

Arguments mkState {World Repo}.
Arguments world {World Repo}.
Arguments trace {World Repo}.
Arguments repositories {World Repo}.

(** The command line, after parsing. *)
Record Args (Rule : Type) := mkArgs {
  rules : list Rule;          (* rulesList.allRepositories() *)
  resume_from : Z;            (* --resume-from, 0 when absent *)
  max_rev : Z;                (* --max-rev, 0 when absent *)
  identity_map : string;      (* --identity-map, empty when absent *)
  revisions_file : string     (* --revisions-file, empty when absent *)
}.

Arguments mkArgs {Rule}.
Arguments rules {Rule}.
Arguments resume_from {Rule}.
Arguments max_rev {Rule}.
Arguments identity_map {Rule}.
Arguments revisions_file {Rule}.

(** The three ways a pass of the [foreach] over the repositories ends. *)
Inductive Scan :=
| Scanned (min_rev cutoff : Z)
| Retry (cutoff : Z)
| NoRepository.

(** The two ways resolution ends. *)
Inductive Resolution :=
| Resolved (min_rev cutoff : Z)
| Aborted.

Section Main.

Context {World Repo Rule : Type} `{Externals World Repo Rule}.

Abbreviation St := (State World Repo).

(** A small state monad over [St]. *)
Definition M (A : Type) : Type := St -> A * St.

Definition ret {A} (a : A) : M A := fun st => (a, st).

Definition bind {A B} (m : M A) (k : A -> M B) : M B :=
  fun st => let (a, st') := m st in k a st'.

Notation "'do' x <- m ; k" := (bind m (fun x => k))
  (at level 10, x name, m at level 100, k at level 200).
Notation "'do' ' p <- m ; k" := (bind m (fun x => match x with p => k end))
  (at level 10, p pattern, m at level 100, k at level 200).
Notation "m ;; k" := (bind m (fun _ => k))
  (at level 100, k at level 200, right associativity).

Definition emit (e : Event Repo) : M unit :=
  fun st => (tt, mkState (world st) (trace st ++ [e]) (repositories st)).

Definition when (b : bool) (m : M unit) : M unit := if b then m else ret tt.

Fixpoint for_each {A} (l : list A) (body : A -> M unit) : M unit :=
  match l with
  | [] => ret tt
  | a :: l' => body a ;; for_each l' body
  end.

(** *** Calls through the interface, each leaving its event *)

Definition call_makeRepository (rule : Rule) : M (option Repo) :=
  fun st =>
    let (made, w) := makeRepository rule (repositories st) (world st) in
    (made, mkState w (trace st ++ [MakeRepository (rule_name rule) made])
                   (repositories st)).

Definition repositories_insert (name : string) (repo : Repo) : M unit :=
  fun st => (tt, mkState (world st) (trace st) (<[name := repo]> (repositories st))).

Definition call_setupIncremental (repo : Repo) (cutoff : Z) : M (Z * Z) :=
  fun st =>
    let '(repo_next, cutoff', w) := setupIncremental repo cutoff (world st) in
    ((repo_next, cutoff'),
     mkState w (trace st ++ [SetupIncremental repo cutoff repo_next cutoff'])
             (repositories st)).

Definition call_restoreLog (repo : Repo) : M unit :=
  fun st => (tt, mkState (restoreLog repo (world st))
                         (trace st ++ [RestoreLog repo]) (repositories st)).

Definition call_finalizeTags (name : string) (repo : Repo) : M unit :=
  fun st => (tt, mkState (finalizeTags repo (world st))
                         (trace st ++ [FinalizeTags name repo]) (repositories st)).

Definition call_delete (repo : Repo) : M unit :=
  fun st => (tt, mkState (deleteRepository repo (world st))
                         (trace st ++ [Delete repo]) (repositories st)).

Definition call_youngestRevision : M Z :=
  fun st => let rev := youngestRevision (world st) in
            (rev, mkState (world st) (trace st ++ [YoungestRevision rev])
                          (repositories st)).

Definition call_exportRevision (identities : gmap string string) (rev : Z) : M bool :=
  fun st =>
    let (ok, w) := exportRevision (repositories st) identities rev (world st) in
    (ok, mkState w (trace st ++ [ExportRevision rev ok]) (repositories st)).

(** A loader reads the file system and writes its diagnostics. *)
Definition call_loader {A} (load : (string -> option string) -> string -> A * list Diagnostic)
    (fileName : string) : M A :=
  fun st =>
    let (a, diagnostics) := load (openFile (world st)) fileName in
    (a, mkState (world st) (trace st ++ map Stderr diagnostics) (repositories st)).

(** *** Resolution (main.cpp, lines 157-190) *)

(** The [foreach] of lines 160-190, from the repositories still to
    visit and the current values of [cutoff] and [min_rev]. *)
Fixpoint scan (resume_from : Z) (todo : list Rule) (cutoff min_rev : Z) : M Scan :=
  match todo with
  | [] => ret (Scanned min_rev cutoff)
  | rule :: todo' =>
      do made <- call_makeRepository rule;
      match made with
      | None => ret NoRepository
      | Some repo =>
          repositories_insert (rule_name rule) repo ;;
          do '(repo_next, cutoff) <- call_setupIncremental repo cutoff;
          when ((cutoff <? resume_from) && (repo_next =? cutoff))
               (call_restoreLog repo) ;;
          if cutoff <? min_rev then ret (Retry cutoff)
          else
            let min_rev := if min_rev <? repo_next then repo_next else min_rev in
            scan resume_from todo' cutoff min_rev
      end
  end.

(** The [retry:] label: every pass starts from the first repository
    with [min_rev = 1].  [goto retry] can be taken any number of
    times, so the loop is run on fuel; [None] is fuel running out. *)
Fixpoint resolve (fuel : nat) (resume_from : Z) (all : list Rule) (cutoff : Z)
    (st : St) : option (Resolution * St) :=
  match fuel with
  | O => None
  | S fuel' =>
      match scan resume_from all cutoff 1 st with
      | (Scanned min_rev cutoff', st') => Some (Resolved min_rev cutoff', st')
      | (NoRepository, st') => Some (Aborted, st')
      | (Retry cutoff', st') => resolve fuel' resume_from all cutoff' st'
      end
  end.

(** *** The export loop (main.cpp, lines 213-229) *)

(** [++i] on the [int] counter: the next integer, except that from
    [INT_MAX] the counter wraps around to [INT_MIN]. *)
Definition incr (i : Z) : Z := if i =? INT_MAX then INT_MIN else i + 1.

(** The body of the [for] loop on candidate [i]: [false] is the
    [break] after a failed export, [true] the [continue] of a candidate
    that the filter excludes or the end of the body. *)
Definition export_body (filerRevisions : bool) (revisions : gset Z)
    (identities : gmap string string) (i : Z) : M bool :=
  if filerRevisions && negb (bool_decide (i ∈ revisions)) then
    emit PrintDot ;;
    ret true
  else
    when filerRevisions (emit PrintNewline) ;;
    call_exportRevision identities i.

(** [for (int i = min_rev; i <= max_rev; ++i)], from the current value
    of [i].  The loop is left when the test [i <= max_rev] fails or by
    [break]; whether that ever happens depends on [max_rev] and on
    [exportRevision], so the loop is run on fuel, one unit for each turn
    of the body; [None] is fuel running out.  The result is the final
    value of [errors]. *)
Fixpoint export_loop (fuel : nat) (filerRevisions : bool) (revisions : gset Z)
    (identities : gmap string string) (max_rev i : Z) (st : St)
  : option (bool * St) :=
  if i <=? max_rev then
    match fuel with
    | O => None
    | S fuel' =>
        let (ok, st') := export_body filerRevisions revisions identities i st in
        if ok
        then export_loop fuel' filerRevisions revisions identities max_rev (incr i) st'
        else Some (true, st')
    end
  else Some (false, st).

(** *** Finalization (main.cpp, lines 231-234) *)

(** The hash is visited in an unspecified order; [map_to_list] fixes
    one. *)
Definition finalize_all : M unit :=
  fun st =>
    for_each (map_to_list (repositories st))
             (fun entry => call_finalizeTags entry.1 entry.2 ;; call_delete entry.2) st.

(** *** main, lines 204-215 *)

(** What is read before the loop: the identity map, the upper bound of
    the interval and the revision filter. *)
Definition prepare (args : Args Rule) : M (gmap string string * Z * gset Z) :=
  do identities <- call_loader loadIdentityMapFile (identity_map args);
  do max_rev <- (if max_rev args <? 1 then call_youngestRevision
                 else ret (max_rev args));
  do revisions <- call_loader (loadRevisionsFile toInt) (revisions_file args);
  ret (identities, max_rev, revisions).

(** *** main, lines 231-236 *)

(** What follows the loop; the result is the exit status. *)
Definition finish (errors : bool) : M Z :=
  finalize_all ;;
  emit PrintStats ;;
  ret (if errors then EXIT_FAILURE else EXIT_SUCCESS).

(** *** main, from line 204 to the end *)

(** The interval is replayed from [min_rev]. *)
Definition replay (fuel : nat) (args : Args Rule) (min_rev : Z) (st : St)
  : option (Z * St) :=
  let '(identities, max_rev, revisions, st1) := prepare args st in
  let filerRevisions := negb (bool_decide (revisions = ∅)) in
  match export_loop fuel filerRevisions revisions identities max_rev min_rev st1 with
  | Some (errors, st2) => Some (finish errors st2)
  | None => None
  end.

(** *** main, lines 192-202 *)

Definition session (fuel : nat) (args : Args Rule) (min_rev cutoff : Z) (st : St)
  : option (Z * St) :=
  if cutoff <? resume_from args then
    Some ((emit (Critical (resume_from args) cutoff) ;;
           ret EXIT_FAILURE) st)
  else
    let (_, st1) := when (min_rev <? resume_from args)
                         (emit (DebugSkipping min_rev (resume_from args - 1))) st in
    let min_rev := if resume_from args =? 0 then min_rev else resume_from args in
    replay fuel args min_rev st1.

(** *** main, from line 151 *)

Definition initial_cutoff (resume_from : Z) : Z :=
  if resume_from =? 0 then INT_MAX else resume_from.

(** [repositories] starts empty and nothing has happened yet. *)
Definition start (w : World) : St := mkState w [] ∅.

(** The same fuel bounds the passes of the resolver and the turns of
    the export loop. *)
Definition main (fuel : nat) (args : Args Rule) (w : World) : option (Z * St) :=
  match resolve fuel (resume_from args) (rules args)
                (initial_cutoff (resume_from args)) (start w) with
  | None => None
  | Some (Aborted, st') => Some (EXIT_FAILURE, st')
  | Some (Resolved min_rev cutoff, st') => session fuel args min_rev cutoff st'
  end.

End Main.

(** ** Reading a trace *)

Section Trace.

Context {Repo : Type}.

(** The [(rev, ok)] of every [exportRevision] call, in order. *)
Definition export_log (evs : list (Event Repo)) : list (Z * bool) :=
  flat_map (fun e => match e with ExportRevision rev ok => [(rev, ok)] | _ => [] end) evs.

Definition exports (evs : list (Event Repo)) : list Z := (export_log evs).*1.

(** The repositories [finalizeTags] was called on, in order. *)
Definition finalized (evs : list (Event Repo)) : list (string * Repo) :=
  flat_map (fun e => match e with FinalizeTags name repo => [(name, repo)] | _ => [] end) evs.

(** The [repo_next] of every [setupIncremental] call, in order. *)
Definition setup_nexts (evs : list (Event Repo)) : list Z :=
  flat_map (fun e => match e with SetupIncremental _ _ next _ => [next] | _ => [] end) evs.

(** The names [makeRepository] was called for, in order. *)
Definition made_names (evs : list (Event Repo)) : list string :=
  flat_map (fun e => match e with MakeRepository name _ => [name] | _ => [] end) evs.

Definition is_restoreLog (e : Event Repo) : bool :=
  match e with RestoreLog _ => true | _ => false end.

Definition is_progress_signal (e : Event Repo) : bool :=
  match e with PrintDot | PrintNewline => true | _ => false end.

(** What the resolver does around one event that is not a
    [restoreLog]: a [setupIncremental] that leaves [cutoff] below
    [resume_from] and returns exactly [cutoff] is followed by
    [restoreLog] on the same repository. *)
Definition with_restore (resume_from : Z) (e : Event Repo) : list (Event Repo) :=
  match e with
  | SetupIncremental repo _ repo_next cutoff =>
      if (cutoff <? resume_from) && (repo_next =? cutoff)
      then [e; RestoreLog repo] else [e]
  | _ => [e]
  end.

(** The shape of a resolver trace: no export, no finalization, and
    [restoreLog] exactly after the [setupIncremental] calls that ask
    for it. *)
Definition resolving (resume_from : Z) (evs : list (Event Repo)) : Prop :=
  export_log evs = []
  /\ finalized evs = []
  /\ flat_map (with_restore resume_from)
              (List.filter (fun e => negb (is_restoreLog e)) evs) = evs.

(** Where [restoreLog] sits in a trace: right after a
    [setupIncremental], on the same repository, exactly when that call
    left [cutoff] strictly below [resume_from] and returned that
    [cutoff]; and nowhere else. *)
Definition restoreLog_placed (resume_from : Z) (evs : list (Event Repo)) : Prop :=
  (forall before repo cutoff repo_next cutoff' after,
      evs = before ++ SetupIncremental repo cutoff repo_next cutoff' :: after ->
      (cutoff' < resume_from /\ repo_next = cutoff')
      <-> exists after', after = RestoreLog repo :: after')
  /\ (forall before repo after,
        evs = before ++ RestoreLog repo :: after ->
        exists before' cutoff repo_next cutoff',
          before = before' ++ [SetupIncremental repo cutoff repo_next cutoff']
          /\ cutoff' < resume_from /\ repo_next = cutoff').

(** Once an export has failed, no other export follows. *)
Definition fail_fast (log : list (Z * bool)) : Prop :=
  forall before rev after, log = (before ++ (rev, false) :: after) -> after = [].

End Trace.

(** The candidates of the loop that pass the filter, ascending. *)
Definition in_filter (filerRevisions : bool) (revisions : gset Z) (i : Z) : bool :=
  negb filerRevisions || bool_decide (i ∈ revisions).

Definition selected (filerRevisions : bool) (revisions : gset Z) (min_rev max_rev : Z)
  : list Z :=
  List.filter (in_filter filerRevisions revisions) (seqZ min_rev (max_rev - min_rev + 1)).

(** The world after a sequence of [exportRevision] calls and nothing else. *)
Definition replay_exports {World Repo Rule} `{Externals World Repo Rule}
    (repos : gmap string Repo) (identities : gmap string string)
    (revs : list Z) (w : World) : World :=
  foldl (fun w rev => (exportRevision repos identities rev w).2) w revs.

(** ** Stand-ins for the collaborators *)

(** A small repository writer to run [main] against: the log of a
    repository is the list of its progress lines, each a revision number
    and whether its commit mark is known. *)
Module Fixture.

Record rule := mkRule { r_name : string; r_forwardTo : string }.

Record env := mkEnv {
  logs : gmap string (list (positive * bool));
  files : gmap string string;
  youngest : Z;
  failing : list Z;
  exported : list Z;
  restored : list string;
  finalized_tags : list string
}.

(** Reading a log up to [cutoff]: the revision to continue from, the
    cutoff left behind and the log kept. *)
Fixpoint read_log (log : list (positive * bool)) (cutoff last_revnum : Z)
  : Z * Z * list (positive * bool) :=
  match log with
  | [] => (last_revnum + 1, cutoff, [])
  | (revnum, known) :: log' =>
      if cutoff <=? Z.pos revnum then (cutoff, cutoff, [])
      else if negb known then (Z.pos revnum, Z.pos revnum, [])
      else let '(next, cutoff', kept) := read_log log' cutoff (Z.pos revnum) in
           (next, cutoff', (revnum, known) :: kept)
  end.

Definition setup (repo : string) (cutoff : Z) (w : env) : Z * Z * env :=
  match logs w !! repo with
  | None => (1, cutoff, w)
  | Some log =>
      let '(next, cutoff', kept) := read_log log cutoff 0 in
      (next, cutoff',
       mkEnv (<[repo := kept]> (logs w)) (files w) (youngest w) (failing w)
             (exported w) (restored w) (finalized_tags w))
  end.

Definition make (r : rule) (repos : gmap string string) (w : env)
  : option string * env :=
  if String.eqb (r_forwardTo r) "" then (Some (r_name r), w)
  else match repos !! r_forwardTo r with
       | Some _ => (Some (r_name r), w)
       | None => (None, w)
       end.

Definition restore (repo : string) (w : env) : env :=
  mkEnv (logs w) (files w) (youngest w) (failing w) (exported w)
        (restored w ++ [repo]) (finalized_tags w).

Definition finalize (repo : string) (w : env) : env :=
  mkEnv (logs w) (files w) (youngest w) (failing w) (exported w)
        (restored w) (finalized_tags w ++ [repo]).

Definition export (repos : gmap string string) (identities : gmap string string)
    (rev : Z) (w : env) : bool * env :=
  if bool_decide (rev ∈ failing w) || (youngest w <? rev) then (false, w)
  else (true, mkEnv (logs w) (files w) (youngest w) (failing w)
                    (exported w ++ [rev]) (restored w) (finalized_tags w)).

(** A run of decimal digits. *)
Fixpoint digits (acc : Z) (s : string) : option Z :=
  match s with
  | EmptyString => Some acc
  | String c s' =>
      let n := Z.of_nat (nat_of_ascii c) in
      if (48 <=? n) && (n <=? 57) then digits (10 * acc + (n - 48)) s' else None
  end.

(** Decimal numbers with an optional sign, within the range of an
    [int]. *)
Definition to_int (s : string) : option Z :=
  let '(negative, body) :=
    match s with
    | String "-" s' => (true, s')
    | String "+" s' => (false, s')
    | _ => (false, s)
    end in
  match body with
  | EmptyString => None
  | _ => match digits 0 body with
         | Some n =>
             let v := if negative : bool then - n else n in
             if (INT_MIN <=? v) && (v <=? INT_MAX) then Some v else None
         | None => None
         end
  end.

#[global] Instance externals : Externals env string rule := {|
  rule_name := r_name;
  makeRepository := make;
  setupIncremental := setup;
  restoreLog := restore;
  finalizeTags := finalize;
  deleteRepository := fun _ w => w;
  youngestRevision := youngest;
  exportRevision := export;
  openFile := fun w name => files w !! name;
  toInt := to_int
|}.

Definition known_up_to (n : nat) : list (positive * bool) :=
  map (fun k => (Pos.of_nat k, true)) (seq 1 n).

(** Repository [a] has committed revisions 1 to 9; repository [b]
    has committed 1 to 3 and was interrupted while writing 4. *)
Definition interrupted : env :=
  mkEnv (<["a" := known_up_to 9]> (<["b" := known_up_to 3 ++ [(4%positive, false)]]> ∅))
        ∅ 12 [] [] [] [].

(** Two fresh repositories, a revisions file, and a source in which
    revision 3 cannot be exported. *)
Definition fresh : env :=
  mkEnv ∅ (<["revs" := "2
3
x
5
"]> (<["authors" := "alice Alice A <a@x>
bob = Bob B <b@x>
"]> ∅)) 6 [3] [] [] [].

Definition two_rules : list rule := [mkRule "a" ""; mkRule "b" ""].

(** A source of 100 revisions, all of which can be exported. *)
Definition hundred : env := mkEnv ∅ ∅ 100 [] [] [] [].

(** A source that answers for every revision number up to [INT_MAX],
    except for the one that follows [INT_MIN]. *)
Definition boundless : env := mkEnv ∅ ∅ INT_MAX [INT_MIN + 1] [] [] [].

End Fixture.

(** A writer that does not honour the cutoff it is given: repository
    [true] always reports 10 as its next revision, repository [false]
    lowers the cutoff to 4 whenever it is above. *)
Module Stubborn.

Definition setup (repo : bool) (cutoff : Z) (w : unit) : Z * Z * unit :=
  if repo then (10, cutoff, w) else (Z.min cutoff 4, Z.min cutoff 4, w).

#[global] Instance externals : Externals unit bool bool := {|
  rule_name := fun r => if r : bool then "a" else "b";
  makeRepository := fun r _ w => (Some r, w);
  setupIncremental := setup;
  restoreLog := fun _ w => w;
  finalizeTags := fun _ w => w;
  deleteRepository := fun _ w => w;
  youngestRevision := fun _ => 0;
  exportRevision := fun _ _ _ w => (true, w);
  openFile := fun _ _ => None;
  toInt := fun _ => None
|}.

End Stubborn.

(** The state in which the resolver leaves repository [rule] once its
    writer [repo] has been registered and [setupIncremental] has
    returned [repo_next], leaving [cutoff'] and the world [w]. *)
Definition visited {World Repo Rule} `{Externals World Repo Rule}
    (resume_from : Z) (rule : Rule) (repo : Repo) (cutoff repo_next cutoff' : Z)
    (w : World) (st : State World Repo) : State World Repo :=
  mkState (if (cutoff' <? resume_from) && (repo_next =? cutoff')
           then restoreLog repo w else w)
          (trace st ++ MakeRepository (rule_name rule) (Some repo)
             :: with_restore resume_from (SetupIncremental repo cutoff repo_next cutoff'))
          (<[rule_name rule := repo]> (repositories st)).

(** The revision filter and the upper bound that [main] computes in a
    given world. *)
Definition loaded_revisions {World Repo Rule} `{Externals World Repo Rule}
    (args : Args Rule) (w : World) : gset Z :=
  (loadRevisionsFile toInt (openFile w) (revisions_file args)).1.

Definition upper_bound {World Repo Rule} `{Externals World Repo Rule}
    (args : Args Rule) (w : World) : Z :=
  if max_rev args <? 1 then youngestRevision w else max_rev args.

(** The identity map that [main] loads in a given world. *)
Definition loaded_identities {World Repo Rule} `{Externals World Repo Rule}
    (args : Args Rule) (w : World) : gmap string string :=
  (loadIdentityMapFile (openFile w) (identity_map args)).1.

(** What lines 204-215 add to the trace in the world [w]: the
    diagnostics of the identity-map loader, the call of
    [youngestRevision] when [--max-rev] is below 1, the diagnostics of
    the revisions loader. *)
Definition prelude_events {World Repo Rule} `{Externals World Repo Rule}
    (args : Args Rule) (w : World) : list (Event Repo) :=
  map Stderr (loadIdentityMapFile (openFile w) (identity_map args)).2
  ++ (if max_rev args <? 1 then [YoungestRevision (youngestRevision w)] else [])
  ++ map Stderr (loadRevisionsFile toInt (openFile w) (revisions_file args)).2.

(** ** Runs of the stand-ins *)

Module Scenario.

(** [--resume-from 10] on the interrupted repositories. *)
Definition inconsistent : Args Fixture.rule := mkArgs Fixture.two_rules 10 0 "" "".

(** The state in which resolution leaves them. *)
Definition inconsistent_resolved : State Fixture.env string :=
  match resolve 3 10 Fixture.two_rules 10 (start Fixture.interrupted) with
  | Some (_, st) => st
  | None => start Fixture.interrupted
  end.

(** Two fresh repositories, a revision filter, authors. *)
Definition filtered : Args Fixture.rule := mkArgs Fixture.two_rules 0 0 "authors" "revs".

(** Two fresh repositories, [--resume-from 2]. *)
Definition resumed : Args Fixture.rule := mkArgs Fixture.two_rules 2 0 "authors" "".

(** The state in which resolution leaves fresh repositories. *)
Definition fresh_resolved (resume_from : Z) : State Fixture.env string :=
  match resolve 1 resume_from Fixture.two_rules (initial_cutoff resume_from)
                (start Fixture.fresh) with
  | Some (_, st) => st
  | None => start Fixture.fresh
  end.

(** The second repository forwards to one that is not configured. *)
Definition misconfigured : Args Fixture.rule :=
  mkArgs [Fixture.mkRule "a" ""; Fixture.mkRule "c" "elsewhere"] 0 0 "" "".

(** The state in which a run ends. *)
Definition ended (fuel : nat) (args : Args Fixture.rule) (w : Fixture.env)
  : State Fixture.env string :=
match main fuel args w with
| Some (_, st) => st
| None => start w
end.


(** No repository at all, and [--max-rev 3]. *)
Definition bare : Args Fixture.rule := mkArgs [] 0 3 "" "".

(** An identity-map file in which [bob] appears twice. *)
Definition moved_authors : string := "bob Bob <b@old>
alice = Alice A <a@x>
bob = Bob B <b@new>   # moved
".

(** One repository and nothing else on the command line. *)
Definition single : Args Fixture.rule := mkArgs [Fixture.mkRule "a" ""] 0 0 "" "".

(** Two fresh repositories and nothing else on the command line. *)
Definition unfiltered : Args Fixture.rule := mkArgs Fixture.two_rules 0 0 "" "".

(** The state in which a run from fresh repositories ends. *)
Definition final (args : Args Fixture.rule) : State Fixture.env string :=
match main 6 args Fixture.fresh with
| Some (_, st) => st
| None => start Fixture.fresh
end.

(** The state after the export loop over revisions 1 to 6 of the fresh
    repositories. *)
Definition after_loop (filerRevisions : bool) (revisions : gset Z)
  : State Fixture.env string :=
match export_loop 6 filerRevisions revisions ∅ 6 1 (fresh_resolved 0) with
| Some (_, st) => st
| None => fresh_resolved 0
end.

(** The state in which the misconfigured run ends. *)
Definition misconfigured_final : State Fixture.env string :=
match main 1 misconfigured Fixture.fresh with
| Some (_, st) => st
| None => start Fixture.fresh
end.

(** One fresh repository and [--resume-from 98] on a source of 100
    revisions. *)
Definition late : Args Fixture.rule := mkArgs [Fixture.mkRule "a" ""] 98 0 "" "".

(** The state in which resolution leaves it. *)
Definition late_resolved : State Fixture.env string :=
match resolve 1 98 [Fixture.mkRule "a" ""] 98 (start Fixture.hundred) with
| Some (_, st) => st
| None => start Fixture.hundred
end.

(** No repository, [--resume-from 2147483646] and
    [--max-rev 2147483647]. *)
Definition wrapping : Args Fixture.rule := mkArgs [] 2147483646 2147483647 "" "".

(** The state in which the replay from 2147483646 ends on a source that
    answers for every revision number but the one after [INT_MIN]. *)
Definition wrapped : State Fixture.env string :=
match replay 4 wrapping 2147483646 (start Fixture.boundless) with
| Some (_, st) => st
| None => start Fixture.boundless
end.

End Scenario.

(** ** Contracts on [setupIncremental] *)

(** [setupIncremental] only observes or lowers [cutoff]. *)
Definition never_raises {World Repo Rule} `{Externals World Repo Rule} : Prop :=
  forall (repo : Repo) (cutoff : Z) (w : World),
    (setupIncremental repo cutoff w).1.2 <= cutoff.

(** Given a cutoff of at least 1, [setupIncremental] leaves a cutoff
    that is still at least 1 and no larger, and the revision it returns
    is not beyond the cutoff it was given. *)
Definition honours_cutoff {World Repo Rule} `{Externals World Repo Rule} : Prop :=
  forall (repo : Repo) (cutoff : Z) (w : World),
    1 <= cutoff ->
    1 <= (setupIncremental repo cutoff w).1.2 <= cutoff
    /\ (setupIncremental repo cutoff w).1.1 <= cutoff.

(** The identity that [line] of an identity-map file gives to [login],
    when it is a line for [login]. *)
Definition named (login : string) (line : string) : option string :=
  match identity_of_line line with
  | Some (login', realname) => if String.eqb login' login then Some realname else None
  | None => None
  end.

(** The diagnostic a line of a revisions file gives rise to. *)
Definition unconverted (toInt : string -> option Z) (line : string) : list Diagnostic :=
  match toInt (trimmed line) with
  | None => [UnableToConvert (trimmed line)]
  | Some _ => []
  end.

(** [c] occurs in [s]. *)
Definition occurs (c : ascii) (s : string) : Prop := In c (list_ascii_of_string s).

(** ** More readings of a trace *)

Section Phases.

Context {Repo : Type}.

(** The writers [makeRepository] returned, with the name they were made
    for, in order. *)
Definition made (evs : list (Event Repo)) : list (string * Repo) :=
  flat_map (fun e => match e with
                     | MakeRepository name (Some repo) => [(name, repo)]
                     | _ => []
                     end) evs.

(** [repositories.insert] for each of them, in order, starting from
    [repos]. *)
Definition registered (repos : gmap string Repo) (evs : list (Event Repo))
  : gmap string Repo :=
  foldl (fun m entry => <[entry.1 := entry.2]> m) repos (made evs).

(** The writers that were deleted, in order. *)
Definition deleted (evs : list (Event Repo)) : list Repo :=
  flat_map (fun e => match e with Delete repo => [repo] | _ => [] end) evs.

(** The answers of [youngestRevision], in order. *)
Definition youngest_calls (evs : list (Event Repo)) : list Z :=
  flat_map (fun e => match e with YoungestRevision rev => [rev] | _ => [] end) evs.

(** Following [cutoff] through the [setupIncremental] calls of a trace,
    from the value [cutoff] it has at first: each call has to be given
    the value the call before it left.  The result is the value the
    last call leaves. *)
Fixpoint final_cutoff (cutoff : Z) (evs : list (Event Repo)) : option Z :=
  match evs with
  | [] => Some cutoff
  | SetupIncremental _ cutoff_in _ cutoff_out :: evs' =>
      if cutoff_in =? cutoff then final_cutoff cutoff_out evs' else None
  | _ :: evs' => final_cutoff cutoff evs'
  end.

(** Every [setupIncremental] call of the trace relates the cutoff it
    was given, the revision it returned and the cutoff it left by [P]. *)
Definition setups_satisfy (P : Z -> Z -> Z -> Prop) (evs : list (Event Repo)) : Prop :=
  Forall (fun e => match e with
                   | SetupIncremental _ cutoff_in repo_next cutoff_out =>
                       P cutoff_in repo_next cutoff_out
                   | _ => True
                   end) evs.

(** The four phases of a run. *)
Definition is_resolution_event (e : Event Repo) : bool :=
  match e with
  | MakeRepository _ _ | SetupIncremental _ _ _ _ | RestoreLog _ => true
  | _ => false
  end.

Definition is_prelude_event (e : Event Repo) : bool :=
  match e with
  | DebugSkipping _ _ | Stderr _ | YoungestRevision _ => true
  | _ => false
  end.

Definition is_loop_event (e : Event Repo) : bool :=
  match e with
  | PrintDot | PrintNewline | ExportRevision _ _ => true
  | _ => false
  end.

Definition is_closing_event (e : Event Repo) : bool :=
  match e with
  | FinalizeTags _ _ | Delete _ | PrintStats => true
  | _ => false
  end.

(** What finalization adds to the trace for the entries [entries] of
    the hash. *)
Definition closing (entries : list (string * Repo)) : list (Event Repo) :=
  flat_map (fun entry => [FinalizeTags entry.1 entry.2; Delete entry.2]) entries
  ++ [PrintStats].

End Phases.

(** How a pass ends, as far as [cutoff] is concerned. *)
Definition leaves_cutoff (r : Scan) (cutoff : Z) : Prop :=
  match r with
  | Scanned _ cutoff' | Retry cutoff' => cutoff' = cutoff
  | NoRepository => True
  end.

(** Given a cutoff of at least 1, [setupIncremental] leaves a cutoff
    that is still at least 1. *)
Definition keeps_cutoff_positive {World Repo Rule} `{Externals World Repo Rule} : Prop :=
  forall (repo : Repo) (cutoff : Z) (w : World),
    1 <= cutoff -> 1 <= (setupIncremental repo cutoff w).1.2.

(** [exportRevision] never fails. *)
Definition always_exports {World Repo Rule} `{Externals World Repo Rule} : Prop :=
  forall (repos : gmap string Repo) (identities : gmap string string) (rev : Z) (w : World),
    (exportRevision repos identities rev w).1 = true.

(** ** The interval *)

(** The value of [min_rev] at line 216. *)
Definition lower_bound {Rule : Type} (args : Args Rule) (min_rev : Z) : Z :=
  if resume_from args =? 0 then min_rev else resume_from args.

(** What lines 198-199 add to the trace. *)
Definition skipping {Repo Rule : Type} (args : Args Rule) (min_rev : Z)
  : list (Event Repo) :=
  if min_rev <? resume_from args
  then [DebugSkipping min_rev (resume_from args - 1)] else [].

(** The number of candidates from [min_rev] to [max_rev]. *)
Definition turns (min_rev max_rev : Z) : nat := Z.to_nat (max_rev - min_rev + 1).

(** ** The trace as an account of the calls *)

Section Account.

Context {World Repo Rule : Type} `{Externals World Repo Rule}.

(** Event [e] is what one action of [main] leaves in the trace when it
    is carried out in the world [w] and leaves the world [w']: a call
    through the interface is made on [w], returns what the event records
    and leaves [w']; what [main] only prints changes nothing. *)
Definition performed (e : Event Repo) (w w' : World) : Prop :=
  match e with
  | MakeRepository name made =>
      exists rule repos,
        rule_name rule = name /\ makeRepository rule repos w = (made, w')
  | SetupIncremental repo cutoff repo_next cutoff' =>
      setupIncremental repo cutoff w = (repo_next, cutoff', w')
  | RestoreLog repo => w' = restoreLog repo w
  | YoungestRevision rev => rev = youngestRevision w /\ w' = w
  | ExportRevision rev ok =>
      exists repos identities, exportRevision repos identities rev w = (ok, w')
  | FinalizeTags _ repo => w' = finalizeTags repo w
  | Delete repo => w' = deleteRepository repo w
  | Critical _ _ | DebugSkipping _ _ | Stderr _ | PrintDot | PrintNewline | PrintStats =>
      w' = w
  end.

(** The events [evs], carried out one after the other from [w], leave
    [w']. *)
Fixpoint performs (w : World) (evs : list (Event Repo)) (w' : World) : Prop :=
  match evs with
  | [] => w' = w
  | e :: evs' => exists w1, performed e w w1 /\ performs w1 evs' w'
  end.

(** What a run of the export loop from candidate [i] leaves behind:
    [errors] is the final value of the flag, [evs] what the loop added
    to the trace. *)
Definition looped (filerRevisions : bool) (revisions : gset Z)
    (identities : gmap string string) (max_rev i : Z) (st : State World Repo)
    (errors : bool) (st' : State World Repo) (evs : list (Event Repo)) : Prop :=
  trace st' = trace st ++ evs
  /\ repositories st' = repositories st
  /\ Forall (fun e => is_loop_event e = true) evs
  /\ fail_fast (export_log evs)
  /\ (errors = true <-> exists rev, (rev, false) ∈ export_log evs)
  /\ (errors = true -> exists rev, last (export_log evs) = Some (rev, false))
  /\ world st' = replay_exports (repositories st) identities (exports evs) (world st)
  /\ performs (world st) evs (world st')
  /\ (filerRevisions = false -> List.filter is_progress_signal evs = [])
  /\ (i <= max_rev -> in_filter filerRevisions revisions i = true ->
      head (exports evs) = Some i)
  /\ (max_rev < INT_MAX ->
      exports evs `prefix_of` selected filerRevisions revisions i max_rev
      /\ (errors = false -> exports evs = selected filerRevisions revisions i max_rev)).

(** What [replay] leaves behind when it returns: the events of lines
    204-215, then those of the loop, [loop], then those of
    finalization. *)
Definition replayed (args : Args Rule) (min_rev : Z) (st : State World Repo) (code : Z)
    (st' : State World Repo) (loop : list (Event Repo)) : Prop :=
  let revisions := loaded_revisions args (world st) in
  let filerRevisions := negb (bool_decide (revisions = ∅)) in
  let upper := upper_bound args (world st) in
  let candidates := selected filerRevisions revisions min_rev upper in
  let entries := map_to_list (repositories st) in
  trace st' = trace st ++ prelude_events args (world st) ++ loop ++ closing entries
  /\ repositories st' = repositories st
  /\ Forall (fun e => is_loop_event e = true) loop
  /\ fail_fast (export_log loop)
  /\ (code <> EXIT_SUCCESS <-> exists rev, (rev, false) ∈ export_log loop)
  /\ (code = EXIT_SUCCESS
      \/ code = EXIT_FAILURE /\ exists rev, last (export_log loop) = Some (rev, false))
  /\ (filerRevisions = false -> List.filter is_progress_signal loop = [])
  /\ (min_rev <= upper -> in_filter filerRevisions revisions min_rev = true ->
      head (exports loop) = Some min_rev)
  /\ (upper < INT_MAX ->
      exports loop `prefix_of` candidates
      /\ (code = EXIT_SUCCESS -> exports loop = candidates))
  /\ performs (world st) (prelude_events args (world st) ++ loop ++ closing entries)
              (world st').

End Account.

(** ** The start of [main] (main.cpp, lines 114-152) *)

(** What [CommandLineParser] reports about the command line. *)
Record CommandLine := mkCommandLine {
  contains : string -> bool;
  arguments : list string;
  undefinedOptions : list string;
  optionArgument : string -> string
}.

(** The three ways the start of [main] ends: the usage text and exit
    status 0; a message on [stderr] and an exit status; or the rest of
    [main], after a possible warning on [stderr]. *)
Inductive Startup (Rule : Type) :=
| Usage
| Refused (status : Z) (message : string)
| Proceed (warning : string) (args : Args Rule).

Arguments Usage {Rule}.
Arguments Refused {Rule}.
Arguments Proceed {Rule}.

(** The [foreach] over the undefined options; [first] is the flag of
    the same name. *)
Fixpoint unrecognized (first : bool) (options : list string) : string :=
  match options with
  | [] => ""
  | option :: options' =>
      ((if first then "" else "          : ")
       +:+ "unrecognized option or missing argument for; `" +:+ option +:+ "'" +:+ "
" +:+ unrecognized false options')%string
  end.

(** [QString_toInt] is [QString::toInt], 0 when the text is not a
    number; [allRepositories] is what the rules files declare. *)
Definition startup {Rule : Type} (QString_toInt : string -> Z)
    (allRepositories : list Rule) (cl : CommandLine) : Startup Rule :=
  if contains cl "help" || negb (length (arguments cl) =? 1)%nat then Usage
  else if negb (length (undefinedOptions cl) =? 0)%nat then
    Refused 10 ("svn-all-fast-export failed: " +:+ unrecognized true (undefinedOptions cl))
  else if negb (contains cl "rules") then
    Refused 11 "svn-all-fast-export failed: please specify the rules using the 'rules' argument
"
  else
    Proceed (if contains cl "identity-map" then ""
             else "WARNING; no identity-map specified, all commits will be without email address

")
            (mkArgs allRepositories
                    (QString_toInt (optionArgument cl "resume-from"))
                    (QString_toInt (optionArgument cl "max-rev"))
                    (optionArgument cl "identity-map")
                    (optionArgument cl "revisions-file")).

(** The whole of [main]: the exit status, and the state the run ends in
    when it got past its start. *)
Definition program {World Repo Rule : Type} `{Externals World Repo Rule}
    (QString_toInt : string -> Z) (allRepositories : list Rule)
    (fuel : nat) (cl : CommandLine) (w : World)
  : option (Z * option (State World Repo)) :=
  match startup QString_toInt allRepositories cl with
  | Usage => Some (0, None)
  | Refused status _ => Some (status, None)
  | Proceed _ args =>
      match main fuel args w with
      | Some (status, st) => Some (status, Some st)
      | None => None
      end
  end.

(** A command line with one argument, the rules, and one option that
    the parser does not know. *)
Definition mistyped : CommandLine :=
  mkCommandLine (fun name => String.eqb name "rules") ["/srv/svn"] ["resume"]
                (fun _ => "").

(** * Properties *)

(** Replace an integer test of the source by its value, when [lia] can
    tell which it is. *)
Ltac settle test :=
  first
    [ replace test with true in *
        by (symmetry; first [apply Z.ltb_lt | apply Z.eqb_eq | apply Z.leb_le]; lia)
    | replace test with false in *
        by (symmetry; first [apply Z.ltb_ge | apply Z.eqb_neq | apply Z.leb_gt]; lia) ].

(** ** The identity-map loader *)

Section IdentityMap.

Import IdentityFormat.

Lemma string_prefix_cons (c a : ascii) (p s : string) :
  String.prefix (String c p) (String a s)
  = if ascii_dec c a then String.prefix p s else false.
Proof. reflexivity. Qed.

Lemma prefix_char (c a : ascii) (s : string) :
  String.prefix (String c EmptyString) (String a s) = Ascii.eqb a c.
Proof.
  rewrite string_prefix_cons. destruct (ascii_dec c a) as [->|Hne].
  - rewrite Ascii.eqb_refl. now destruct s.
  - symmetry. apply Ascii.eqb_neq. congruence.
Qed.

Lemma find_comment (s : string) :
  match find "#" s with
  | Some n => String.substring 0 n s = strip_comment s
  | None => strip_comment s = s
  end.
Proof.
  induction s as [|a s IH]; [reflexivity|].
  cbn [find strip_comment]. rewrite prefix_char.
  destruct (Ascii.eqb a "#") eqn:E; [reflexivity|].
  destruct (find "#" s) as [n|]; cbn; now rewrite IH.
Qed.

Lemma truncate_comment (line : string) :
  (if indexOf "#" line =? -1 then line else truncate (indexOf "#" line) line)
  = strip_comment line.
Proof.
  unfold indexOf, truncate. pose proof (find_comment line) as Hf.
  destruct (find "#" line) as [n|].
  - settle (Z.of_nat n =? -1).
    now rewrite Nat2Z.id.
  - now rewrite Z.eqb_refl.
Qed.

Lemma find_separator_here (s : string) :
  String.prefix " = " (String " " s) = String.prefix "= " s.
Proof. reflexivity. Qed.

Lemma find_separator_later (a : ascii) (s : string) :
  Ascii.eqb a " " = false -> String.prefix " = " (String a s) = false.
Proof.
  intros Ha. rewrite string_prefix_cons.
  destruct (ascii_dec " " a) as [<-|]; [discriminate|reflexivity].
Qed.

(** The first space found by [indexOf] is where [split_first_space]
    splits, and [" = "] is found there exactly when what follows the
    space starts with ["= "]. *)
Lemma find_space_split (s : string) :
  match split_first_space s with
  | None => find " " s = None
  | Some (login, rest) =>
      exists n, find " " s = Some n
                /\ String.substring 0 n s = login
                /\ skip n s = String " " rest
                /\ bool_decide (find " = " s = Some n) = String.prefix "= " rest
  end.
Proof.
  induction s as [|a s IH]; [reflexivity|].
  cbn [split_first_space find]. rewrite prefix_char.
  destruct (Ascii.eqb a " ") eqn:Ea.
  - apply Ascii.eqb_eq in Ea as ->. exists 0%nat.
    rewrite find_separator_here. repeat split.
    destruct (String.prefix "= " s); [reflexivity|].
    apply bool_decide_eq_false. now destruct (find " = " s).
  - rewrite (find_separator_later a s Ea).
    destruct (split_first_space s) as [[login rest]|].
    + destruct IH as (n & Hn & Hlogin & Hrest & Hsep). exists (S n).
      rewrite Hn. cbn. rewrite Hlogin, Hrest. repeat split.
      rewrite <- Hsep. apply bool_decide_ext.
      destruct (find " = " s); cbn; split; congruence.
    + now rewrite IH.
Qed.

Lemma skip_skip (n m : nat) (s : string) : skip (n + m) s = skip m (skip n s).
Proof.
  revert s; induction n as [|n IH]; intros s; [reflexivity|].
  destruct s; cbn; [now destruct m | apply IH].
Qed.

Lemma trimmed_leading_space (s : string) : trimmed (String " " s) = trimmed s.
Proof. reflexivity. Qed.

(** The display name: both readings trim the same text, up to the
    one space that [mid] keeps in front. *)
Lemma realname_agrees (n : nat) (s rest : string) (here : bool) :
  skip n s = String " " rest ->
  here = String.prefix "= " rest ->
  trimmed (mid (if here then Z.of_nat n + 2 else Z.of_nat n) s)
  = trimmed (strip_equals rest).
Proof.
  intros Hrest ->. unfold mid, strip_equals.
  destruct (String.prefix "= " rest) eqn:Hp.
  - replace (Z.to_nat (Z.of_nat n + 2)) with (n + 2)%nat by lia.
    rewrite skip_skip, Hrest.
    destruct rest as [|c1 rest]; [discriminate|].
    rewrite string_prefix_cons in Hp. destruct (ascii_dec "=" c1); [|discriminate].
    destruct rest as [|c2 rest]; [discriminate|].
    rewrite string_prefix_cons in Hp. destruct (ascii_dec " " c2) as [<-|]; [|discriminate].
    reflexivity.
  - rewrite Nat2Z.id, Hrest. apply trimmed_leading_space.
Qed.

(** The loop body of [loadIdentityMapFile] computes the entry that the
    format describes. *)
Lemma identity_of_line_entry (line : string) :
  identity_of_line line = entry line.
Proof.
  unfold identity_of_line, entry. rewrite truncate_comment.
  set (t := trimmed (strip_comment line)).
  pose proof (find_space_split t) as Hs. unfold indexOf.
  destruct (split_first_space t) as [[login rest]|].
  - destruct Hs as (n & Hn & Hlogin & Hrest & Hsep). rewrite Hn.
    settle (Z.of_nat n =? -1).
    unfold truncate. rewrite Nat2Z.id, Hlogin. do 2 f_equal.
    apply (realname_agrees n t rest); [exact Hrest|].
    rewrite <- Hsep. destruct (find " = " t) as [k|].
    + destruct (decide (k = n)) as [->|Hne].
      * rewrite Z.eqb_refl. symmetry. now apply bool_decide_eq_true.
      * settle (Z.of_nat k =? Z.of_nat n).
        symmetry. apply bool_decide_eq_false. congruence.
    + settle (-1 =? Z.of_nat n).
      symmetry. now apply bool_decide_eq_false.
  - now rewrite Hs, Z.eqb_refl.
Qed.

End IdentityMap.

Section NoSpace.

Import IdentityFormat.

Lemma strip_comment_chars (c : ascii) (s : string) :
  In c (list_ascii_of_string (strip_comment s)) -> In c (list_ascii_of_string s).
Proof.
  induction s as [|a s IH]; cbn; [tauto|].
  destruct (Ascii.eqb a "#"); cbn; tauto.
Qed.

Lemma ltrim_chars (c : ascii) (s : string) :
  In c (list_ascii_of_string (ltrim s)) -> In c (list_ascii_of_string s).
Proof.
  induction s as [|a s IH]; cbn [ltrim]; [tauto|].
  destruct (isspace a); cbn; tauto.
Qed.

Lemma rtrim_chars (c : ascii) (s : string) :
  In c (list_ascii_of_string (rtrim s)) -> In c (list_ascii_of_string s).
Proof.
  induction s as [|a s IH]; cbn [rtrim]; [tauto|].
  destruct (rtrim s) as [|b r].
  - destruct (isspace a); cbn; tauto.
  - cbn in *. tauto.
Qed.

Lemma split_first_space_None (s : string) :
  ~ has_space s -> split_first_space s = None.
Proof.
  unfold has_space. induction s as [|a s IH]; cbn; [reflexivity|].
  intros Hno. destruct (Ascii.eqb a " ") eqn:Ea.
  - apply Ascii.eqb_eq in Ea. tauto.
  - rewrite IH; [reflexivity | tauto].
Qed.

Lemma entry_without_space (line : string) : ~ has_space line -> entry line = None.
Proof.
  intros Hno. unfold entry. rewrite split_first_space_None; [reflexivity|].
  intros Hs. apply Hno. unfold has_space in *.
  now apply strip_comment_chars, ltrim_chars, rtrim_chars.
Qed.

End NoSpace.

(** C8. [loadIdentityMapFile] handles every line of the file the way the
    format says: the comment suffix from the first ['#'] is removed, the
    remainder is trimmed and split at its first space into login and
    rest, a leading ["= "] of the rest is dropped, and the trimmed
    remainder is inserted as the identity of the login.  A line with no
    space leaves the map as it is.  The two sample lines give the two
    sample entries. *)
Theorem loadIdentityMapFile_format :
  (forall line, identity_of_line line = IdentityFormat.entry line)
  /\ (forall open fileName,
        (loadIdentityMapFile open fileName).1
        = if String.eqb fileName "" then ∅
          else match open fileName with
               | None => ∅
               | Some content =>
                   foldl (fun result line =>
                            match IdentityFormat.entry line with
                            | Some (login, realname) => <[login := realname]> result
                            | None => result
                            end) ∅ (readLines content)
               end)
  /\ (forall result line, ~ has_space line -> identity_step result line = result)
  /\ identity_of_line "alice Alice A <a@x>" = Some ("alice", "Alice A <a@x>")
  /\ identity_of_line "bob = Bob B <b@x>" = Some ("bob", "Bob B <b@x>")
  /\ (loadIdentityMapFile (fun _ => Some "alice Alice A <a@x>
bob = Bob B <b@x>
carol
") "authors").1
     = <["bob" := "Bob B <b@x>"]> (<["alice" := "Alice A <a@x>"]> ∅).
Proof.
  split; [exact identity_of_line_entry|].
  split.
  { intros open fileName. unfold loadIdentityMapFile.
    destruct (String.eqb fileName ""); [reflexivity|].
    destruct (open fileName) as [content|]; [|reflexivity].
    cbn [fst]. generalize (∅ : gmap string string).
    induction (readLines content) as [|line lines IH]; intros result; [reflexivity|].
    cbn [foldl]. rewrite <- IH. f_equal.
    unfold identity_step. now rewrite identity_of_line_entry. }
  split.
  { intros result line Hno. unfold identity_step.
    now rewrite identity_of_line_entry, (entry_without_space line Hno). }
  repeat split; vm_compute; reflexivity.
Qed.

(** ** Resolution *)

Section Resolution.

Context {World Repo Rule : Type} `{Externals World Repo Rule}.

Implicit Types (st : State World Repo) (todo all : list Rule).
Implicit Types (evs : list (Event Repo)) (repo : Repo) (rule : Rule).

(** One turn of the [foreach]. *)
Lemma scan_cons resume_from rule todo cutoff min_rev st :
  scan resume_from (rule :: todo) cutoff min_rev st =
  match makeRepository rule (repositories st) (world st) with
  | (None, w) =>
      (NoRepository,
       mkState w (trace st ++ [MakeRepository (rule_name rule) None]) (repositories st))
  | (Some repo, w) =>
      let '(repo_next, cutoff', w') := setupIncremental repo cutoff w in
      let st' := visited resume_from rule repo cutoff repo_next cutoff' w' st in
      if cutoff' <? min_rev then (Retry cutoff', st')
      else scan resume_from todo cutoff' (Z.max min_rev repo_next) st'
  end.
Proof.
  cbn [scan]. unfold bind at 1. unfold call_makeRepository.
  destruct (makeRepository rule (repositories st) (world st)) as [[repo|] w];
    [|reflexivity].
  unfold bind, repositories_insert, call_setupIncremental, visited, with_restore.
  cbn [world trace repositories].
  destruct (setupIncremental repo cutoff w) as [[repo_next cutoff'] w'].
  replace (if min_rev <? repo_next then repo_next else min_rev)
    with (Z.max min_rev repo_next)
    by (destruct (Z.ltb_spec min_rev repo_next); lia).
  destruct ((cutoff' <? resume_from) && (repo_next =? cutoff'));
    cbn [when call_restoreLog ret world trace repositories];
    rewrite <- !app_assoc; destruct (cutoff' <? min_rev); reflexivity.
Qed.

Lemma export_log_app evs1 evs2 :
  export_log (evs1 ++ evs2) = export_log evs1 ++ export_log evs2.
Proof. apply flat_map_app. Qed.

Lemma finalized_app evs1 evs2 :
  finalized (evs1 ++ evs2) = finalized evs1 ++ finalized evs2.
Proof. apply flat_map_app. Qed.

Lemma setup_nexts_app evs1 evs2 :
  setup_nexts (evs1 ++ evs2) = setup_nexts evs1 ++ setup_nexts evs2.
Proof. apply flat_map_app. Qed.

Lemma made_names_app evs1 evs2 :
  made_names (evs1 ++ evs2) = made_names evs1 ++ made_names evs2.
Proof. apply flat_map_app. Qed.

Lemma resolving_nil resume_from : resolving (Repo := Repo) resume_from [].
Proof. repeat split. Qed.

Lemma resolving_app resume_from evs1 evs2 :
  resolving resume_from evs1 -> resolving resume_from evs2 ->
  resolving resume_from (evs1 ++ evs2).
Proof.
  intros (He1 & Hf1 & Hr1) (He2 & Hf2 & Hr2). unfold resolving.
  rewrite export_log_app, finalized_app, List.filter_app, flat_map_app.
  rewrite He1, He2, Hf1, Hf2, Hr1, Hr2. repeat split.
Qed.

Lemma resolving_visit resume_from name repo cutoff repo_next cutoff' :
  resolving resume_from
    (MakeRepository name (Some repo)
       :: with_restore resume_from (SetupIncremental repo cutoff repo_next cutoff')).
Proof.
  unfold resolving, with_restore.
  destruct ((cutoff' <? resume_from) && (repo_next =? cutoff')) eqn:E;
    cbn; rewrite ?E; repeat split.
Qed.

Lemma scan_trace resume_from todo : forall cutoff min_rev st,
  exists evs, trace (scan resume_from todo cutoff min_rev st).2 = trace st ++ evs
              /\ resolving resume_from evs.
Proof.
  induction todo as [|rule todo IH]; intros cutoff min_rev st.
  - exists []. cbn. rewrite app_nil_r. split; [reflexivity | apply resolving_nil].
  - rewrite scan_cons.
    destruct (makeRepository rule (repositories st) (world st)) as [[repo|] w].
    + destruct (setupIncremental repo cutoff w) as [[repo_next cutoff'] w'].
      cbn zeta. destruct (cutoff' <? min_rev).
      * eexists. split; [reflexivity | apply resolving_visit].
      * edestruct IH as (evs & -> & Hevs). cbn [visited trace].
        eexists. rewrite <- app_assoc. split; [reflexivity|].
        apply resolving_app; [apply resolving_visit | exact Hevs].
    + eexists. split; [reflexivity|]. repeat split.
Qed.

Lemma resolve_trace resume_from all fuel : forall cutoff st r st',
  resolve fuel resume_from all cutoff st = Some (r, st') ->
  exists evs, trace st' = trace st ++ evs /\ resolving resume_from evs.
Proof.
  induction fuel as [|fuel IH]; intros cutoff st r st' Hr; [discriminate|].
  cbn [resolve] in Hr.
  destruct (scan_trace resume_from all cutoff 1 st) as (evs & Htr & Hevs).
  destruct (scan resume_from all cutoff 1 st) as [[m c|c|] st1]; cbn [snd] in Htr.
  - injection Hr as <- <-. eauto.
  - apply IH in Hr as (evs' & -> & Hevs'). rewrite Htr, <- app_assoc.
    eauto using resolving_app.
  - injection Hr as <- <-. eauto.
Qed.

Lemma setup_nexts_visit resume_from repo cutoff repo_next cutoff' :
  setup_nexts (with_restore resume_from (SetupIncremental repo cutoff repo_next cutoff'))
  = [repo_next].
Proof.
  unfold with_restore.
  now destruct ((cutoff' <? resume_from) && (repo_next =? cutoff')).
Qed.

Lemma made_names_visit resume_from repo cutoff repo_next cutoff' :
  made_names (with_restore resume_from (SetupIncremental repo cutoff repo_next cutoff'))
  = [].
Proof.
  unfold with_restore.
  now destruct ((cutoff' <? resume_from) && (repo_next =? cutoff')).
Qed.

Lemma foldr_max_floor (a floor : Z) (l : list Z) :
  foldr Z.max (Z.max floor a) l = Z.max a (foldr Z.max floor l).
Proof. induction l as [|b l IH]; cbn; lia. Qed.

Lemma foldl_max_foldr (l : list Z) : forall floor,
  foldl Z.max floor l = foldr Z.max floor l.
Proof.
  induction l as [|a l IH]; intros floor; [reflexivity|].
  cbn. now rewrite IH, foldr_max_floor.
Qed.

(** A pass that reaches the end of the list has asked every
    repository, in order, and holds the largest answer. *)
Lemma scan_scanned resume_from todo : forall cutoff min_rev st min_rev' cutoff' st',
  scan resume_from todo cutoff min_rev st = (Scanned min_rev' cutoff', st') ->
  exists evs, trace st' = trace st ++ evs
              /\ min_rev' = foldl Z.max min_rev (setup_nexts evs)
              /\ made_names evs = rule_name <$> todo
              /\ length (setup_nexts evs) = length todo
              /\ dom (repositories st')
                 = dom (repositories st) ∪ list_to_set (rule_name <$> todo).
Proof.
  induction todo as [|rule todo IH]; intros cutoff min_rev st min_rev' cutoff' st' Hs.
  - injection Hs as <- <- <-. exists []. rewrite app_nil_r.
    repeat split. cbn. set_solver.
  - rewrite scan_cons in Hs.
    destruct (makeRepository rule (repositories st) (world st)) as [[repo|] w];
      [|discriminate].
    destruct (setupIncremental repo cutoff w) as [[repo_next cutoff1] w'].
    cbn zeta in Hs. destruct (cutoff1 <? min_rev); [discriminate|].
    apply IH in Hs as (evs & -> & -> & Hnames & Hlen & Hdom).
    cbn [visited trace repositories] in *. eexists.
    rewrite <- app_assoc. split; [reflexivity|].
    rewrite !setup_nexts_app, !made_names_app.
    change (MakeRepository (rule_name rule) (Some repo) :: ?l) with
      ([MakeRepository (rule_name rule) (Some repo)] ++ l).
    rewrite !setup_nexts_app, !made_names_app, setup_nexts_visit, made_names_visit.
    cbn. rewrite Hnames, Hlen, Hdom, dom_insert_L.
    repeat split. set_solver.
Qed.

Lemma scan_dom resume_from todo : forall cutoff min_rev st,
  dom (repositories (scan resume_from todo cutoff min_rev st).2)
  ⊆ dom (repositories st) ∪ list_to_set (rule_name <$> todo).
Proof.
  induction todo as [|rule todo IH]; intros cutoff min_rev st.
  - cbn. set_solver.
  - rewrite scan_cons.
    destruct (makeRepository rule (repositories st) (world st)) as [[repo|] w].
    + destruct (setupIncremental repo cutoff w) as [[repo_next cutoff1] w'].
      cbn zeta. destruct (cutoff1 <? min_rev).
      * cbn. rewrite dom_insert_L. set_solver.
      * etrans; [apply IH|]. cbn. rewrite dom_insert_L. set_solver.
    + cbn. set_solver.
Qed.

(** A resolution that succeeds ends with a pass that reaches the end
    of the list. *)
Lemma resolve_final_pass resume_from all fuel : forall cutoff st min_rev cutoff' st',
  resolve fuel resume_from all cutoff st = Some (Resolved min_rev cutoff', st') ->
  exists cutoff0 st0 evs0,
    scan resume_from all cutoff0 1 st0 = (Scanned min_rev cutoff', st')
    /\ trace st0 = trace st ++ evs0
    /\ dom (repositories st0)
       ⊆ dom (repositories st) ∪ list_to_set (rule_name <$> all).
Proof.
  induction fuel as [|fuel IH]; intros cutoff st min_rev cutoff' st' Hr; [discriminate|].
  cbn [resolve] in Hr.
  destruct (scan_trace resume_from all cutoff 1 st) as (evs & Htr & _).
  pose proof (scan_dom resume_from all cutoff 1 st) as Hdom.
  destruct (scan resume_from all cutoff 1 st) as [[m c|c|] st1] eqn:Hs;
    cbn [snd] in Htr, Hdom.
  - injection Hr as <- <- <-. exists cutoff, st, [].
    rewrite app_nil_r. repeat split; [exact Hs | set_solver].
  - apply IH in Hr as (cutoff0 & st0 & evs0 & Hfinal & Htr0 & Hdom0).
    exists cutoff0, st0, (evs ++ evs0).
    rewrite Htr0, Htr, <- app_assoc. repeat split; [exact Hfinal | set_solver].
  - discriminate.
Qed.

End Resolution.

(** ** Reading the kinds of events *)

Section Kinds.

Context {Repo : Type}.

Implicit Types (e : Event Repo) (evs : list (Event Repo)).

Lemma prelude_quiet evs :
  Forall (fun e => is_prelude_event e = true) evs ->
  export_log evs = [] /\ finalized evs = [] /\ deleted evs = []
  /\ List.filter is_progress_signal evs = [].
Proof.
  induction 1 as [|e evs He _ (IH1 & IH2 & IH3 & IH4)]; [repeat split|].
  destruct e; try discriminate; repeat split; assumption.
Qed.

Lemma loop_quiet evs :
  Forall (fun e => is_loop_event e = true) evs ->
  finalized evs = [] /\ deleted evs = [] /\ youngest_calls evs = [].
Proof.
  induction 1 as [|e evs He _ (IH1 & IH2 & IH3)]; [repeat split|].
  destruct e; try discriminate; repeat split; assumption.
Qed.

Lemma closing_quiet evs :
  Forall (fun e => is_closing_event e = true) evs ->
  export_log evs = [] /\ youngest_calls evs = [].
Proof.
  induction 1 as [|e evs He _ [IH1 IH2]]; [split; reflexivity|].
  destruct e; try discriminate; split; assumption.
Qed.

Lemma closing_kinds (entries : list (string * Repo)) :
  Forall (fun e => is_closing_event e = true) (closing entries).
Proof.
  unfold closing. apply Forall_app. split; [|repeat constructor].
  induction entries as [|entry entries IH]; [constructor|].
  cbn [flat_map]. repeat constructor. exact IH.
Qed.

Lemma finalized_closing (entries : list (string * Repo)) :
  finalized (closing entries) = entries.
Proof.
  unfold closing, finalized. rewrite flat_map_app. cbn [flat_map app]. rewrite app_nil_r.
  induction entries as [|entry entries IH]; [reflexivity|].
  cbn [flat_map]. rewrite flat_map_app, IH. now destruct entry.
Qed.

Lemma prelude_stderr (ds : list Diagnostic) :
  Forall (fun e : Event Repo => is_prelude_event e = true) (map Stderr ds).
Proof. induction ds; constructor; auto. Qed.

Lemma youngest_calls_app evs1 evs2 :
  youngest_calls (evs1 ++ evs2) = youngest_calls evs1 ++ youngest_calls evs2.
Proof. apply flat_map_app. Qed.

Lemma youngest_calls_stderr (ds : list Diagnostic) :
  youngest_calls (Repo := Repo) (map Stderr ds) = [].
Proof. induction ds; [reflexivity | assumption]. Qed.

Lemma deleted_app evs1 evs2 : deleted (evs1 ++ evs2) = deleted evs1 ++ deleted evs2.
Proof. apply flat_map_app. Qed.

Lemma deleted_none evs :
  Forall (fun e => is_closing_event e = false) evs -> deleted evs = [].
Proof.
  induction 1 as [|e evs He _ IH]; [reflexivity|].
  destruct e; try discriminate; exact IH.
Qed.

Lemma deleted_closing (entries : list (string * Repo)) :
  deleted (closing entries) = entries.*2.
Proof.
  unfold closing. rewrite deleted_app. cbn [deleted flat_map app]. rewrite app_nil_r.
  induction entries as [|entry entries IH]; [reflexivity|].
  cbn [flat_map]. rewrite deleted_app, IH. reflexivity.
Qed.

Lemma made_none evs : Forall (fun e => is_resolution_event e = false) evs -> made evs = [].
Proof.
  induction 1 as [|e evs He _ IH]; [reflexivity|].
  destruct e; try discriminate; exact IH.
Qed.

Lemma session_kinds e :
  is_prelude_event e = true \/ is_loop_event e = true \/ is_closing_event e = true ->
  is_resolution_event e = false /\ is_restoreLog e = false
  /\ forall resume_from cutoff, e <> Critical resume_from cutoff.
Proof. destruct e; cbn; intuition discriminate. Qed.

End Kinds.

(** ** The trace accounts for the world *)

Section Performs.

Context {World Repo Rule : Type} `{Externals World Repo Rule}.

Implicit Types (w : World) (evs : list (Event Repo)) (st : State World Repo).

Lemma performs_app w evs1 w1 evs2 w2 :
  performs w evs1 w1 -> performs w1 evs2 w2 -> performs w (evs1 ++ evs2) w2.
Proof.
  revert w. induction evs1 as [|e evs1 IH]; cbn [performs app]; intros w H1 H2.
  - now subst w1.
  - destruct H1 as (w0 & He & H1). exists w0. split; [exact He | now apply IH].
Qed.

Lemma performs_app_inv w evs1 evs2 w2 :
  performs w (evs1 ++ evs2) w2 ->
  exists w1, performs w evs1 w1 /\ performs w1 evs2 w2.
Proof.
  revert w. induction evs1 as [|e evs1 IH]; cbn [performs app]; intros w Hp.
  - now exists w.
  - destruct Hp as (w0 & He & Hp). apply IH in Hp as (w1 & H1 & H2).
    exists w1. split; [|exact H2]. exists w0. split; assumption.
Qed.

Lemma performs_one (e : Event Repo) w w' : performed e w w' -> performs w [e] w'.
Proof. intros He. exists w'. split; [exact He | reflexivity]. Qed.

Lemma performs_stderr (ds : list Diagnostic) w : performs w (map Stderr ds) w.
Proof.
  induction ds as [|d ds IH]; [reflexivity|].
  exists w. split; [reflexivity | exact IH].
Qed.

Lemma performs_prelude (args : Args Rule) w : performs w (prelude_events args w) w.
Proof.
  unfold prelude_events.
  apply (performs_app _ _ w); [apply performs_stderr|].
  apply (performs_app _ _ w); [|apply performs_stderr].
  destruct (max_rev args <? 1); [|reflexivity].
  apply performs_one. split; reflexivity.
Qed.

Lemma performs_closing (entries : list (string * Repo)) : forall w w',
  performs w (closing entries) w'
  <-> w' = foldl (fun w entry => deleteRepository entry.2 (finalizeTags entry.2 w))
                 w entries.
Proof.
  unfold closing.
  induction entries as [|entry entries IH]; intros w w'; cbn [flat_map app foldl performs].
  - split.
    + intros (w1 & -> & ->). reflexivity.
    + intros ->. exists w. split; reflexivity.
  - rewrite <- IH. split.
    + intros (w1 & -> & w2 & -> & Hrest). exact Hrest.
    + intros Hrest. eexists. split; [reflexivity|]. eexists. split; [reflexivity|].
      exact Hrest.
Qed.

(** The resolver: every [makeRepository], [setupIncremental] and
    [restoreLog] of the trace has been carried out, in this order, and
    nothing else has touched the world. *)
Lemma performs_visit resume_from (rule : Rule) (repo : Repo) (repos : gmap string Repo)
    (cutoff repo_next cutoff' : Z) w w1 w2 :
  makeRepository rule repos w = (Some repo, w1) ->
  setupIncremental repo cutoff w1 = (repo_next, cutoff', w2) ->
  performs w
    (MakeRepository (rule_name rule) (Some repo)
       :: with_restore resume_from (SetupIncremental repo cutoff repo_next cutoff'))
    (if (cutoff' <? resume_from) && (repo_next =? cutoff') then restoreLog repo w2 else w2).
Proof.
  intros Hmake Hsetup. exists w1. split; [exists rule, repos; auto|].
  unfold with_restore.
  destruct ((cutoff' <? resume_from) && (repo_next =? cutoff')).
  - exists w2. split; [exact Hsetup|]. apply performs_one. reflexivity.
  - apply performs_one. exact Hsetup.
Qed.

Lemma scan_performs resume_from (todo : list Rule) : forall cutoff min_rev st,
  exists evs,
    trace (scan resume_from todo cutoff min_rev st).2 = trace st ++ evs
    /\ performs (world st) evs (world (scan resume_from todo cutoff min_rev st).2).
Proof.
  induction todo as [|rule todo IH]; intros cutoff min_rev st.
  - exists []. cbn. rewrite app_nil_r. split; reflexivity.
  - rewrite scan_cons.
    destruct (makeRepository rule (repositories st) (world st)) as [[repo|] w1] eqn:Hmake.
    + destruct (setupIncremental repo cutoff w1) as [[repo_next cutoff'] w2] eqn:Hsetup.
      cbn zeta.
      pose proof (performs_visit resume_from _ _ _ _ _ _ _ _ _ Hmake Hsetup) as Hvisit.
      destruct (cutoff' <? min_rev).
      * eexists. split; [reflexivity | exact Hvisit].
      * destruct (IH cutoff' (Z.max min_rev repo_next)
                     (visited resume_from rule repo cutoff repo_next cutoff' w2 st))
          as (evs & Htrace & Hevs).
        rewrite Htrace. cbn [visited trace world] in *. eexists.
        rewrite <- app_assoc. split; [reflexivity|].
        eapply performs_app; [exact Hvisit | exact Hevs].
    + eexists. split; [reflexivity|]. cbn [snd world].
      apply performs_one. exists rule, (repositories st). auto.
Qed.

Lemma resolve_performs resume_from (all : list Rule) fuel : forall cutoff st r st',
  resolve fuel resume_from all cutoff st = Some (r, st') ->
  exists evs, trace st' = trace st ++ evs /\ performs (world st) evs (world st').
Proof.
  induction fuel as [|fuel IH]; intros cutoff st r st' Hr; [discriminate|].
  cbn [resolve] in Hr.
  destruct (scan_performs resume_from all cutoff 1 st) as (evs & Htrace & Hevs).
  destruct (scan resume_from all cutoff 1 st) as [[m c|c|] st1]; cbn [snd] in Htrace, Hevs.
  - injection Hr as <- <-. eauto.
  - apply IH in Hr as (evs' & -> & Hevs'). rewrite Htrace, <- app_assoc.
    eauto using performs_app.
  - injection Hr as <- <-. eauto.
Qed.

End Performs.

(** ** The export loop *)

Section ExportLoop.

Context {World Repo Rule : Type} `{Externals World Repo Rule}.

Implicit Types (st : State World Repo) (evs : list (Event Repo)).
Implicit Types (revisions : gset Z) (identities : gmap string string).

(** *** The counter *)

Lemma incr_below (i : Z) : i < INT_MAX -> incr i = i + 1.
Proof. intros Hi. unfold incr. now settle (i =? INT_MAX). Qed.

Lemma incr_INT_MAX : incr INT_MAX = INT_MIN.
Proof. reflexivity. Qed.

Lemma incr_bounded (i : Z) : i <= INT_MAX -> incr i <= INT_MAX.
Proof.
  intros Hi. unfold incr. destruct (Z.eqb_spec i INT_MAX); [discriminate | lia].
Qed.

(** On the values of an [int], [incr] adds 1 modulo [2^32]. *)
Lemma incr_twos_complement (i : Z) :
  INT_MIN <= i <= INT_MAX -> incr i = (i + 1 + 2 ^ 31) mod 2 ^ 32 - 2 ^ 31.
Proof.
  unfold incr, INT_MIN, INT_MAX. intros Hi.
  change (2 ^ 31) with 2147483648. change (2 ^ 32) with 4294967296.
  destruct (Z.eqb_spec i 2147483647) as [->|Hne]; [reflexivity|].
  rewrite Z.mod_small by lia. lia.
Qed.

(** *** One turn *)

Lemma export_body_spec filerRevisions revisions identities i st :
  export_body filerRevisions revisions identities i st =
  if in_filter filerRevisions revisions i then
    let (ok, w) := exportRevision (repositories st) identities i (world st) in
    (ok, mkState w (trace st ++ (if filerRevisions then [PrintNewline] else [])
                            ++ [ExportRevision i ok])
                 (repositories st))
  else (true, mkState (world st) (trace st ++ [PrintDot]) (repositories st)).
Proof.
  unfold export_body, in_filter.
  destruct filerRevisions, (bool_decide (i ∈ revisions)); cbn [andb orb negb];
    try reflexivity;
    unfold bind, when, emit, ret, call_exportRevision; cbn [world trace repositories];
    destruct (exportRevision (repositories st) identities i (world st)) as [ok w];
    rewrite <- ?app_assoc, ?app_nil_r; reflexivity.
Qed.

Lemma export_loop_S fuel filerRevisions revisions identities max_rev i st :
  i <= max_rev ->
  export_loop (S fuel) filerRevisions revisions identities max_rev i st =
  if in_filter filerRevisions revisions i then
    let (ok, w) := exportRevision (repositories st) identities i (world st) in
    let st' := mkState w (trace st ++ (if filerRevisions then [PrintNewline] else [])
                                   ++ [ExportRevision i ok])
                       (repositories st) in
    if ok then export_loop fuel filerRevisions revisions identities max_rev (incr i) st'
    else Some (true, st')
  else
    export_loop fuel filerRevisions revisions identities max_rev (incr i)
                (mkState (world st) (trace st ++ [PrintDot]) (repositories st)).
Proof.
  intros Hle. cbn [export_loop]. settle (i <=? max_rev). rewrite export_body_spec.
  destruct (in_filter filerRevisions revisions i); [|reflexivity].
  now destruct (exportRevision (repositories st) identities i (world st)) as [[|] w].
Qed.

(** The test fails: the loop is left, whatever the fuel. *)
Lemma export_loop_done fuel filerRevisions revisions identities max_rev i st :
  max_rev < i ->
  export_loop fuel filerRevisions revisions identities max_rev i st = Some (false, st).
Proof.
  intros Hlt. destruct fuel; cbn [export_loop]; now settle (i <=? max_rev).
Qed.

Lemma export_loop_O filerRevisions revisions identities max_rev i st :
  i <= max_rev ->
  export_loop 0 filerRevisions revisions identities max_rev i st = None.
Proof. intros Hle. cbn [export_loop]. now settle (i <=? max_rev). Qed.

(** *** The candidates *)

Lemma selected_empty filerRevisions revisions (min_rev max_rev : Z) :
  max_rev < min_rev -> selected filerRevisions revisions min_rev max_rev = [].
Proof. intros Hlt. unfold selected. now rewrite seqZ_nil by lia. Qed.

Lemma selected_cons filerRevisions revisions (i max_rev : Z) :
  i <= max_rev ->
  selected filerRevisions revisions i max_rev
  = (if in_filter filerRevisions revisions i then [i] else [])
    ++ selected filerRevisions revisions (i + 1) max_rev.
Proof.
  intros Hle. unfold selected. rewrite seqZ_cons by lia. cbn [List.filter].
  replace (Z.pred (max_rev - i + 1)) with (max_rev - (i + 1) + 1) by lia.
  replace (Z.succ i) with (i + 1) by lia.
  now destruct (in_filter filerRevisions revisions i).
Qed.

Lemma seqZ_to_nat (i len : Z) : seqZ i (Z.of_nat (Z.to_nat len)) = seqZ i len.
Proof. unfold seqZ. now rewrite Nat2Z.id. Qed.

Lemma seqZ_S_cons (i : Z) (n : nat) :
  seqZ i (Z.of_nat (S n)) = i :: seqZ (i + 1) (Z.of_nat n).
Proof.
  rewrite seqZ_cons by lia. f_equal. f_equal; lia.
Qed.

Lemma filter_seqZ_sorted (keep : Z -> bool) (n : nat) : forall i,
  StronglySorted Z.lt (List.filter keep (seqZ i (Z.of_nat n))).
Proof.
  induction n as [|n IH]; intros i; [constructor|].
  rewrite seqZ_S_cons. cbn [List.filter].
  destruct (keep i); [|apply IH].
  constructor; [apply IH|].
  apply List.Forall_forall. intros k Hk.
  apply List.filter_In in Hk as [Hk _].
  apply list_elem_of_In, elem_of_seqZ in Hk. lia.
Qed.

Lemma selected_sorted filerRevisions revisions (min_rev max_rev : Z) :
  StronglySorted Z.lt (selected filerRevisions revisions min_rev max_rev).
Proof.
  unfold selected. rewrite <- seqZ_to_nat. apply filter_seqZ_sorted.
Qed.

Lemma selected_bounds filerRevisions revisions (min_rev max_rev rev : Z) :
  rev ∈ selected filerRevisions revisions min_rev max_rev -> min_rev <= rev <= max_rev.
Proof.
  unfold selected. rewrite list_elem_of_In, List.filter_In, <- list_elem_of_In, elem_of_seqZ.
  lia.
Qed.

Lemma exports_ascending filerRevisions revisions (min_rev max_rev : Z) evs :
  exports evs `prefix_of` selected filerRevisions revisions min_rev max_rev ->
  StronglySorted Z.lt (exports evs)
  /\ Forall (fun rev => min_rev <= rev <= max_rev) (exports evs).
Proof.
  intros [rest Hrest]. split.
  - pose proof (selected_sorted filerRevisions revisions min_rev max_rev) as Hsorted.
    rewrite Hrest in Hsorted. now apply StronglySorted_app_1_l in Hsorted.
  - apply Forall_forall. intros rev Hrev.
    apply (selected_bounds filerRevisions revisions). rewrite Hrest.
    apply elem_of_app. now left.
Qed.

(** *** The log of the calls *)

Lemma fail_fast_nil : fail_fast [].
Proof. intros [|] ? ? ?; discriminate. Qed.

Lemma fail_fast_failed (rev : Z) : fail_fast [(rev, false)].
Proof.
  intros [|e [|]] rev' after Heq; try discriminate.
  now injection Heq as _ <-.
Qed.

Lemma fail_fast_succeeded (rev : Z) (log : list (Z * bool)) :
  fail_fast log -> fail_fast ((rev, true) :: log).
Proof.
  intros Hlog [|e before] rev' after Heq; [discriminate|].
  injection Heq as _ Heq. eauto.
Qed.

Lemma export_log_call (b : bool) (i : Z) (ok : bool) evs :
  export_log (((if b then [PrintNewline] else []) ++ [ExportRevision i ok]) ++ evs)
  = (i, ok) :: export_log evs.
Proof. now destruct b. Qed.

Lemma export_log_call1 (b : bool) (i : Z) (ok : bool) :
  export_log (Repo := Repo) ((if b then [PrintNewline] else []) ++ [ExportRevision i ok])
  = [(i, ok)].
Proof. now destruct b. Qed.

Lemma call_kinds (b : bool) (i : Z) (ok : bool) :
  Forall (fun e : Event Repo => is_loop_event e = true)
         ((if b then [PrintNewline] else []) ++ [ExportRevision i ok]).
Proof. destruct b; repeat constructor. Qed.

Lemma performs_call (b : bool) (i : Z) (ok : bool) (repos : gmap string Repo)
    identities (w w' : World) :
  exportRevision repos identities i w = (ok, w') ->
  performs w ((if b then [PrintNewline] else []) ++ [ExportRevision i ok]) w'.
Proof.
  intros Hexp. destruct b; cbn [app].
  - exists w. split; [reflexivity|]. apply performs_one. exists repos, identities. exact Hexp.
  - apply performs_one. exists repos, identities. exact Hexp.
Qed.

(** *** What a run of the loop leaves behind *)

Lemma looped_done filerRevisions revisions identities max_rev i st :
  max_rev < i -> looped filerRevisions revisions identities max_rev i st false st [].
Proof.
  intros Hlt. unfold looped. rewrite app_nil_r, selected_empty by lia.
  repeat split; try reflexivity; try discriminate; try lia.
  - constructor.
  - apply fail_fast_nil.
  - intros [rev Hin]. cbn in Hin. inversion Hin.
Qed.

Lemma looped_failed filerRevisions revisions identities max_rev i st w :
  i <= max_rev ->
  in_filter filerRevisions revisions i = true ->
  exportRevision (repositories st) identities i (world st) = (false, w) ->
  let call := (if filerRevisions then [PrintNewline] else []) ++ [ExportRevision i false] in
  looped filerRevisions revisions identities max_rev i st true
         (mkState w (trace st ++ call) (repositories st)) call.
Proof.
  intros Hle Hin Hexp call. unfold looped, exports. subst call.
  rewrite !export_log_call1. cbn [trace repositories world].
  cbn [fmap list_fmap fst head last]. unfold replay_exports. cbn [foldl].
  rewrite Hexp. cbn [snd].
  repeat split; try reflexivity; try discriminate.
  - apply call_kinds.
  - apply fail_fast_failed.
  - exists i. apply elem_of_cons. now left.
  - eauto.
  - eapply performs_call. exact Hexp.
  - intros ->. reflexivity.
  - rewrite selected_cons, Hin by exact Hle. now apply prefix_cons, prefix_nil.
Qed.

Lemma looped_exported filerRevisions revisions identities max_rev i st w errors st' evs :
  i <= max_rev ->
  in_filter filerRevisions revisions i = true ->
  exportRevision (repositories st) identities i (world st) = (true, w) ->
  let call := (if filerRevisions then [PrintNewline] else []) ++ [ExportRevision i true] in
  looped filerRevisions revisions identities max_rev (incr i)
         (mkState w (trace st ++ call) (repositories st)) errors st' evs ->
  looped filerRevisions revisions identities max_rev i st errors st' (call ++ evs).
Proof.
  intros Hle Hin Hexp call.
  intros (Htr & Hrepos & Hkinds & Hff & Herr & Hlast & Hw & Hperf & Hsig & _ & Hsel).
  unfold looped, exports in *. subst call. cbn [trace repositories world] in *.
  rewrite export_log_call. cbn [fmap list_fmap fst head]. unfold replay_exports in *.
  cbn [foldl]. rewrite Hexp. cbn [snd].
  repeat split; try assumption; try reflexivity.
  - now rewrite Htr, <- app_assoc.
  - apply Forall_app. split; [apply call_kinds | exact Hkinds].
  - now apply fail_fast_succeeded.
  - intros He. apply Herr in He as [rev Hrev]. exists rev. apply elem_of_cons. now right.
  - intros [rev Hrev]. apply Herr. exists rev.
    apply elem_of_cons in Hrev as [Heq|Hrev]; [discriminate | exact Hrev].
  - intros He. destruct (Hlast He) as [rev Hrev]. exists rev.
    rewrite last_cons, Hrev. reflexivity.
  - eapply performs_app; [|exact Hperf]. eapply performs_call. exact Hexp.
  - intros ->. cbn [app List.filter is_progress_signal]. now apply Hsig.
  - rewrite selected_cons, Hin by exact Hle. cbn [app].
    rewrite incr_below in Hsel by lia. apply prefix_cons. now apply Hsel.
  - intros He. rewrite selected_cons, Hin by exact Hle. cbn [app].
    rewrite incr_below in Hsel by lia. f_equal. now apply Hsel.
Qed.

Lemma looped_skipped filerRevisions revisions identities max_rev i st errors st' evs :
  i <= max_rev ->
  in_filter filerRevisions revisions i = false ->
  looped filerRevisions revisions identities max_rev (incr i)
         (mkState (world st) (trace st ++ [PrintDot]) (repositories st)) errors st' evs ->
  looped filerRevisions revisions identities max_rev i st errors st' (PrintDot :: evs).
Proof.
  intros Hle Hin.
  intros (Htr & Hrepos & Hkinds & Hff & Herr & Hlast & Hw & Hperf & Hsig & _ & Hsel).
  unfold looped, exports in *. cbn [trace repositories world] in *.
  change (export_log (PrintDot :: evs)) with (export_log evs).
  repeat split; try assumption.
  - now rewrite Htr, <- app_assoc.
  - now constructor.
  - apply Herr.
  - apply Herr.
  - exists (world st). split; [reflexivity | exact Hperf].
  - intros ->. discriminate.
  - intros _ Hyes. congruence.
  - rewrite selected_cons, Hin by exact Hle. cbn [app].
    rewrite incr_below in Hsel by lia. now apply Hsel.
  - rewrite selected_cons, Hin by exact Hle. cbn [app].
    rewrite incr_below in Hsel by lia. now apply Hsel.
Qed.

Lemma export_loop_looped filerRevisions revisions identities max_rev fuel :
  forall i st errors st',
    export_loop fuel filerRevisions revisions identities max_rev i st = Some (errors, st') ->
    exists evs, looped filerRevisions revisions identities max_rev i st errors st' evs.
Proof.
  induction fuel as [|fuel IH]; intros i st errors st' Hloop;
    (destruct (Z.le_gt_cases i max_rev) as [Hle|Hgt];
     [|rewrite export_loop_done in Hloop by lia; injection Hloop as <- <-;
       exists []; apply looped_done; lia]).
  - now rewrite export_loop_O in Hloop.
  - rewrite export_loop_S in Hloop by exact Hle.
    destruct (in_filter filerRevisions revisions i) eqn:Hin.
    + destruct (exportRevision (repositories st) identities i (world st))
        as [[|] w] eqn:Hexp.
      * apply IH in Hloop as (evs & Hevs). eexists.
        eapply looped_exported; eassumption.
      * injection Hloop as <- <-. eexists. now apply looped_failed.
    + apply IH in Hloop as (evs & Hevs). eexists.
      eapply looped_skipped; eassumption.
Qed.

(** *** Leaving the loop *)

(** Below [INT_MAX] the counter reaches the upper bound without
    wrapping: as many turns as there are candidates are enough. *)
Lemma export_loop_terminates filerRevisions revisions identities max_rev fuel :
  forall i st,
    max_rev < INT_MAX ->
    (turns i max_rev <= fuel)%nat ->
    exists errors st',
      export_loop fuel filerRevisions revisions identities max_rev i st
      = Some (errors, st').
Proof.
  induction fuel as [|fuel IH]; intros i st Hmax Hfuel;
    (destruct (Z.le_gt_cases i max_rev) as [Hle|Hgt];
     [|rewrite export_loop_done by lia; eauto]).
  - unfold turns in Hfuel. lia.
  - rewrite export_loop_S by exact Hle. rewrite incr_below by lia.
    assert (Hnext : (turns (i + 1) max_rev <= fuel)%nat) by (unfold turns in *; lia).
    destruct (in_filter filerRevisions revisions i).
    + destruct (exportRevision (repositories st) identities i (world st)) as [[|] w]; eauto.
    + eauto.
Qed.

(** With [INT_MAX] as the upper bound the test never fails: the loop is
    left by [break] only. *)
Lemma export_loop_breaks filerRevisions revisions identities fuel :
  forall i st errors st',
    i <= INT_MAX ->
    export_loop fuel filerRevisions revisions identities INT_MAX i st = Some (errors, st') ->
    errors = true.
Proof.
  induction fuel as [|fuel IH]; intros i st errors st' Hi Hloop.
  - now rewrite export_loop_O in Hloop.
  - rewrite export_loop_S in Hloop by exact Hi.
    pose proof (incr_bounded i Hi) as Hnext.
    destruct (in_filter filerRevisions revisions i).
    + destruct (exportRevision (repositories st) identities i (world st)) as [[|] w].
      * eauto.
      * now injection Hloop as <- _.
    + eauto.
Qed.

Lemma export_loop_endless filerRevisions revisions identities fuel :
  always_exports ->
  forall i st,
    i <= INT_MAX ->
    export_loop fuel filerRevisions revisions identities INT_MAX i st = None.
Proof.
  intros Halways. induction fuel as [|fuel IH]; intros i st Hi.
  - now apply export_loop_O.
  - rewrite export_loop_S by exact Hi.
    pose proof (incr_bounded i Hi) as Hnext.
    destruct (in_filter filerRevisions revisions i); [|now apply IH].
    pose proof (Halways (repositories st) identities i (world st)) as Hok.
    destruct (exportRevision (repositories st) identities i (world st)) as [ok w].
    cbn [fst] in Hok. subst ok. now apply IH.
Qed.

(** More fuel does not change the result of a loop that returns. *)
Lemma export_loop_more_fuel filerRevisions revisions identities max_rev fuel :
  forall fuel' i st r,
    (fuel <= fuel')%nat ->
    export_loop fuel filerRevisions revisions identities max_rev i st = Some r ->
    export_loop fuel' filerRevisions revisions identities max_rev i st = Some r.
Proof.
  induction fuel as [|fuel IH]; intros fuel' i st r Hfuel Hloop;
    (destruct (Z.le_gt_cases i max_rev) as [Hle|Hgt];
     [|rewrite export_loop_done in Hloop |- * by lia; exact Hloop]).
  - now rewrite export_loop_O in Hloop.
  - destruct fuel' as [|fuel']; [lia|].
    rewrite export_loop_S in Hloop |- * by exact Hle.
    destruct (in_filter filerRevisions revisions i).
    + destruct (exportRevision (repositories st) identities i (world st)) as [[|] w].
      * apply IH; [lia | exact Hloop].
      * exact Hloop.
    + apply IH; [lia | exact Hloop].
Qed.

(** *** Finalization *)

Lemma for_each_finalize (l : list (string * Repo)) : forall st,
  for_each l (fun entry => bind (call_finalizeTags entry.1 entry.2)
                                (fun _ => call_delete entry.2)) st
  = (tt, mkState (foldl (fun w entry => deleteRepository entry.2 (finalizeTags entry.2 w))
                        (world st) l)
                 (trace st ++ flat_map (fun entry => [FinalizeTags entry.1 entry.2;
                                                      Delete entry.2]) l)
                 (repositories st)).
Proof.
  induction l as [|entry l IH]; intros st.
  - cbn. rewrite app_nil_r. now destruct st.
  - cbn [for_each]. unfold bind at 1. unfold bind at 1.
    cbn [call_finalizeTags call_delete]. rewrite IH.
    cbn [world trace repositories foldl flat_map]. now rewrite <- !app_assoc.
Qed.

End ExportLoop.

(** ** From resolution to the exit status *)

Section Session.

Context {World Repo Rule : Type} `{Externals World Repo Rule}.

Implicit Types (st : State World Repo) (evs : list (Event Repo)).
Implicit Types (args : Args Rule).

Lemma export_log_stderr (ds : list Diagnostic) :
  export_log (Repo := Repo) (map Stderr ds) = [].
Proof. induction ds; [reflexivity | assumption]. Qed.

Lemma finalized_stderr (ds : list Diagnostic) :
  finalized (Repo := Repo) (map Stderr ds) = [].
Proof. induction ds; [reflexivity | assumption]. Qed.

Lemma prelude_kinds args (w : World) :
  Forall (fun e : Event Repo => is_prelude_event e = true) (prelude_events args w).
Proof.
  unfold prelude_events. rewrite !Forall_app. repeat split; try apply prelude_stderr.
  destruct (max_rev args <? 1); repeat constructor.
Qed.

Lemma prelude_youngest args (w : World) :
  youngest_calls (prelude_events args w)
  = if max_rev args <? 1 then [youngestRevision w] else [].
Proof.
  unfold prelude_events. rewrite !youngest_calls_app, !youngest_calls_stderr.
  now destruct (max_rev args <? 1).
Qed.

(** Lines 204-215 written out: the loaders and [youngestRevision] read
    the world as resolution left it, and leave it as it is. *)
Lemma prepare_spec args st :
  prepare args st
  = (loaded_identities args (world st), upper_bound args (world st),
     loaded_revisions args (world st),
     mkState (world st) (trace st ++ prelude_events args (world st)) (repositories st)).
Proof.
  unfold prepare, upper_bound, loaded_identities, loaded_revisions, prelude_events.
  unfold bind at 1. unfold call_loader at 1.
  destruct (loadIdentityMapFile (openFile (world st)) (identity_map args))
    as [identities d1].
  unfold bind at 1.
  destruct (max_rev args <? 1);
    cbn [call_youngestRevision ret world trace repositories fst snd];
    unfold bind at 1; unfold call_loader at 1; cbn [world trace repositories];
    destruct (loadRevisionsFile toInt (openFile (world st)) (revisions_file args))
      as [revisions d2];
    cbn [fst snd ret]; rewrite <- !app_assoc; reflexivity.
Qed.

(** Lines 231-236 written out. *)
Lemma finish_spec (errors : bool) st :
  finish errors st
  = (if errors then EXIT_FAILURE else EXIT_SUCCESS,
     mkState (foldl (fun w entry => deleteRepository entry.2 (finalizeTags entry.2 w))
                    (world st) (map_to_list (repositories st)))
             (trace st ++ closing (map_to_list (repositories st)))
             (repositories st)).
Proof.
  unfold finish, bind, finalize_all. rewrite for_each_finalize.
  cbn [emit ret world trace repositories]. unfold closing.
  now rewrite <- !app_assoc.
Qed.

Lemma replay_unfold fuel args min_rev st :
  replay fuel args min_rev st
  = match export_loop fuel (negb (bool_decide (loaded_revisions args (world st) = ∅)))
                      (loaded_revisions args (world st))
                      (loaded_identities args (world st))
                      (upper_bound args (world st)) min_rev
                      (mkState (world st) (trace st ++ prelude_events args (world st))
                               (repositories st)) with
    | Some (errors, st1) => Some (finish errors st1)
    | None => None
    end.
Proof. unfold replay. now rewrite prepare_spec. Qed.

Lemma replay_replayed fuel args min_rev st code st' :
  replay fuel args min_rev st = Some (code, st') ->
  exists loop, replayed args min_rev st code st' loop.
Proof.
  rewrite replay_unfold. unfold replayed.
  destruct (export_loop _ _ _ _ _ _ _) as [[errors st1]|] eqn:Hloop; [|discriminate].
  apply export_loop_looped in Hloop
    as (loop & Htr & Hrepos & Hkinds & Hff & Herr & Hlast & _ & Hperf & Hsig & Hhead & Hsel).
  cbn [trace repositories world] in *.
  rewrite finish_spec. intros Hcode. injection Hcode as <- <-.
  cbn [trace repositories world]. rewrite Htr, Hrepos, <- !app_assoc.
  exists loop. repeat split; try assumption.
  - intros Hc. apply Herr. destruct errors; [reflexivity | now elim Hc].
  - intros Hex. apply Herr in Hex as ->. discriminate.
  - destruct errors; [right | now left]. split; [reflexivity | now apply Hlast].
  - now apply Hsel.
  - intros Hc. apply Hsel; [assumption|]. destruct errors; [discriminate | reflexivity].
  - eapply performs_app; [apply performs_prelude|].
    eapply performs_app; [exact Hperf|]. now apply performs_closing.
Qed.

(** Once the loop returns, so does [replay]. *)
Lemma replay_returns fuel args min_rev st :
  upper_bound args (world st) < INT_MAX ->
  (turns min_rev (upper_bound args (world st)) <= fuel)%nat ->
  exists code st', replay fuel args min_rev st = Some (code, st').
Proof.
  intros Hmax Hfuel. rewrite replay_unfold.
  edestruct export_loop_terminates as (errors & st1 & ->); [exact Hmax | exact Hfuel |].
  destruct (finish errors st1) as [code st'] eqn:Hfinish. eauto.
Qed.

Lemma replay_more_fuel fuel fuel' args min_rev st r :
  (fuel <= fuel')%nat ->
  replay fuel args min_rev st = Some r -> replay fuel' args min_rev st = Some r.
Proof.
  intros Hfuel. rewrite !replay_unfold.
  destruct (export_loop fuel _ _ _ _ _ _) as [[errors st1]|] eqn:Hloop; [|discriminate].
  now rewrite (export_loop_more_fuel _ _ _ _ _ _ _ _ _ Hfuel Hloop).
Qed.

(** The resume-inconsistency exit. *)
Lemma session_inconsistent fuel args min_rev cutoff st :
  cutoff < resume_from args ->
  session fuel args min_rev cutoff st
  = Some (EXIT_FAILURE,
          mkState (world st) (trace st ++ [Critical (resume_from args) cutoff])
                  (repositories st)).
Proof.
  intros Hlt. unfold session.
  now settle (cutoff <? resume_from args).
Qed.

(** The state handed to [replay]: the diagnostic about the skipped
    revisions has been written when [min_rev] is below the resume
    point. *)
Lemma session_consistent fuel args min_rev cutoff st :
  resume_from args <= cutoff ->
  session fuel args min_rev cutoff st
  = replay fuel args (lower_bound args min_rev)
           (mkState (world st)
                    (trace st ++ skipping args min_rev)
                    (repositories st)).
Proof.
  intros Hle. unfold session, lower_bound, skipping.
  settle (cutoff <? resume_from args).
  destruct (min_rev <? resume_from args); cbn [when emit ret]; [reflexivity|].
  rewrite app_nil_r. now destruct st.
Qed.

End Session.

(** ** Where [restoreLog] sits in a resolver trace *)

Section RestoreLog.

Context {Repo : Type}.

Implicit Types (e : Event Repo) (l evs : list (Event Repo)) (repo : Repo).

Lemma with_restore_head resume_from e :
  exists tail, with_restore resume_from e = e :: tail
               /\ (tail = []
                   \/ exists repo cutoff repo_next cutoff',
                        e = SetupIncremental repo cutoff repo_next cutoff'
                        /\ cutoff' < resume_from /\ repo_next = cutoff'
                        /\ tail = [RestoreLog repo]).
Proof.
  destruct e; try (eexists; split; [reflexivity | now left]).
  cbn [with_restore].
  destruct (Z.ltb_spec cutoff_out resume_from), (Z.eqb_spec repo_next cutoff_out);
    cbn [andb]; eexists; (split; [reflexivity|]); eauto 10.
Qed.

Lemma with_restore_asked resume_from repo cutoff repo_next cutoff' :
  cutoff' < resume_from -> repo_next = cutoff' ->
  with_restore resume_from (SetupIncremental repo cutoff repo_next cutoff')
  = [SetupIncremental repo cutoff repo_next cutoff'; RestoreLog repo].
Proof.
  intros Hlt ->. cbn [with_restore].
  now rewrite (proj2 (Z.ltb_lt _ _) Hlt), Z.eqb_refl.
Qed.

(** A trace rebuilt by [with_restore] starts with an event that is not
    a [restoreLog]. *)
Lemma flat_map_with_restore_head resume_from l repo evs :
  Forall (fun e => is_restoreLog e = false) l ->
  flat_map (with_restore resume_from) l <> RestoreLog repo :: evs.
Proof.
  intros Hl Heq. destruct l as [|e l]; [discriminate|].
  apply Forall_cons in Hl as [He _]. cbn [flat_map] in Heq.
  destruct (with_restore_head resume_from e) as (tail & Hhead & _).
  rewrite Hhead in Heq. injection Heq as -> _. discriminate.
Qed.

(** In such a trace a [setupIncremental] is followed at once by
    [restoreLog] on its repository exactly when it asked for it, and
    every [restoreLog] comes right after such a [setupIncremental]. *)
Lemma flat_map_with_restore_splits resume_from l :
  Forall (fun e => is_restoreLog e = false) l ->
  (forall before repo cutoff repo_next cutoff' after,
      flat_map (with_restore resume_from) l
      = before ++ SetupIncremental repo cutoff repo_next cutoff' :: after ->
      (cutoff' < resume_from /\ repo_next = cutoff')
      <-> exists after', after = RestoreLog repo :: after')
  /\ (forall before repo after,
        flat_map (with_restore resume_from) l = before ++ RestoreLog repo :: after ->
        exists before' cutoff repo_next cutoff',
          before = before' ++ [SetupIncremental repo cutoff repo_next cutoff']
          /\ cutoff' < resume_from /\ repo_next = cutoff').
Proof.
  induction 1 as [|e l He Hl [IHsetup IHrestore]].
  - split; intros [|] *; discriminate.
  - cbn [flat_map].
    destruct (with_restore_head resume_from e) as (tail & Hhead & Htail).
    rewrite Hhead. split.
    + intros [|first before] repo cutoff repo_next cutoff' after Heq.
      * injection Heq as -> Heq.
        destruct Htail as [->|(r & c & n & c' & Hsame & Hlt & Hnext & ->)].
        -- cbn [app] in Heq. subst after. split.
           ++ intros [Hlt Hnext].
              rewrite (with_restore_asked _ _ _ _ _ Hlt Hnext) in Hhead. discriminate.
           ++ intros [after' Hafter]. now apply flat_map_with_restore_head in Hafter.
        -- injection Hsame as <- <- <- <-. cbn [app] in Heq. subst after. split; eauto.
      * injection Heq as <- Heq.
        destruct Htail as [->|(r & c & n & c' & -> & _ & _ & ->)].
        -- now apply IHsetup in Heq.
        -- destruct before as [|second before]; [discriminate|].
           injection Heq as <- Heq. now apply IHsetup in Heq.
    + intros [|first before] repo after Heq.
      * injection Heq as -> _. discriminate.
      * injection Heq as <- Heq.
        destruct Htail as [->|(r & c & n & c' & -> & Hlt & Hnext & ->)].
        -- apply IHrestore in Heq as (before' & c & n & c' & -> & Hask).
           exists (e :: before'), c, n, c'. split; [reflexivity | exact Hask].
        -- destruct before as [|second before].
           ++ injection Heq as <- _. exists [], c, n, c'. auto.
           ++ injection Heq as <- Heq.
              apply IHrestore in Heq as (before' & c0 & n0 & c0' & -> & Hask).
              exists (SetupIncremental r c n c' :: RestoreLog r :: before'), c0, n0, c0'.
              split; [reflexivity | exact Hask].
Qed.

Lemma filter_not_restoreLog evs :
  Forall (fun e => is_restoreLog e = false)
         (List.filter (fun e => negb (is_restoreLog e)) evs).
Proof.
  apply List.Forall_forall. intros e [_ He]%List.filter_In.
  now apply negb_true_iff in He.
Qed.

End RestoreLog.

(** ** Progress of the resolver *)

Section Progress.

Context {World Repo Rule : Type} `{Externals World Repo Rule}.

Implicit Types (st : State World Repo) (todo all : list Rule).

Lemma scan_retry resume_from rule todo cutoff min_rev st repo w repo_next cutoff' w' :
  makeRepository rule (repositories st) (world st) = (Some repo, w) ->
  setupIncremental repo cutoff w = (repo_next, cutoff', w') ->
  cutoff' < min_rev ->
  scan resume_from (rule :: todo) cutoff min_rev st
  = (Retry cutoff', visited resume_from rule repo cutoff repo_next cutoff' w' st).
Proof.
  intros Hmake Hsetup Hlt. rewrite scan_cons, Hmake, Hsetup. cbn zeta.
  now settle (cutoff' <? min_rev).
Qed.

Lemma resolve_retry fuel resume_from all cutoff st cutoff' st' :
  scan resume_from all cutoff 1 st = (Retry cutoff', st') ->
  resolve (S fuel) resume_from all cutoff st = resolve fuel resume_from all cutoff' st'.
Proof. intros Hscan. cbn [resolve]. now rewrite Hscan. Qed.

(** Within a pass started at [cutoff0], [min_rev] never exceeds
    [cutoff0], so a restart happens below [cutoff0]. *)
Lemma scan_retry_below resume_from (cutoff0 : Z) todo :
  honours_cutoff ->
  forall cutoff min_rev st cutoff' st',
    1 <= cutoff <= cutoff0 -> min_rev <= cutoff0 ->
    scan resume_from todo cutoff min_rev st = (Retry cutoff', st') ->
    1 <= cutoff' < cutoff0.
Proof.
  intros Hcontract.
  induction todo as [|rule todo IH]; intros cutoff min_rev st cutoff' st' Hc Hm Hscan;
    [discriminate|].
  rewrite scan_cons in Hscan.
  destruct (makeRepository rule (repositories st) (world st)) as [[repo|] w];
    [|discriminate].
  pose proof (Hcontract repo cutoff w (proj1 Hc)) as Hsetup.
  destruct (setupIncremental repo cutoff w) as [[repo_next cutoff1] w'].
  cbn [fst snd] in Hsetup. cbn zeta in Hscan.
  destruct (Z.ltb_spec cutoff1 min_rev).
  - injection Hscan as <- _. lia.
  - apply IH in Hscan; lia.
Qed.

Lemma resolve_enough_fuel resume_from all :
  honours_cutoff ->
  forall fuel cutoff st,
    1 <= cutoff -> (Z.to_nat cutoff <= fuel)%nat ->
    exists r st', resolve fuel resume_from all cutoff st = Some (r, st').
Proof.
  intros Hcontract.
  induction fuel as [|fuel IH]; intros cutoff st Hc Hfuel; [lia|].
  cbn [resolve].
  destruct (scan resume_from all cutoff 1 st) as [[m c|c|] st1] eqn:Hscan; eauto.
  apply (scan_retry_below resume_from cutoff all Hcontract) in Hscan; [|lia..].
  apply IH; lia.
Qed.

End Progress.

(** ** The stand-ins and the contracts *)

Section Fixtures.

Lemma read_log_cutoff (log : list (positive * bool)) : forall cutoff last_revnum,
  1 <= cutoff -> 0 <= last_revnum < cutoff ->
  1 <= (Fixture.read_log log cutoff last_revnum).1.2 <= cutoff
  /\ (Fixture.read_log log cutoff last_revnum).1.1 <= cutoff.
Proof.
  induction log as [|[revnum known] log IH]; intros cutoff last_revnum Hc Hl.
  - cbn. lia.
  - cbn [Fixture.read_log]. destruct (Z.leb_spec cutoff (Z.pos revnum)); [cbn; lia|].
    destruct known; cbn [negb]; [|cbn; lia].
    specialize (IH cutoff (Z.pos revnum) Hc ltac:(lia)).
    destruct (Fixture.read_log log cutoff (Z.pos revnum)) as [[next cutoff'] kept].
    exact IH.
Qed.

Lemma fixture_honours_cutoff : honours_cutoff (H := Fixture.externals).
Proof.
  intros repo cutoff w Hc. cbn [setupIncremental Fixture.externals]. unfold Fixture.setup.
  destruct (Fixture.logs w !! repo) as [log|]; [|cbn; lia].
  pose proof (read_log_cutoff log cutoff 0 Hc ltac:(lia)) as Hlog.
  destruct (Fixture.read_log log cutoff 0) as [[next cutoff'] kept]. exact Hlog.
Qed.

Lemma read_log_never_raises (log : list (positive * bool)) : forall cutoff last_revnum,
  (Fixture.read_log log cutoff last_revnum).1.2 <= cutoff.
Proof.
  induction log as [|[revnum known] log IH]; intros cutoff last_revnum.
  - cbn. lia.
  - cbn [Fixture.read_log]. destruct (Z.leb_spec cutoff (Z.pos revnum)); [cbn; lia|].
    destruct known; cbn [negb]; [|cbn; lia].
    specialize (IH cutoff (Z.pos revnum)).
    destruct (Fixture.read_log log cutoff (Z.pos revnum)) as [[next cutoff'] kept].
    exact IH.
Qed.

Lemma fixture_never_raises : never_raises (H := Fixture.externals).
Proof.
  intros repo cutoff w. cbn [setupIncremental Fixture.externals]. unfold Fixture.setup.
  destruct (Fixture.logs w !! repo) as [log|]; [|cbn; lia].
  pose proof (read_log_never_raises log cutoff 0) as Hlog.
  destruct (Fixture.read_log log cutoff 0) as [[next cutoff'] kept]. exact Hlog.
Qed.

Lemma stubborn_never_raises : never_raises (H := Stubborn.externals).
Proof.
  intros [|] cutoff w; cbn; lia.
Qed.

(** A repository without a log, asked to resume from a revision below
    1, sends the resolver back to [retry] in every pass. *)
Lemma fixture_below_one (fuel : nat) : forall st,
  Fixture.logs (world st) !! "a" = None ->
  resolve (H := Fixture.externals) fuel (-5) [Fixture.mkRule "a" ""] (-5) st = None.
Proof.
  induction fuel as [|fuel IH]; intros st Hlog; [reflexivity|].
  cbn [resolve]. rewrite scan_cons.
  cbn [makeRepository setupIncremental Fixture.externals Fixture.make Fixture.r_forwardTo
       Fixture.r_name String.eqb].
  unfold Fixture.setup. rewrite Hlog. cbn zeta.
  change (-5 <? 1) with true. cbv iota. apply IH. exact Hlog.
Qed.

(** The first writer answers 10 whatever the cutoff, the second keeps
    the cutoff at 4 or below: every pass ends in [goto retry]. *)
Lemma stubborn_retries (fuel : nat) : forall cutoff st,
  resolve (H := Stubborn.externals) fuel 0 [true; false] cutoff st = None.
Proof.
  induction fuel as [|fuel IH]; intros cutoff st; [reflexivity|].
  cbn [resolve]. rewrite scan_cons.
  cbn [makeRepository setupIncremental Stubborn.externals Stubborn.setup]. cbn zeta.
  destruct (Z.ltb_spec cutoff 1); [apply IH|].
  rewrite scan_cons.
  cbn [makeRepository setupIncremental Stubborn.externals Stubborn.setup]. cbn zeta.
  settle (Z.min cutoff 4 <? Z.max 1 10).
  apply IH.
Qed.

End Fixtures.

(** ** The cutoff and the hash through resolution *)

Section Threading.

Context {World Repo Rule : Type} `{Externals World Repo Rule}.

Implicit Types (st : State World Repo) (todo all : list Rule).
Implicit Types (evs : list (Event Repo)) (repo : Repo).

Lemma final_cutoff_app evs1 evs2 (cutoff : Z) :
  final_cutoff cutoff (evs1 ++ evs2)
  = match final_cutoff cutoff evs1 with
    | Some cutoff' => final_cutoff cutoff' evs2
    | None => None
    end.
Proof.
  revert cutoff. induction evs1 as [|e evs1 IH]; intros cutoff; [reflexivity|].
  destruct e; cbn [app final_cutoff]; try apply IH.
  destruct (cutoff_in =? cutoff); [apply IH | reflexivity].
Qed.

Lemma made_app evs1 evs2 : made (evs1 ++ evs2) = made evs1 ++ made evs2.
Proof. apply flat_map_app. Qed.

Lemma registered_app (repos : gmap string Repo) evs1 evs2 :
  registered repos (evs1 ++ evs2) = registered (registered repos evs1) evs2.
Proof. unfold registered. now rewrite made_app, foldl_app. Qed.

Lemma setups_satisfy_app (P : Z -> Z -> Z -> Prop) evs1 evs2 :
  setups_satisfy P evs1 -> setups_satisfy P evs2 -> setups_satisfy P (evs1 ++ evs2).
Proof. unfold setups_satisfy. rewrite Forall_app. auto. Qed.

(** What one visited repository adds to the trace. *)
Lemma visit_events (P : Z -> Z -> Z -> Prop) resume_from (name : string) repo
    (cutoff repo_next cutoff' : Z) (repos : gmap string Repo) :
  P cutoff repo_next cutoff' ->
  let evs := MakeRepository name (Some repo)
               :: with_restore resume_from
                    (SetupIncremental repo cutoff repo_next cutoff') in
  final_cutoff cutoff evs = Some cutoff'
  /\ setups_satisfy P evs
  /\ Forall (fun e => is_resolution_event e = true) evs
  /\ registered repos evs = <[name := repo]> repos.
Proof.
  intros HP. unfold with_restore, registered, setups_satisfy.
  destruct ((cutoff' <? resume_from) && (repo_next =? cutoff'));
    cbn; rewrite Z.eqb_refl; repeat split; repeat constructor; exact HP.
Qed.

Section Invariant.

(** [I] is kept by [setupIncremental], and [P] relates what it is
    given to what it returns, wherever [I] holds. *)
Variables (I : Z -> Prop) (P : Z -> Z -> Z -> Prop).

Hypothesis setup_keeps :
  forall repo cutoff (w : World),
    I cutoff ->
    I (setupIncremental repo cutoff w).1.2
    /\ P cutoff (setupIncremental repo cutoff w).1.1 (setupIncremental repo cutoff w).1.2.

Lemma scan_threaded resume_from todo : forall cutoff min_rev st,
  I cutoff ->
  exists evs cutoff',
    trace (scan resume_from todo cutoff min_rev st).2 = trace st ++ evs
    /\ repositories (scan resume_from todo cutoff min_rev st).2
       = registered (repositories st) evs
    /\ final_cutoff cutoff evs = Some cutoff'
    /\ I cutoff'
    /\ leaves_cutoff (scan resume_from todo cutoff min_rev st).1 cutoff'
    /\ setups_satisfy P evs
    /\ Forall (fun e => is_resolution_event e = true) evs.
Proof.
  induction todo as [|rule todo IH]; intros cutoff min_rev st HI.
  - exists [], cutoff. cbn. rewrite app_nil_r. repeat split; auto; constructor.
  - rewrite scan_cons.
    destruct (makeRepository rule (repositories st) (world st)) as [[repo|] w].
    + pose proof (setup_keeps repo cutoff w HI) as [HI' HP].
      destruct (setupIncremental repo cutoff w) as [[repo_next cutoff1] w'].
      cbn [fst snd] in HI', HP. cbn zeta.
      destruct (visit_events P resume_from (rule_name rule) repo cutoff repo_next cutoff1
                             (repositories st) HP) as (Hfinal & Hsat & Hres & Hreg).
      destruct (cutoff1 <? min_rev).
      * eexists _, cutoff1. cbn [fst snd visited trace repositories].
        repeat split; try eassumption; reflexivity || (symmetry; exact Hreg).
      * destruct (IH cutoff1 (Z.max min_rev repo_next)
                     (visited resume_from rule repo cutoff repo_next cutoff1 w' st) HI')
          as (evs & cutoff2 & Htr & Hrepos & Hfin2 & HI2 & Hleaves & Hsat2 & Hres2).
        eexists _, cutoff2. rewrite Htr, Hrepos. cbn [visited trace repositories].
        rewrite <- app_assoc, final_cutoff_app, Hfinal, registered_app, Hreg.
        repeat split; try assumption.
        -- now apply setups_satisfy_app.
        -- apply Forall_app. auto.
    + exists [MakeRepository (rule_name rule) None], cutoff. cbn.
      repeat split; auto; repeat constructor.
Qed.

Lemma resolve_threaded resume_from all fuel : forall cutoff st r st',
  I cutoff ->
  resolve fuel resume_from all cutoff st = Some (r, st') ->
  exists evs cutoff',
    trace st' = trace st ++ evs
    /\ repositories st' = registered (repositories st) evs
    /\ final_cutoff cutoff evs = Some cutoff'
    /\ I cutoff'
    /\ match r with Resolved _ c => c = cutoff' | Aborted => True end
    /\ setups_satisfy P evs
    /\ Forall (fun e => is_resolution_event e = true) evs.
Proof.
  induction fuel as [|fuel IH]; intros cutoff st r st' HI Hr; [discriminate|].
  cbn [resolve] in Hr.
  destruct (scan_threaded resume_from all cutoff 1 st HI)
    as (evs & cutoff1 & Htr & Hrepos & Hfinal & HI1 & Hleaves & Hsat & Hres).
  destruct (scan resume_from all cutoff 1 st) as [[m c|c|] st1];
    cbn [fst snd leaves_cutoff] in *.
  - injection Hr as <- <-. subst c. exists evs, cutoff1. auto 10.
  - subst c. apply IH in Hr as (evs' & cutoff2 & Htr' & Hrepos' & Hfinal' & HI2 & Hr & Hsat' & Hres');
      [|exact HI1].
    exists (evs ++ evs'), cutoff2.
    rewrite Htr', Htr, Hrepos', Hrepos, <- app_assoc, final_cutoff_app, Hfinal, registered_app.
    repeat split; try assumption.
    + now apply setups_satisfy_app.
    + apply Forall_app. auto.
  - injection Hr as <- <-. exists evs, cutoff1. auto 10.
Qed.

End Invariant.

End Threading.

(** ** Runs of [main] *)

Section RunLemmas.

Context {World Repo Rule : Type} `{Externals World Repo Rule}.

Implicit Types (st : State World Repo) (evs : list (Event Repo)) (args : Args Rule).

(** More fuel does not change the result of a resolution that
    returns. *)
Lemma resolve_more_fuel resume_from (all : list Rule) fuel :
  forall fuel' cutoff st r,
    (fuel <= fuel')%nat ->
    resolve fuel resume_from all cutoff st = Some r ->
    resolve fuel' resume_from all cutoff st = Some r.
Proof.
  induction fuel as [|fuel IH]; intros fuel' cutoff st r Hfuel Hr; [discriminate|].
  destruct fuel' as [|fuel']; [lia|]. cbn [resolve] in *.
  destruct (scan resume_from all cutoff 1 st) as [[m c|c|] st1]; try exact Hr.
  apply IH; [lia | exact Hr].
Qed.

Lemma resolving_placed resume_from evs :
  resolving resume_from evs -> restoreLog_placed resume_from evs.
Proof.
  intros (_ & _ & Hevs).
  pose proof (flat_map_with_restore_splits resume_from _ (filter_not_restoreLog evs))
    as Hsplits.
  rewrite Hevs in Hsplits. exact Hsplits.
Qed.

(** No [restoreLog] in a resolver trace in which every
    [setupIncremental] left a cutoff that is not below the resume
    point. *)
Lemma resolving_without_restoreLog resume_from evs :
  resolving resume_from evs ->
  setups_satisfy (fun _ _ cutoff' => resume_from <= cutoff') evs ->
  Forall (fun e => is_restoreLog e = false) evs.
Proof.
  intros [_ Hplaced]%resolving_placed Hsetups. apply Forall_forall. intros e He.
  destruct e; try reflexivity.
  apply list_elem_of_split in He as (before & after & Hsplit).
  destruct (Hplaced _ _ _ Hsplit) as (before' & c & n & c' & Hbefore & Hlt & _).
  subst evs before.
  unfold setups_satisfy in Hsetups. rewrite Forall_forall in Hsetups.
  specialize (Hsetups (SetupIncremental repo c n c')). cbn in Hsetups.
  assert (resume_from <= c'); [|lia].
  apply Hsetups. rewrite <- app_assoc. apply elem_of_app. right. apply elem_of_app. left.
  apply elem_of_cons. now left.
Qed.

Lemma foldr_max_bounds (floor : Z) (l : list Z) :
  floor <= foldr Z.max floor l
  /\ (forall n, n ∈ l -> n <= foldr Z.max floor l)
  /\ (foldr Z.max floor l = floor \/ foldr Z.max floor l ∈ l).
Proof.
  induction l as [|a l (Hfloor & Hall & Hmem)]; cbn [foldr].
  - repeat split; [lia | | now left]. intros n Hn. inversion Hn.
  - repeat split; [lia | |].
    + intros n [->|Hn]%elem_of_cons; [lia|]. apply Hall in Hn. lia.
    + destruct (Z.max_spec a (foldr Z.max floor l)) as [[_ ->]|[_ ->]].
      * destruct Hmem as [->|Hmem]; [now left | right; apply elem_of_cons; now right].
      * right. apply elem_of_cons. now left.
Qed.

Lemma resolved_min_rev_positive fuel resume_from (all : list Rule) cutoff st
    min_rev cutoff' st' :
  resolve fuel resume_from all cutoff st = Some (Resolved min_rev cutoff', st') ->
  1 <= min_rev.
Proof.
  intros Hresolve.
  apply resolve_final_pass in Hresolve as (cutoff0 & st0 & before & Hscan & _).
  apply scan_scanned in Hscan as (pass & _ & -> & _).
  rewrite foldl_max_foldr. exact (proj1 (foldr_max_bounds 1 (setup_nexts pass))).
Qed.

Lemma resolve_aborted resume_from (all : list Rule) (fuel : nat) :
  forall cutoff st st',
    resolve fuel resume_from all cutoff st = Some (Aborted, st') ->
    exists name, last (trace st') = Some (MakeRepository name None).
Proof.
  assert (Hscan : forall todo cutoff min_rev st st',
             scan resume_from todo cutoff min_rev st = (NoRepository, st') ->
             exists name, last (trace st') = Some (MakeRepository name None)).
  { induction todo as [|rule todo IH]; intros cutoff min_rev st st' Hs; [discriminate|].
    rewrite scan_cons in Hs.
    destruct (makeRepository rule (repositories st) (world st)) as [[repo|] w1].
    - destruct (setupIncremental repo cutoff w1) as [[repo_next cutoff1] w2].
      cbn zeta in Hs. destruct (cutoff1 <? min_rev); [discriminate | eauto].
    - injection Hs as <-. exists (rule_name rule). cbn [trace]. apply last_snoc. }
  induction fuel as [|fuel IH]; intros cutoff st st' Hr; [discriminate|].
  cbn [resolve] in Hr.
  destruct (scan resume_from all cutoff 1 st) as [[m c|c|] st1] eqn:Hs.
  - discriminate.
  - eauto.
  - injection Hr as <-. eauto.
Qed.

(** *** The registered repositories *)

Lemma resolved_repositories (fuel : nat) (resume_from : Z) (all : list Rule) (cutoff : Z)
    (w : World) (min_rev cutoff' : Z) st' :
  resolve fuel resume_from all cutoff (start w) = Some (Resolved min_rev cutoff', st') ->
  dom (repositories st') = list_to_set (rule_name <$> all).
Proof.
  intros Hresolve.
  apply resolve_final_pass in Hresolve as (cutoff0 & st0 & before & Hscan & _ & Hdom0).
  apply scan_scanned in Hscan as (pass & _ & _ & _ & _ & Hdom).
  cbn [start repositories] in Hdom0. rewrite dom_empty_L in Hdom0. set_solver.
Qed.

Lemma map_to_list_names (repos : gmap string Repo) (names : list string) :
  dom repos = list_to_set names ->
  (map_to_list repos).*1 ≡ₚ remove_dups names.
Proof.
  intros Hdom. apply NoDup_Permutation.
  - apply NoDup_fst_map_to_list.
  - apply NoDup_remove_dups.
  - intros name. split.
    + intros ([name' repo] & -> & Hin)%list_elem_of_fmap.
      apply (proj2 (elem_of_remove_dups _ _)).
      apply (proj1 (elem_of_list_to_set (C := gset string) _ _)).
      rewrite <- Hdom. apply elem_of_dom. apply elem_of_map_to_list in Hin. eauto.
    + intros Hin. apply (proj1 (elem_of_remove_dups _ _)) in Hin.
      apply (proj2 (elem_of_list_to_set (C := gset string) _ _)) in Hin.
      rewrite <- Hdom in Hin. apply elem_of_dom in Hin as [repo Hrepo].
      apply list_elem_of_fmap. exists (name, repo). split; [reflexivity|].
      now apply elem_of_map_to_list.
Qed.

(** *** The three ways a run ends *)

Lemma main_cases fuel args (w : World) code st' :
  main fuel args w = Some (code, st') ->
  let resolution :=
    resolve fuel (resume_from args) (rules args) (initial_cutoff (resume_from args))
            (start w) in
  (code = EXIT_FAILURE /\ resolution = Some (Aborted, st'))
  \/ (exists min_rev cutoff st1,
        resolution = Some (Resolved min_rev cutoff, st1)
        /\ cutoff < resume_from args /\ code = EXIT_FAILURE
        /\ st' = mkState (world st1) (trace st1 ++ [Critical (resume_from args) cutoff])
                         (repositories st1))
  \/ (exists min_rev cutoff st1 loop,
        resolution = Some (Resolved min_rev cutoff, st1)
        /\ resume_from args <= cutoff
        /\ replayed args (lower_bound args min_rev)
                    (mkState (world st1) (trace st1 ++ skipping args min_rev)
                             (repositories st1))
                    code st' loop).
Proof.
  intros Hmain. cbv zeta. unfold main in Hmain.
  destruct (resolve fuel (resume_from args) (rules args)
                    (initial_cutoff (resume_from args)) (start w))
    as [[[min_rev cutoff|] st1]|]; [| |discriminate].
  - destruct (Z.lt_ge_cases cutoff (resume_from args)) as [Hlt|Hge].
    + rewrite session_inconsistent in Hmain by exact Hlt. injection Hmain as <- <-.
      right. left. eauto 10.
    + rewrite session_consistent in Hmain by exact Hge.
      apply replay_replayed in Hmain as [loop Hloop]. right. right. eauto 10.
  - injection Hmain as <- <-. now left.
Qed.

(** Past the resume check, [main] is the replay from the lower bound. *)
Lemma main_resolved fuel args (w : World) min_rev cutoff st1 :
  resolve fuel (resume_from args) (rules args) (initial_cutoff (resume_from args)) (start w)
  = Some (Resolved min_rev cutoff, st1) ->
  resume_from args <= cutoff ->
  main fuel args w
  = replay fuel args (lower_bound args min_rev)
           (mkState (world st1) (trace st1 ++ skipping args min_rev) (repositories st1)).
Proof.
  intros Hresolve Hle. unfold main. rewrite Hresolve. now apply session_consistent.
Qed.

(** With an upper bound below [INT_MAX], such a run returns: fuel for
    the passes of the resolver and for the candidates of the interval is
    enough. *)
Lemma main_returns fuel args (w : World) min_rev cutoff st1 :
  resolve fuel (resume_from args) (rules args) (initial_cutoff (resume_from args)) (start w)
  = Some (Resolved min_rev cutoff, st1) ->
  resume_from args <= cutoff ->
  upper_bound args (world st1) < INT_MAX ->
  forall fuel',
    (fuel <= fuel')%nat ->
    (turns (lower_bound args min_rev) (upper_bound args (world st1)) <= fuel')%nat ->
    exists code st', main fuel' args w = Some (code, st').
Proof.
  intros Hresolve Hle Hmax fuel' Hfuel Hturns.
  apply (resolve_more_fuel _ _ _ fuel') in Hresolve; [|exact Hfuel].
  rewrite (main_resolved _ _ _ _ _ _ Hresolve Hle).
  now apply replay_returns.
Qed.

Lemma skipping_kinds args (min_rev : Z) :
  Forall (fun e : Event Repo => is_prelude_event e = true) (skipping args min_rev).
Proof. unfold skipping. destruct (min_rev <? resume_from args); repeat constructor. Qed.

Lemma performs_skipping args (min_rev : Z) (w : World) :
  performs w (skipping (Repo := Repo) args min_rev) w.
Proof.
  unfold skipping. destruct (min_rev <? resume_from args); [|reflexivity].
  now apply performs_one.
Qed.

(** The world a run ends in is the one that the calls of its trace
    produce, made one after the other from the initial world. *)
Lemma main_performs fuel args (w : World) code st' :
  main fuel args w = Some (code, st') ->
  performs w (trace st') (world st').
Proof.
  intros Hmain.
  destruct (main_cases _ _ _ _ _ Hmain)
    as [(_ & Hres)|[(m & c & st1 & Hres & _ & _ & ->)|(m & c & st1 & loop & Hres & _ & Hrep)]];
    apply resolve_performs in Hres as (evs & Htrace & Hevs);
    cbn [start trace world app] in Htrace, Hevs.
  - now rewrite Htrace.
  - cbn [trace world]. rewrite Htrace.
    eapply performs_app; [exact Hevs|]. now apply performs_one.
  - destruct Hrep as (Htr & _ & _ & _ & _ & _ & _ & _ & _ & Hperf).
    cbn [trace world repositories] in Htr, Hperf. rewrite Htr, Htrace, <- !app_assoc.
    eapply performs_app; [exact Hevs|].
    eapply performs_app; [apply performs_skipping | exact Hperf].
Qed.

(** The trace of a run that returns: the resolver's part, then one of
    nothing (no writer could be made), the resume-inconsistency error,
    or the three phases of the replay. *)
Lemma main_phases fuel args (w : World) code st' :
  main fuel args w = Some (code, st') ->
  exists resolution rest,
    trace st' = resolution ++ rest
    /\ repositories st' = registered ∅ resolution
    /\ resolving (resume_from args) resolution
    /\ Forall (fun e => is_resolution_event e = true) resolution
    /\ (exists r st1,
          resolve fuel (resume_from args) (rules args)
                  (initial_cutoff (resume_from args)) (start w) = Some (r, st1)
          /\ trace st1 = resolution)
    /\ ((rest = [] /\ code = EXIT_FAILURE
         /\ exists st1, resolve fuel (resume_from args) (rules args)
                                (initial_cutoff (resume_from args)) (start w)
                        = Some (Aborted, st1))
        \/ (exists min_rev cutoff st1,
              resolve fuel (resume_from args) (rules args)
                      (initial_cutoff (resume_from args)) (start w)
              = Some (Resolved min_rev cutoff, st1)
              /\ cutoff < resume_from args /\ code = EXIT_FAILURE
              /\ rest = [Critical (resume_from args) cutoff])
        \/ (exists min_rev cutoff st1 prelude loop,
              resolve fuel (resume_from args) (rules args)
                      (initial_cutoff (resume_from args)) (start w)
              = Some (Resolved min_rev cutoff, st1)
              /\ resume_from args <= cutoff /\ 1 <= min_rev
              /\ rest = prelude ++ loop ++ closing (map_to_list (repositories st'))
              /\ Forall (fun e => is_prelude_event e = true) prelude
              /\ Forall (fun e => is_loop_event e = true) loop
              /\ (upper_bound args (world st1) < INT_MAX ->
                  exports loop
                  `prefix_of` selected (negb (bool_decide
                                                (loaded_revisions args (world st1) = ∅)))
                                       (loaded_revisions args (world st1))
                                       (lower_bound args min_rev)
                                       (upper_bound args (world st1)))
              /\ (code = EXIT_SUCCESS
                  \/ code = EXIT_FAILURE
                     /\ exists rev, last (export_log loop) = Some (rev, false)))).
Proof.
  intros Hmain.
  assert (Hresolution : forall r st1,
             resolve fuel (resume_from args) (rules args)
                     (initial_cutoff (resume_from args)) (start w) = Some (r, st1) ->
             repositories st1 = registered ∅ (trace st1)
             /\ resolving (resume_from args) (trace st1)
             /\ Forall (fun e => is_resolution_event e = true) (trace st1)).
  { intros r st1 Hresolve.
    pose proof (resolve_trace _ _ _ _ _ _ _ Hresolve) as (evs & Htrace & Hevs).
    pose proof (resolve_threaded (fun _ => True) (fun _ _ _ => True)
                  (fun _ _ _ _ => conj I I) _ _ _ _ _ _ _ I Hresolve)
      as (evs' & _ & Htrace' & Hrepos & _ & _ & _ & _ & Hkinds).
    rewrite Htrace in Htrace'. apply app_inv_head in Htrace' as <-.
    cbn [start trace repositories app] in Htrace, Hrepos. rewrite Htrace. auto. }
  destruct (main_cases _ _ _ _ _ Hmain)
    as [(-> & Hres)|[(m & c & st1 & Hres & Hlt & -> & ->)
                    |(m & c & st1 & loop & Hres & Hle & Hrep)]];
    pose proof (Hresolution _ _ Hres) as (Hrepos & Hresolving & Hkinds).
  - exists (trace st'), []. rewrite app_nil_r.
    repeat (split; [first [reflexivity | assumption | now eauto]|]). left. eauto.
  - exists (trace st1), [Critical (resume_from args) c]. cbn [trace repositories].
    repeat (split; [first [reflexivity | assumption | now eauto]|]). right. left. eauto 10.
  - pose proof (resolved_min_rev_positive _ _ _ _ _ _ _ _ Hres) as Hpositive.
    destruct Hrep as (Htr & Hrepos' & Hloop & _ & _ & Hcode & _ & _ & Hsel & _).
    cbn [trace repositories world] in Htr, Hrepos', Hsel.
    exists (trace st1),
      (skipping args m ++ prelude_events args (world st1) ++ loop
         ++ closing (map_to_list (repositories st'))).
    rewrite Htr, Hrepos', <- !app_assoc.
    repeat (split; [first [reflexivity | assumption | now eauto]|]). right. right.
    exists m, c, st1, (skipping args m ++ prelude_events args (world st1)), loop.
    rewrite <- !app_assoc.
    repeat (split; [first [reflexivity | assumption]|]).
    split; [apply Forall_app; split; [apply skipping_kinds | apply prelude_kinds]|].
    split; [assumption|].
    split; [intros Hmax; now apply Hsel | exact Hcode].
Qed.

Lemma main_exit_status fuel args (w : World) code st' :
  main fuel args w = Some (code, st') -> code = EXIT_SUCCESS \/ code = EXIT_FAILURE.
Proof.
  intros Hmain.
  destruct (main_cases _ _ _ _ _ Hmain)
    as [(-> & _)|[(m & c & st1 & _ & _ & -> & _)|(m & c & st1 & loop & _ & _ & Hrep)]];
    auto.
  destruct Hrep as (_ & _ & _ & _ & _ & [->|[-> _]] & _); auto.
Qed.

End RunLemmas.

(** ** The revision filter *)

Lemma selected_filter (revisions : gset Z) (min_rev max_rev i : Z) :
  i ∈ selected true revisions min_rev max_rev
  <-> min_rev <= i <= max_rev /\ i ∈ revisions.
Proof.
  unfold selected, in_filter. cbn [negb orb].
  rewrite list_elem_of_In, List.filter_In, <- list_elem_of_In, elem_of_seqZ.
  rewrite bool_decide_eq_true. intuition lia.
Qed.

Lemma selected_everything (revisions : gset Z) (min_rev max_rev : Z) :
  selected false revisions min_rev max_rev = seqZ min_rev (max_rev - min_rev + 1).
Proof.
  unfold selected, in_filter. cbn [negb orb].
  induction (seqZ min_rev (max_rev - min_rev + 1)) as [|i l IH]; [reflexivity|].
  cbn. now rewrite IH.
Qed.

Lemma revisions_unparsable (toInt : string -> option Z) (lines : list string) :
  Forall (fun line => toInt (trimmed line) = None) lines ->
  forall acc, (foldl (revisions_step toInt) acc lines).1 = acc.1.
Proof.
  induction 1 as [|line lines Hline _ IH]; intros [revisions diagnostics]; [reflexivity|].
  cbn [foldl]. rewrite IH. unfold revisions_step. now rewrite Hline.
Qed.

(** The four ways in which the loader comes back with an empty set. *)
Lemma loadRevisionsFile_empty (toInt : string -> option Z)
    (open : string -> option string) (fileName : string) :
  fileName = ""
  \/ open fileName = None
  \/ open fileName = Some ""
  \/ (exists content, open fileName = Some content
                      /\ Forall (fun line => toInt (trimmed line) = None)
                                (readLines content)) ->
  (loadRevisionsFile toInt open fileName).1 = ∅.
Proof.
  unfold loadRevisionsFile.
  intros [->|[Hopen|[Hopen|(content & Hopen & Hlines)]]]; [reflexivity|..];
    destruct (String.eqb fileName ""); try reflexivity; rewrite Hopen; try reflexivity.
  now rewrite revisions_unparsable.
Qed.

(** ** Sample runs *)

Section Runs.

Lemma fixture_keeps_cutoff_positive : keeps_cutoff_positive (H := Fixture.externals).
Proof. intros repo cutoff w Hc. apply (fixture_honours_cutoff repo cutoff w Hc). Qed.

Lemma stubborn_keeps_cutoff_positive : keeps_cutoff_positive (H := Stubborn.externals).
Proof. intros [|] cutoff w Hc; cbn; lia. Qed.

(** [readLine] cuts the file into pieces without losing a byte. *)
Lemma readLines_concat (content : string) :
  foldr String.append EmptyString (readLines content) = content.
Proof.
  induction content as [|c rest IH]; [reflexivity|].
  cbn [readLines]. destruct (Ascii.eqb c LF).
  - cbn. now rewrite IH.
  - destruct (readLines rest) as [|l ls]; cbn in *; now rewrite <- IH.
Qed.

(** Lines that do not convert are skipped, each with one diagnostic. *)
Example revisions_file_with_a_bad_line :
  loadRevisionsFile Fixture.to_int (fun _ => Some "5
7
abc
9") "revisions"
  = ({[5; 7; 9]}, [UnableToConvert "abc"]).
Proof. vm_compute. reflexivity. Qed.

(** Repository [b] lowers the cutoff from 10 to 4 after [a] reported
    10: the pass is abandoned, the next one runs with cutoff 4, and the
    run ends on the resume-inconsistency error. *)
Example restart_with_lower_cutoff :
  option_map (fun r => (r.1, trace r.2))
             (main 2 Scenario.inconsistent Fixture.interrupted)
  = Some (EXIT_FAILURE,
          [MakeRepository "a" (Some "a"); SetupIncremental "a" 10 10 10;
           MakeRepository "b" (Some "b"); SetupIncremental "b" 10 4 4; RestoreLog "b";
           MakeRepository "a" (Some "a"); SetupIncremental "a" 4 4 4; RestoreLog "a";
           MakeRepository "b" (Some "b"); SetupIncremental "b" 4 4 4; RestoreLog "b";
           Critical 10 4]).
Proof. vm_compute. reflexivity. Qed.

(** One repository, no resume point, 100 revisions: every revision is
    exported in order, the repository is finalized once, the exit status
    is [EXIT_SUCCESS]. *)
Example hundred_revisions :
  option_map (fun r => (r.1, exports (trace r.2), finalized (trace r.2)))
             (main 100 Scenario.single Fixture.hundred)
  = Some (EXIT_SUCCESS, seqZ 1 100, [("a", "a")]).
Proof. vm_compute. reflexivity. Qed.

(** A signed number is a revision number like any other for the
    loader. *)
Example revisions_file_with_signs :
  loadRevisionsFile Fixture.to_int (fun _ => Some "-3
+5
-
2147483648") "revisions"
  = ({[-3; 5]}, [UnableToConvert "-"; UnableToConvert "2147483648"]).
Proof. vm_compute. reflexivity. Qed.

(** With [--max-rev 2147483647] the test [i <= max_rev] never fails:
    after [INT_MAX] the counter is [INT_MIN] and the loop goes on.  It
    ends here because the revision after [INT_MIN] cannot be
    exported. *)
Example counter_wraps_at_INT_MAX :
  option_map (fun r => (r.1, exports (trace r.2)))
             (main 4 Scenario.wrapping Fixture.boundless)
  = Some (EXIT_FAILURE, [2147483646; 2147483647; -2147483648; -2147483647]).
Proof. vm_compute. reflexivity. Qed.

(** The same run with fewer turns than that has not returned yet. *)
Example counter_wraps_and_goes_on :
  main 3 Scenario.wrapping Fixture.boundless = None.
Proof. vm_compute. reflexivity. Qed.

End Runs.

(** * The claims *)

(** C1, as stated, fails: a contract under which [setupIncremental] only
    observes or lowers [cutoff] does not make the resolver terminate for
    every initial cutoff.  With [--resume-from -5] and one repository
    that has no log, the cutoff starts at -5 and every pass goes back to
    [retry]; and with an initial cutoff of [INT_MAX], a writer that
    reports a next revision above the cutoff it is given keeps [min_rev]
    above the cutoff in every pass.  Both writers never raise the
    cutoff, and no amount of fuel lets [main] return. *)
Lemma resolver_does_not_always_terminate :
  (never_raises (H := Fixture.externals)
   /\ initial_cutoff (-5) = -5
   /\ forall fuel,
        main (H := Fixture.externals) fuel
             (mkArgs [Fixture.mkRule "a" ""] (-5) 0 "" "") Fixture.fresh = None)
  /\ (never_raises (H := Stubborn.externals)
      /\ initial_cutoff 0 = INT_MAX
      /\ forall fuel,
           main (H := Stubborn.externals) fuel (mkArgs [true; false] 0 0 "" "") tt = None).
Proof.
  split; (split; [|split; [reflexivity|]]).
  - exact fixture_never_raises.
  - intros fuel. unfold main. cbn [resume_from rules].
    change (initial_cutoff (-5)) with (-5).
    now rewrite fixture_below_one.
  - exact stubborn_never_raises.
  - intros fuel. unfold main. cbn [resume_from rules].
    now rewrite stubborn_retries.
Qed.

(** C1, amended.  Whatever the repository writers do, whenever
    [setupIncremental] leaves a cutoff strictly below the [min_rev]
    accumulated in the pass, the pass ends at that repository with
    [goto retry], and the next pass starts from the first repository
    with the lowered cutoff and [min_rev = 1].  If moreover
    [setupIncremental], given a cutoff of at least 1, leaves a cutoff
    between 1 and the one it was given and returns a next revision no
    greater than the cutoff it was given, then every restart from a
    cutoff of at least 1 strictly lowers the cutoff, which stays at
    least 1, and from an initial cutoff of at least 1 the resolver
    returns: as many passes as the initial cutoff are enough. *)
Theorem resolver_restarts_and_terminates
    {World Repo Rule : Type} `{Externals World Repo Rule}
    (resume_from : Z) (all : list Rule) :
  (forall rule todo c min_rev st repo w repo_next c' w',
      makeRepository rule (repositories st) (world st) = (Some repo, w) ->
      setupIncremental repo c w = (repo_next, c', w') ->
      c' < min_rev ->
      scan resume_from (rule :: todo) c min_rev st
      = (Retry c', visited resume_from rule repo c repo_next c' w' st))
  /\ (forall fuel c st c' st',
        scan resume_from all c 1 st = (Retry c', st') ->
        resolve (S fuel) resume_from all c st = resolve fuel resume_from all c' st')
  /\ (honours_cutoff ->
      (forall c st c' st',
          1 <= c -> scan resume_from all c 1 st = (Retry c', st') -> 1 <= c' < c)
      /\ (forall cutoff fuel st,
            1 <= cutoff ->
            (Z.to_nat cutoff <= fuel)%nat ->
            exists r st', resolve fuel resume_from all cutoff st = Some (r, st'))).
Proof.
  repeat apply conj.
  - intros. eapply scan_retry; eassumption.
  - intros. now apply resolve_retry.
  - intros Hcontract. split.
    + intros c st c' st' Hc Hscan.
      apply (scan_retry_below resume_from c all Hcontract) in Hscan; lia.
    + intros cutoff fuel st Hcutoff Hfuel. now apply resolve_enough_fuel.
Qed.

(** A writer outside the contract restarts the pass all the same; the
    interrupted repositories, within the contract, are resolved. *)
Lemma resolver_restarts_and_terminates_witness :
  scan (H := Stubborn.externals) 0 [false] 10 10 (start tt)
  = (Retry 4, visited (H := Stubborn.externals) 0 false false 10 4 4 tt (start tt))
  /\ exists r st',
       resolve (H := Fixture.externals) 10 10 Fixture.two_rules 10
               (start Fixture.interrupted) = Some (r, st').
Proof.
  split.
  - apply (proj1 (resolver_restarts_and_terminates (H := Stubborn.externals) 0 [false])
             false [] 10 10 (start tt) false tt 4 4 tt); [reflexivity | reflexivity | lia].
  - apply (proj2 (proj2 (resolver_restarts_and_terminates (H := Fixture.externals)
                           10 Fixture.two_rules))
             fixture_honours_cutoff); [lia | vm_compute; lia].
Defined.



(** C6.  In every pass, whatever its outcome, and so in the whole of
    resolution, [restoreLog] is called on a repository if and only if
    the [setupIncremental] call on that repository has just returned,
    leaving [cutoff] strictly below [resume_from] and returning a
    [repo_next] equal to that [cutoff]: in the trace, such a
    [setupIncremental] is followed at once by [restoreLog] on its
    repository, no other [setupIncremental] is, and every [restoreLog]
    comes right after such a [setupIncremental].  The trace is an
    account of what was done: the world the resolver leaves is the one
    that the calls of the trace produce, each made on the world the call
    before it left, every [restoreLog] of the trace included. *)
Theorem restoreLog_exactly_after_truncating_setup
    {World Repo Rule : Type} `{Externals World Repo Rule}
    (resume_from : Z) (all : list Rule) :
  (forall todo cutoff min_rev st,
      exists evs,
        trace (scan resume_from todo cutoff min_rev st).2 = trace st ++ evs
        /\ restoreLog_placed resume_from evs
        /\ performs (world st) evs (world (scan resume_from todo cutoff min_rev st).2))
  /\ (forall fuel cutoff st r st',
        resolve fuel resume_from all cutoff st = Some (r, st') ->
        exists evs,
          trace st' = trace st ++ evs
          /\ restoreLog_placed resume_from evs
          /\ performs (world st) evs (world st')).
Proof.
  split.
  - intros todo cutoff min_rev st.
    destruct (scan_trace resume_from todo cutoff min_rev st) as (evs & Htrace & Hevs).
    destruct (scan_performs resume_from todo cutoff min_rev st) as (evs' & Htrace' & Hperf).
    rewrite Htrace in Htrace'. apply app_inv_head in Htrace' as <-.
    exists evs. auto using resolving_placed.
  - intros fuel cutoff st r st' Hresolve.
    destruct (resolve_trace _ _ _ _ _ _ _ Hresolve) as (evs & Htrace & Hevs).
    destruct (resolve_performs _ _ _ _ _ _ _ Hresolve) as (evs' & Htrace' & Hperf).
    rewrite Htrace in Htrace'. apply app_inv_head in Htrace' as <-.
    exists evs. auto using resolving_placed.
Qed.

(** The interrupted repositories, asked to resume from 10: [b]'s log
    is restored in the first pass, [a]'s and [b]'s in the second. *)
Lemma restoreLog_exactly_after_truncating_setup_witness :
  Fixture.restored (world Scenario.inconsistent_resolved) = ["b"; "a"; "b"]
  /\ exists evs,
       trace Scenario.inconsistent_resolved = trace (start Fixture.interrupted) ++ evs
       /\ restoreLog_placed 10 evs
       /\ performs Fixture.interrupted evs (world Scenario.inconsistent_resolved).
Proof.
  split; [vm_compute; reflexivity|].
  apply (proj2 (restoreLog_exactly_after_truncating_setup (H := Fixture.externals)
                  10 Fixture.two_rules)
           3%nat 10 (start Fixture.interrupted) (Resolved 4 4)).
  vm_compute. reflexivity.
Defined.

(** C3.  If resolution completes with a cutoff strictly below the
    requested resume point, [main] returns [EXIT_FAILURE], which is not
    zero; the last thing it does is report the error with both values;
    the world is the one resolution left; and the trace holds no
    [exportRevision] call. *)
Theorem resume_inconsistency_is_fatal
    {World Repo Rule : Type} `{Externals World Repo Rule}
    (fuel : nat) (args : Args Rule) (w : World)
    (min_rev cutoff : Z) (st1 : State World Repo) :
  resolve fuel (resume_from args) (rules args) (initial_cutoff (resume_from args)) (start w)
  = Some (Resolved min_rev cutoff, st1) ->
  cutoff < resume_from args ->
  exists st',
    main fuel args w = Some (EXIT_FAILURE, st')
    /\ EXIT_FAILURE <> 0
    /\ trace st' = trace st1 ++ [Critical (resume_from args) cutoff]
    /\ world st' = world st1
    /\ export_log (trace st') = [].
Proof.
  intros Hresolve Hlt. unfold main. rewrite Hresolve, session_inconsistent by exact Hlt.
  eexists. split; [reflexivity|]. cbn [trace world].
  apply resolve_trace in Hresolve as (evs & -> & Hexp & _).
  rewrite !export_log_app, Hexp. repeat split. discriminate.
Qed.

Lemma resume_inconsistency_is_fatal_witness :
  4 < 10
  /\ exists st',
       main 3 Scenario.inconsistent Fixture.interrupted = Some (EXIT_FAILURE, st')
       /\ EXIT_FAILURE <> 0
       /\ trace st' = trace Scenario.inconsistent_resolved ++ [Critical 10 4]
       /\ world st' = world Scenario.inconsistent_resolved
       /\ export_log (trace st') = [].
Proof.
  split; [lia|].
  apply (resume_inconsistency_is_fatal 3 Scenario.inconsistent Fixture.interrupted 4 4
           Scenario.inconsistent_resolved).
  - vm_compute. reflexivity.
  - cbn. lia.
Defined.

(** C10.  A run that ends during resolution never calls
    [finalizeTags]: neither when a repository writer could not be made
    (the last event is then the failed [makeRepository]), nor when the
    resolved cutoff is below the requested resume point; both runs exit
    with [EXIT_FAILURE].  A run in which [finalizeTags] is called has
    resolved a cutoff that is not below the resume point. *)
Theorem no_finalization_without_export_loop
    {World Repo Rule : Type} `{Externals World Repo Rule}
    (fuel : nat) (args : Args Rule) (w : World) (code : Z) (st' : State World Repo) :
  main fuel args w = Some (code, st') ->
  let resolution :=
    resolve fuel (resume_from args) (rules args) (initial_cutoff (resume_from args))
            (start w) in
  (forall st1, resolution = Some (Aborted, st1) ->
               finalized (trace st') = [] /\ code = EXIT_FAILURE
               /\ exists name, last (trace st') = Some (MakeRepository name None))
  /\ (forall min_rev cutoff st1,
        resolution = Some (Resolved min_rev cutoff, st1) -> cutoff < resume_from args ->
        finalized (trace st') = [] /\ code = EXIT_FAILURE)
  /\ (finalized (trace st') <> [] ->
      exists min_rev cutoff st1,
        resolution = Some (Resolved min_rev cutoff, st1) /\ resume_from args <= cutoff).
Proof.
  intros Hmain resolution. unfold main in Hmain. fold resolution in Hmain.
  assert (Haborted : forall st1, resolution = Some (Aborted, st1) ->
                       finalized (trace st') = [] /\ code = EXIT_FAILURE
                       /\ exists name, last (trace st') = Some (MakeRepository name None)).
  { intros st1 Hres. rewrite Hres in Hmain. injection Hmain as <- <-.
    pose proof Hres as Hlast. apply resolve_aborted in Hlast.
    apply resolve_trace in Hres as (evs & Htrace & _ & Hfin & _).
    cbn [start trace] in Htrace.
    repeat split; [now rewrite Htrace, finalized_app, Hfin | exact Hlast]. }
  assert (Hinconsistent : forall min_rev cutoff st1,
             resolution = Some (Resolved min_rev cutoff, st1) -> cutoff < resume_from args ->
             finalized (trace st') = [] /\ code = EXIT_FAILURE).
  { intros min_rev cutoff st1 Hres Hlt. rewrite Hres in Hmain.
    rewrite session_inconsistent in Hmain by exact Hlt. injection Hmain as <- <-.
    apply resolve_trace in Hres as (evs & Htrace & _ & Hfin & _).
    cbn [start trace] in *. rewrite Htrace, !finalized_app, Hfin. auto. }
  repeat apply conj; [exact Haborted | exact Hinconsistent |].
  intros Hfinalized. destruct resolution as [[[min_rev cutoff|] st1]|] eqn:Hres.
  - destruct (Z.lt_ge_cases cutoff (resume_from args)) as [Hlt|Hge]; [|eauto].
    now destruct (Hinconsistent _ _ _ eq_refl Hlt).
  - now destruct (Haborted _ eq_refl).
  - discriminate.
Qed.

Lemma no_finalization_without_export_loop_witness :
  main 1 Scenario.misconfigured Fixture.fresh
  = Some (EXIT_FAILURE, Scenario.misconfigured_final)
  /\ finalized (trace Scenario.misconfigured_final) = []
  /\ exists name, last (trace Scenario.misconfigured_final) = Some (MakeRepository name None).
Proof.
  assert (Hmain : main 1 Scenario.misconfigured Fixture.fresh
                  = Some (EXIT_FAILURE, Scenario.misconfigured_final))
    by (vm_compute; reflexivity).
  split; [exact Hmain|].
  destruct (no_finalization_without_export_loop 1 Scenario.misconfigured Fixture.fresh
              EXIT_FAILURE Scenario.misconfigured_final Hmain) as (Haborted & _ & _).
  destruct (Haborted Scenario.misconfigured_final) as (Hfinalized & _ & Hlast);
    [vm_compute; reflexivity|].
  split; assumption.
Defined.

(** C4.  In a run that gets past the resume check and leaves the
    export loop, no [exportRevision] call follows one that failed;
    whether or not one failed, the trace then continues with the
    [finalizeTags] calls, one for each entry of [repositories], that is
    one for each configured repository name, and with no further export;
    these calls are made: the world at the end is the one they produce,
    each followed by the deletion of its writer, from the world that the
    calls before them left; and the exit status is non-zero exactly when
    an [exportRevision] call failed.  The loop is left, and all this
    happens, whenever the upper bound of the interval is below
    [INT_MAX]. *)
Theorem export_failure_stops_loop_then_finalizes
    {World Repo Rule : Type} `{Externals World Repo Rule}
    (fuel : nat) (args : Args Rule) (w : World)
    (min_rev cutoff : Z) (st1 : State World Repo) :
  resolve fuel (resume_from args) (rules args) (initial_cutoff (resume_from args)) (start w)
  = Some (Resolved min_rev cutoff, st1) ->
  resume_from args <= cutoff ->
  (forall code st',
      main fuel args w = Some (code, st') ->
      exists before after,
        trace st' = before ++ after
        /\ fail_fast (export_log before)
        /\ export_log after = []
        /\ finalized before = []
        /\ finalized after = map_to_list (repositories st')
        /\ (finalized after).*1 ≡ₚ remove_dups (rule_name <$> rules args)
        /\ (code <> 0 <-> exists rev, (rev, false) ∈ export_log (trace st'))
        /\ exists w1,
             performs w before w1
             /\ world st'
                = foldl (fun w entry => deleteRepository entry.2 (finalizeTags entry.2 w))
                        w1 (finalized after))
  /\ (upper_bound args (world st1) < INT_MAX ->
      forall fuel',
        (fuel <= fuel')%nat ->
        (turns (lower_bound args min_rev) (upper_bound args (world st1)) <= fuel')%nat ->
        exists code st', main fuel' args w = Some (code, st')).
Proof.
  intros Hresolve Hle. split; [|exact (main_returns _ _ _ _ _ _ Hresolve Hle)].
  intros code st' Hmain.
  pose proof (main_performs _ _ _ _ _ Hmain) as Hperf.
  pose proof (resolved_repositories _ _ _ _ _ _ _ _ Hresolve) as Hdom.
  destruct (main_cases _ _ _ _ _ Hmain)
    as [(_ & Hres)|[(m & c & st2 & Hres & Hlt & _)|(m & c & st2 & loop & Hres & _ & Hrep)]];
    rewrite Hresolve in Hres; [discriminate | injection Hres as _ <- _; lia |].
  injection Hres as <- <- <-.
  apply resolve_trace in Hresolve as (evs & Htrace & Hexp & Hfin & _).
  cbn [start trace app] in Htrace.
  destruct Hrep as (Htr & Hrepos & Hkinds & Hff & Hcode & _ & _ & _ & _ & _).
  cbn [trace repositories world] in Htr, Hrepos.
  destruct (prelude_quiet _ (skipping_kinds (Repo := Repo) args min_rev)) as (Hs1 & Hs2 & _).
  destruct (prelude_quiet _ (prelude_kinds args (world st1))) as (Hp1 & Hp2 & _).
  destruct (loop_quiet _ Hkinds) as (Hl1 & _).
  pose proof (closing_quiet _ (closing_kinds (map_to_list (repositories st1)))) as [Hc1 _].
  exists (trace st1 ++ skipping args min_rev ++ prelude_events args (world st1) ++ loop),
    (closing (map_to_list (repositories st1))).
  assert (Hsplit : trace st'
                   = (trace st1 ++ skipping args min_rev ++ prelude_events args (world st1)
                        ++ loop) ++ closing (map_to_list (repositories st1)))
    by now rewrite Htr, <- !app_assoc.
  rewrite Hsplit in Hperf |- *.
  rewrite Hrepos, finalized_closing, !export_log_app, !finalized_app.
  rewrite Htrace in *. rewrite Hexp, Hfin, Hs1, Hs2, Hp1, Hp2, Hl1, Hc1.
  cbn [app]. rewrite !app_nil_r.
  repeat (split; [first [reflexivity | assumption]|]).
  split; [now apply map_to_list_names|].
  split.
  - unfold EXIT_SUCCESS in Hcode. exact Hcode.
  - apply performs_app_inv in Hperf as (w1 & Hbefore & Hafter).
    exists w1. split; [exact Hbefore | now apply performs_closing].
Qed.

(** The two fresh repositories with the revision filter: revision 3
    fails, both repositories are finalized. *)
Lemma export_failure_stops_loop_then_finalizes_witness :
  0 <= INT_MAX
  /\ main 6 Scenario.filtered Fixture.fresh
     = Some (EXIT_FAILURE, Scenario.final Scenario.filtered)
  /\ (exists before after,
        trace (Scenario.final Scenario.filtered) = before ++ after
        /\ fail_fast (export_log before)
        /\ export_log after = []
        /\ finalized before = []
        /\ finalized after = map_to_list (repositories (Scenario.final Scenario.filtered))
        /\ (finalized after).*1 ≡ₚ remove_dups (rule_name <$> rules Scenario.filtered)
        /\ (EXIT_FAILURE <> 0
            <-> exists rev,
                  (rev, false) ∈ export_log (trace (Scenario.final Scenario.filtered)))
        /\ exists w1,
             performs Fixture.fresh before w1
             /\ world (Scenario.final Scenario.filtered)
                = foldl (fun w entry => deleteRepository entry.2 (finalizeTags entry.2 w))
                        w1 (finalized after))
  /\ exists code st', main 6 Scenario.filtered Fixture.fresh = Some (code, st').
Proof.
  assert (Hmain : main 6 Scenario.filtered Fixture.fresh
                  = Some (EXIT_FAILURE, Scenario.final Scenario.filtered))
    by (vm_compute; reflexivity).
  destruct (export_failure_stops_loop_then_finalizes 6 Scenario.filtered Fixture.fresh
              1 INT_MAX (Scenario.fresh_resolved 0)) as [Hrun Hreturns].
  - vm_compute. reflexivity.
  - discriminate.
  - split; [discriminate|]. split; [exact Hmain|]. split; [exact (Hrun _ _ Hmain)|].
    apply (Hreturns ltac:(vm_compute; reflexivity) 6%nat); vm_compute; lia.
Defined.

(** C7.  With a resume point requested and a resolved cutoff not below
    it, the interval that is replayed starts at the resume point,
    whatever [min_rev] the resolver found: when the resume point is a
    candidate that passes the filter it is the first revision exported;
    with an upper bound below [INT_MAX] the [exportRevision] calls run
    through the selected revisions of the interval that starts at the
    resume point, beginning with the first of them, all of them when the
    run exits with [EXIT_SUCCESS], and none of them is below the resume
    point; and the run returns.  The resolver's [min_rev] only decides
    whether the diagnostic about the skipped revisions is written, which
    happens, before anything else, exactly when [min_rev] is below the
    resume point. *)
Theorem resume_point_overrides_min_rev
    {World Repo Rule : Type} `{Externals World Repo Rule}
    (args : Args Rule) (min_rev cutoff : Z) (st : State World Repo) :
  resume_from args <> 0 ->
  resume_from args <= cutoff ->
  let revisions := loaded_revisions args (world st) in
  let filerRevisions := negb (bool_decide (revisions = ∅)) in
  let upper := upper_bound args (world st) in
  let candidates := selected filerRevisions revisions (resume_from args) upper in
  (forall fuel code st',
      session fuel args min_rev cutoff st = Some (code, st') ->
      exists evs,
        trace st' = trace st ++ evs
        /\ (min_rev < resume_from args ->
            head evs = Some (DebugSkipping min_rev (resume_from args - 1)))
        /\ (resume_from args <= min_rev ->
            forall skipped last_skipped, DebugSkipping skipped last_skipped ∉ evs)
        /\ (resume_from args <= upper ->
            in_filter filerRevisions revisions (resume_from args) = true ->
            head (exports evs) = Some (resume_from args))
        /\ (upper < INT_MAX ->
            exports evs `prefix_of` candidates
            /\ (code = EXIT_SUCCESS -> exports evs = candidates)
            /\ head (exports evs) = head candidates
            /\ Forall (fun rev => resume_from args <= rev) (exports evs)))
  /\ (upper < INT_MAX ->
      forall fuel,
        (turns (resume_from args) upper <= fuel)%nat ->
        exists code st', session fuel args min_rev cutoff st = Some (code, st')).
Proof.
  intros Hrequested Hle revisions filerRevisions upper candidates.
  assert (Hlower : lower_bound args min_rev = resume_from args).
  { unfold lower_bound. now settle (resume_from args =? 0). }
  split.
  - intros fuel code st' Hsession.
    rewrite session_consistent, Hlower in Hsession by exact Hle.
    apply replay_replayed in Hsession as (loop & Hrep).
    destruct Hrep as (Htr & _ & Hkinds & _ & Hcode & Hlast & _ & Hhead & Hsel & _).
    cbn [trace repositories world] in Htr, Hhead, Hsel.
    fold revisions filerRevisions upper candidates in Hhead, Hsel.
    destruct (prelude_quiet _ (prelude_kinds args (world st))) as (Hp1 & _).
    pose proof (closing_quiet _ (closing_kinds (map_to_list (repositories st)))) as [Hc1 _].
    exists (skipping args min_rev ++ prelude_events args (world st) ++ loop
              ++ closing (map_to_list (repositories st))).
    assert (Hexports : forall skip : list (Event Repo),
               export_log skip = [] ->
               exports (skip ++ prelude_events args (world st) ++ loop
                          ++ closing (map_to_list (repositories st)))
               = exports loop).
    { intros skip Hskip. unfold exports.
      now rewrite !export_log_app, Hskip, Hp1, Hc1, app_nil_r. }
    rewrite Htr, <- !app_assoc.
    rewrite (Hexports _ (proj1 (prelude_quiet _ (skipping_kinds (Repo := Repo) args min_rev)))).
    split; [reflexivity|]. split; [|split; [|split]].
    + intros Hlt. unfold skipping. now settle (min_rev <? resume_from args).
    + intros Hge skipped last_skipped Hin. unfold skipping in Hin.
      settle (min_rev <? resume_from args). cbn [app] in Hin.
      apply elem_of_app in Hin as [Hin|[Hin|Hin]%elem_of_app].
      * pose proof (prelude_kinds args (world st)) as Hk.
        rewrite Forall_forall in Hk. specialize (Hk _ Hin).
        unfold prelude_events in Hin.
        apply elem_of_app in Hin as [Hin|[Hin|Hin]%elem_of_app].
        -- apply list_elem_of_fmap in Hin as (d & Hd & _). discriminate.
        -- destruct (max_rev args <? 1); [|inversion Hin].
           apply list_elem_of_singleton in Hin. discriminate.
        -- apply list_elem_of_fmap in Hin as (d & Hd & _). discriminate.
      * rewrite Forall_forall in Hkinds. specialize (Hkinds _ Hin). discriminate.
      * pose proof (closing_kinds (map_to_list (repositories st))) as Hk.
        rewrite Forall_forall in Hk. specialize (Hk _ Hin). discriminate.
    + exact Hhead.
    + intros Hmax. destruct (Hsel Hmax) as [Hpre Hall].
      split; [exact Hpre|]. split; [exact Hall|]. split.
      * destruct Hlast as [Hok|[_ [rev Hrev]]].
        -- now rewrite (Hall Hok).
        -- destruct Hpre as [rest Hrest]. rewrite Hrest.
           unfold exports in *. destruct (export_log loop); [discriminate | reflexivity].
      * apply exports_ascending in Hpre as [_ Hbounds].
        eapply Forall_impl; [exact Hbounds|]. cbn. lia.
  - intros Hmax fuel Hfuel. rewrite session_consistent, Hlower by exact Hle.
    now apply replay_returns.
Qed.

(** One fresh repository, a source of 100 revisions and
    [--resume-from 98]: the resolver finds [min_rev = 1], the diagnostic
    is written, revisions 98 to 100 are exported and the run
    succeeds. *)
Lemma resume_point_overrides_min_rev_witness :
  98 <> 0 /\ 98 <= 98
  /\ session 3 Scenario.late 1 98 Scenario.late_resolved
     = Some (EXIT_SUCCESS, Scenario.ended 3 Scenario.late Fixture.hundred)
  /\ (exists evs,
        trace (Scenario.ended 3 Scenario.late Fixture.hundred)
        = trace Scenario.late_resolved ++ evs
        /\ head evs = Some (DebugSkipping 1 97)
        /\ head (exports evs) = Some 98
        /\ exports evs = [98; 99; 100])
  /\ exists code st', session 3 Scenario.late 1 98 Scenario.late_resolved = Some (code, st').
Proof.
  assert (Hsession : session 3 Scenario.late 1 98 Scenario.late_resolved
                     = Some (EXIT_SUCCESS, Scenario.ended 3 Scenario.late Fixture.hundred))
    by (vm_compute; reflexivity).
  assert (Hupper : upper_bound Scenario.late (world Scenario.late_resolved) < INT_MAX)
    by (vm_compute; reflexivity).
  assert (Hcandidates :
            selected (negb (bool_decide
                              (loaded_revisions Scenario.late
                                 (world Scenario.late_resolved) = ∅)))
                     (loaded_revisions Scenario.late (world Scenario.late_resolved))
                     (resume_from Scenario.late)
                     (upper_bound Scenario.late (world Scenario.late_resolved))
            = [98; 99; 100]) by (vm_compute; reflexivity).
  destruct (resume_point_overrides_min_rev Scenario.late 1 98 Scenario.late_resolved)
    as [Hrun Hreturns]; [discriminate | reflexivity |].
  split; [discriminate|]. split; [reflexivity|]. split; [exact Hsession|]. split.
  - destruct (Hrun _ _ _ Hsession) as (evs & Htrace & Hskip & _ & Hfirst & Hbelow).
    destruct (Hbelow Hupper) as (_ & Hall & _).
    exists evs. split; [exact Htrace|]. split; [apply Hskip; reflexivity|].
    split; [apply Hfirst; vm_compute; [discriminate | reflexivity]|].
    rewrite <- Hcandidates. now apply Hall.
  - apply (Hreturns Hupper 3%nat). vm_compute. lia.
Defined.

Lemma export_loop_skip
    {World Repo Rule : Type} `{Externals World Repo Rule}
    (revisions : gset Z) (identities : gmap string string) (fuel : nat) (max_rev i : Z)
    (st : State World Repo) :
  i <= max_rev ->
  max_rev < INT_MAX ->
  i ∉ revisions ->
  export_loop (S fuel) true revisions identities max_rev i st
  = export_loop fuel true revisions identities max_rev (i + 1)
                (mkState (world st) (trace st ++ [PrintDot]) (repositories st)).
Proof.
  intros Hle Hmax Hi. rewrite export_loop_S by exact Hle. unfold in_filter. cbn [negb orb].
  now rewrite bool_decide_eq_false_2, incr_below by (assumption || lia).
Qed.

(** C5, as stated, fails: the filter file of the stand-in holds 2, 3
    and 5, the interval is 1 to 6 and revision 3 cannot be exported.
    Revision 5 is in the interval and in the filter, yet the calls are
    those for 2 and 3 only. *)
Lemma filtered_export_stops_at_first_failure :
  loaded_revisions Scenario.filtered Fixture.fresh = {[2; 3; 5]}
  /\ loaded_revisions Scenario.filtered Fixture.fresh <> ∅
  /\ upper_bound Scenario.filtered Fixture.fresh = 6
  /\ resolve 1 0 Fixture.two_rules INT_MAX (start Fixture.fresh)
     = Some (Resolved 1 INT_MAX, Scenario.fresh_resolved 0)
  /\ main 6 Scenario.filtered Fixture.fresh
     = Some (EXIT_FAILURE, Scenario.final Scenario.filtered)
  /\ selected true {[2; 3; 5]} 1 6 = [2; 3; 5]
  /\ exports (trace (Scenario.final Scenario.filtered)) = [2; 3].
Proof.
  repeat apply conj; try (vm_compute; reflexivity).
  vm_compute. discriminate.
Qed.

(** C5, amended.  When the loaded filter is not empty and [max_rev] is
    below [INT_MAX], the loop is left, and its [exportRevision] calls
    are, in strictly ascending order, the revisions of the interval from
    [min_rev] to [max_rev] that are in the filter, up to and including
    the first one whose export fails: all of them when no export fails.
    A candidate outside the filter gets [printf(".")] and nothing else,
    and the world after the loop is the one the [exportRevision] calls
    alone produce. *)
Theorem filtered_export_calls
    {World Repo Rule : Type} `{Externals World Repo Rule}
    (revisions : gset Z) (identities : gmap string string) (min_rev max_rev : Z) :
  revisions <> ∅ ->
  max_rev < INT_MAX ->
  (forall i, i ∈ selected true revisions min_rev max_rev
             <-> min_rev <= i <= max_rev /\ i ∈ revisions)
  /\ (forall fuel (st : State World Repo) errors st',
        export_loop fuel (negb (bool_decide (revisions = ∅))) revisions identities
                    max_rev min_rev st = Some (errors, st') ->
        exists evs,
          trace st' = trace st ++ evs
          /\ exports evs `prefix_of` selected true revisions min_rev max_rev
          /\ (errors = false -> exports evs = selected true revisions min_rev max_rev)
          /\ fail_fast (export_log evs)
          /\ (errors = true <-> exists rev, (rev, false) ∈ export_log evs)
          /\ StronglySorted Z.lt (exports evs)
          /\ world st' = replay_exports (repositories st) identities (exports evs) (world st)
          /\ repositories st' = repositories st)
  /\ (forall fuel i (s : State World Repo),
        i <= max_rev ->
        i ∉ revisions ->
        export_loop (S fuel) true revisions identities max_rev i s
        = export_loop fuel true revisions identities max_rev (i + 1)
                      (mkState (world s) (trace s ++ [PrintDot]) (repositories s)))
  /\ (forall fuel (st : State World Repo),
        (turns min_rev max_rev <= fuel)%nat ->
        exists errors st',
          export_loop fuel (negb (bool_decide (revisions = ∅))) revisions identities
                      max_rev min_rev st = Some (errors, st')).
Proof.
  intros Hnonempty Hmax.
  rewrite bool_decide_eq_false_2 by exact Hnonempty. cbn [negb].
  repeat apply conj.
  - intros i. apply selected_filter.
  - intros fuel st errors st' Hloop.
    apply export_loop_looped in Hloop
      as (evs & Htr & Hrepos & _ & Hff & Herr & _ & Hw & _ & _ & _ & Hsel).
    destruct (Hsel Hmax) as [Hpre Hall].
    exists evs. repeat split; try assumption; try apply Herr.
    now apply exports_ascending in Hpre.
  - intros. now apply export_loop_skip.
  - intros fuel st Hfuel. now apply export_loop_terminates.
Qed.

Lemma filtered_export_calls_witness :
  ({[2; 3; 5]} : gset Z) <> ∅ /\ 6 < INT_MAX
  /\ (exists evs,
        trace (Scenario.after_loop true {[2; 3; 5]})
        = trace (Scenario.fresh_resolved 0) ++ evs
        /\ exports evs `prefix_of` selected true {[2; 3; 5]} 1 6
        /\ (true = false -> exports evs = selected true {[2; 3; 5]} 1 6)
        /\ fail_fast (export_log evs)
        /\ (true = true <-> exists rev, (rev, false) ∈ export_log evs)
        /\ StronglySorted Z.lt (exports evs)
        /\ world (Scenario.after_loop true {[2; 3; 5]})
           = replay_exports (repositories (Scenario.fresh_resolved 0)) ∅ (exports evs)
                            (world (Scenario.fresh_resolved 0))
        /\ repositories (Scenario.after_loop true {[2; 3; 5]})
           = repositories (Scenario.fresh_resolved 0))
  /\ exists errors st',
       export_loop 6 (negb (bool_decide (({[2; 3; 5]} : gset Z) = ∅))) {[2; 3; 5]} ∅ 6 1
                   (Scenario.fresh_resolved 0) = Some (errors, st').
Proof.
  assert (Hnonempty : ({[2; 3; 5]} : gset Z) <> ∅) by (vm_compute; discriminate).
  assert (Hmax : 6 < INT_MAX) by reflexivity.
  destruct (filtered_export_calls (H := Fixture.externals) {[2; 3; 5]} ∅ 1 6 Hnonempty Hmax)
    as (_ & Hrun & _ & Hreturns).
  split; [exact Hnonempty|]. split; [exact Hmax|]. split.
  - apply (Hrun 6%nat (Scenario.fresh_resolved 0) true). vm_compute. reflexivity.
  - apply Hreturns. vm_compute. lia.
Defined.

(** C9, as stated, fails: without a revisions file the set is empty
    and the interval of the stand-in is 1 to 6, but revision 3 cannot be
    exported and revisions 4, 5 and 6 are never passed to
    [exportRevision]. *)
Lemma unfiltered_export_stops_at_first_failure :
  revisions_file Scenario.unfiltered = ""
  /\ loaded_revisions Scenario.unfiltered Fixture.fresh = ∅
  /\ upper_bound Scenario.unfiltered Fixture.fresh = 6
  /\ resolve 1 0 Fixture.two_rules INT_MAX (start Fixture.fresh)
     = Some (Resolved 1 INT_MAX, Scenario.fresh_resolved 0)
  /\ main 6 Scenario.unfiltered Fixture.fresh
     = Some (EXIT_FAILURE, Scenario.final Scenario.unfiltered)
  /\ seqZ 1 (6 - 1 + 1) = [1; 2; 3; 4; 5; 6]
  /\ exports (trace (Scenario.final Scenario.unfiltered)) = [1; 2; 3].
Proof.
  repeat apply conj; vm_compute; reflexivity.
Qed.

(** C9, amended.  If no revisions file was given, or it cannot be
    opened, or it is empty, or none of its lines converts to an integer,
    the loaded set is empty and the loop filters nothing: it prints no
    progress signal and, when the interval is not empty, starts with the
    export of [min_rev].  With an upper bound below [INT_MAX] the loop
    is left and it has passed the revisions from [min_rev] to the upper
    bound to [exportRevision] in order, up to and including the first
    one whose export fails: all of them when the run exits with
    [EXIT_SUCCESS]. *)
Theorem empty_filter_exports_every_revision
    {World Repo Rule : Type} `{Externals World Repo Rule}
    (args : Args Rule) (min_rev : Z) (st : State World Repo) :
  revisions_file args = ""
  \/ openFile (world st) (revisions_file args) = None
  \/ openFile (world st) (revisions_file args) = Some ""
  \/ (exists content,
        openFile (world st) (revisions_file args) = Some content
        /\ Forall (fun line => toInt (trimmed line) = None) (readLines content)) ->
  let upper := upper_bound args (world st) in
  let interval := seqZ min_rev (upper - min_rev + 1) in
  loaded_revisions args (world st) = ∅
  /\ (forall fuel code st',
        replay fuel args min_rev st = Some (code, st') ->
        exists before after,
          trace st' = trace st ++ before ++ after
          /\ export_log after = []
          /\ List.filter is_progress_signal before = []
          /\ (min_rev <= upper -> head (exports before) = Some min_rev)
          /\ fail_fast (export_log before)
          /\ (code <> EXIT_SUCCESS <-> exists rev, (rev, false) ∈ export_log before)
          /\ (upper < INT_MAX ->
              exports before `prefix_of` interval
              /\ (code = EXIT_SUCCESS -> exports before = interval)))
  /\ (upper < INT_MAX ->
      forall fuel,
        (turns min_rev upper <= fuel)%nat ->
        exists code st', replay fuel args min_rev st = Some (code, st')).
Proof.
  intros Hempty upper interval.
  apply loadRevisionsFile_empty in Hempty. fold (loaded_revisions args (world st)) in Hempty.
  split; [exact Hempty|]. split; [|intros Hmax fuel Hfuel; now apply replay_returns].
  intros fuel code st' Hreplay.
  apply replay_replayed in Hreplay as (loop & Hrep).
  destruct Hrep as (Htr & _ & Hkinds & Hff & Hcode & _ & Hsig & Hhead & Hsel & _).
  rewrite Hempty in Hsig, Hhead, Hsel.
  rewrite bool_decide_eq_true_2 in Hsig, Hhead, Hsel by reflexivity.
  cbn [negb] in Hsig, Hhead, Hsel. rewrite selected_everything in Hsel.
  fold upper in Hhead, Hsel. fold interval in Hsel.
  destruct (prelude_quiet _ (prelude_kinds args (world st))) as (Hp1 & _ & _ & Hp4).
  pose proof (closing_quiet _ (closing_kinds (map_to_list (repositories st)))) as [Hc1 _].
  exists (prelude_events args (world st) ++ loop), (closing (map_to_list (repositories st))).
  unfold exports in *.
  rewrite Htr, <- !app_assoc, List.filter_app, !export_log_app, Hp1, Hp4, Hc1.
  cbn [app].
  repeat (split; [first [reflexivity | assumption | now apply Hsig | apply Hcode]|]).
  split; [intros Hle; now apply Hhead|].
  split; [exact Hff|]. split; [exact Hcode | exact Hsel].
Qed.

Lemma empty_filter_exports_every_revision_witness :
  loaded_revisions Scenario.unfiltered (world (Scenario.fresh_resolved 0)) = ∅
  /\ replay 6 Scenario.unfiltered 1 (Scenario.fresh_resolved 0)
     = Some (EXIT_FAILURE, Scenario.final Scenario.unfiltered)
  /\ (exists before after,
        trace (Scenario.final Scenario.unfiltered)
        = trace (Scenario.fresh_resolved 0) ++ before ++ after
        /\ export_log after = []
        /\ List.filter is_progress_signal before = []
        /\ head (exports before) = Some 1
        /\ fail_fast (export_log before)
        /\ (EXIT_FAILURE <> EXIT_SUCCESS <-> exists rev, (rev, false) ∈ export_log before)
        /\ exports before `prefix_of` [1; 2; 3; 4; 5; 6])
  /\ exists code st', replay 6 Scenario.unfiltered 1 (Scenario.fresh_resolved 0)
                      = Some (code, st').
Proof.
  assert (Hreplay : replay 6 Scenario.unfiltered 1 (Scenario.fresh_resolved 0)
                    = Some (EXIT_FAILURE, Scenario.final Scenario.unfiltered))
    by (vm_compute; reflexivity).
  assert (Hinterval :
            seqZ 1 (upper_bound Scenario.unfiltered (world (Scenario.fresh_resolved 0)) - 1 + 1)
            = [1; 2; 3; 4; 5; 6]) by (vm_compute; reflexivity).
  assert (Hupper : upper_bound Scenario.unfiltered (world (Scenario.fresh_resolved 0))
                   < INT_MAX) by (vm_compute; reflexivity).
  destruct (empty_filter_exports_every_revision Scenario.unfiltered 1
              (Scenario.fresh_resolved 0) (or_introl eq_refl))
    as (Hempty & Hrun & Hreturns).
  split; [exact Hempty|]. split; [exact Hreplay|]. split.
  - destruct (Hrun _ _ _ Hreplay)
      as (before & after & Htrace & Hafter & Hsig & Hhead & Hff & Hcode & Hbelow).
    destruct (Hbelow Hupper) as [Hpre _]. rewrite Hinterval in Hpre.
    exists before, after. repeat (split; [assumption|]).
    split; [apply Hhead; vm_compute; discriminate|]. auto.
  - apply (Hreturns Hupper 6%nat). vm_compute. lia.
Defined.

(** * Further properties *)

(** ** What the revisions file contributes *)

Lemma revisions_fold (toInt : string -> option Z) (lines : list string) :
  forall acc,
    (forall rev,
        rev ∈ (foldl (revisions_step toInt) acc lines).1
        <-> rev ∈ acc.1 \/ exists line, line ∈ lines /\ toInt (trimmed line) = Some rev)
    /\ (foldl (revisions_step toInt) acc lines).2
       = acc.2 ++ flat_map (unconverted toInt) lines.
Proof.
  induction lines as [|line lines IH]; intros [revisions diagnostics].
  - cbn. split; [|now rewrite app_nil_r].
    intros rev. split; [now left|]. intros [Hin|(line & Hline & _)]; [exact Hin|].
    inversion Hline.
  - cbn [foldl flat_map]. destruct (IH (revisions_step toInt (revisions, diagnostics) line))
      as [Hmem Hdiag].
    split.
    + intros rev. rewrite Hmem. unfold revisions_step.
      destruct (toInt (trimmed line)) as [parsed|] eqn:Hparse; cbn [fst].
      * rewrite elem_of_union, elem_of_singleton. split.
        -- intros [[->|Hin]|(l & Hl & Hrev)]; [right|now left|right].
           ++ exists line. split; [apply elem_of_cons; now left | exact Hparse].
           ++ exists l. split; [apply elem_of_cons; now right | exact Hrev].
        -- intros [Hin|(l & Hl & Hrev)]; [now left; right|].
           apply elem_of_cons in Hl as [->|Hl].
           ++ left. left. congruence.
           ++ right. eauto.
      * split.
        -- intros [Hin|(l & Hl & Hrev)]; [now left|right].
           exists l. split; [apply elem_of_cons; now right | exact Hrev].
        -- intros [Hin|(l & Hl & Hrev)]; [now left|].
           apply elem_of_cons in Hl as [->|Hl]; [congruence|]. right. eauto.
    + rewrite Hdiag. unfold revisions_step, unconverted.
      destruct (toInt (trimmed line)); cbn [snd]; [reflexivity|].
      now rewrite <- app_assoc.
Qed.

(** X1.  When the revisions file can be read, the set that
    [loadRevisionsFile] returns holds exactly the integers that some
    line of the file, once trimmed, converts to; and there is one
    diagnostic for each line that does not convert, in the order of the
    file, naming the trimmed line. *)
Theorem loadRevisionsFile_contents (toInt : string -> option Z)
    (open : string -> option string) (fileName content : string) :
  fileName <> "" ->
  open fileName = Some content ->
  (forall rev,
      rev ∈ (loadRevisionsFile toInt open fileName).1
      <-> exists line, line ∈ readLines content /\ toInt (trimmed line) = Some rev)
  /\ (loadRevisionsFile toInt open fileName).2
     = flat_map (unconverted toInt) (readLines content).
Proof.
  intros Hname Hopen. unfold loadRevisionsFile.
  rewrite (proj2 (String.eqb_neq _ _) Hname), Hopen.
  destruct (revisions_fold toInt (readLines content) (∅, [])) as [Hmem Hdiag].
  split; [|exact Hdiag].
  intros rev. rewrite Hmem. cbn [fst]. split; [|now right].
  intros [Hin|Hline]; [|exact Hline]. now apply not_elem_of_empty in Hin.
Qed.

Lemma loadRevisionsFile_contents_witness :
  "revisions" <> ""
  /\ (forall rev,
        rev ∈ (loadRevisionsFile Fixture.to_int (fun _ => Some "5
7
abc
7") "revisions").1
        <-> exists line, line ∈ ["5
"; "7
"; "abc
"; "7"] /\ Fixture.to_int (trimmed line) = Some rev)
  /\ (loadRevisionsFile Fixture.to_int (fun _ => Some "5
7
abc
7") "revisions").2 = [UnableToConvert "abc"].
Proof.
  split; [discriminate|].
  exact (loadRevisionsFile_contents Fixture.to_int (fun _ => Some "5
7
abc
7") "revisions" _ ltac:(discriminate) eq_refl).
Defined.

(** ** What the identity-map file contributes *)

Lemma identity_fold (login : string) (lines : list string) :
  forall result : gmap string string,
    foldl identity_step result lines !! login
    = match last (omap (named login) lines) with
      | Some realname => Some realname
      | None => result !! login
      end.
Proof.
  induction lines as [|line lines IH]; intros result; [reflexivity|].
  cbn [foldl]. rewrite IH. unfold identity_step.
  assert (Hnamed : named login line
                   = match identity_of_line line with
                     | Some (login', realname) =>
                         if String.eqb login' login then Some realname else None
                     | None => None
                     end) by reflexivity.
  change (omap (named login) (line :: lines))
    with (match named login line with
          | Some realname => realname :: omap (named login) lines
          | None => omap (named login) lines
          end).
  rewrite Hnamed. clear Hnamed.
  destruct (identity_of_line line) as [[login' realname]|]; [|reflexivity].
  destruct (String.eqb_spec login' login) as [->|Hne].
  - rewrite last_cons, lookup_insert_eq.
    now destruct (last (omap (named login) lines)).
  - now rewrite lookup_insert_ne by exact Hne.
Qed.

(** X2.  When the identity-map file can be read, the identity stored
    for a login is the one given by the last line of the file that is a
    line for this login; a login that no line names is absent. *)
Theorem loadIdentityMapFile_last_line_wins
    (open : string -> option string) (fileName content login : string) :
  fileName <> "" ->
  open fileName = Some content ->
  (loadIdentityMapFile open fileName).1 !! login
  = last (omap (named login) (readLines content)).
Proof.
  intros Hname Hopen. unfold loadIdentityMapFile.
  rewrite (proj2 (String.eqb_neq _ _) Hname), Hopen. cbn [fst].
  rewrite identity_fold, lookup_empty.
  now destruct (last (omap (named login) (readLines content))).
Qed.

Lemma loadIdentityMapFile_last_line_wins_witness :
  "authors" <> ""
  /\ (loadIdentityMapFile (fun _ => Some Scenario.moved_authors) "authors").1 !! "bob"
     = Some "Bob B <b@new>".
Proof.
  split; [discriminate|].
  pose proof (loadIdentityMapFile_last_line_wins (fun _ => Some Scenario.moved_authors)
                "authors" Scenario.moved_authors "bob" ltac:(discriminate) eq_refl)
    as Hlast.
  rewrite Hlast. reflexivity.
Defined.

Section IdentityEntries.

Import IdentityFormat.

Lemma strip_comment_no_hash (s : string) : ~ occurs "#" (strip_comment s).
Proof.
  unfold occurs. induction s as [|a s IH]; cbn; [tauto|].
  destruct (Ascii.eqb_spec a "#"); cbn; [tauto|]. intros [Ha|Hin]; congruence.
Qed.

Lemma split_first_space_parts (s login rest : string) :
  split_first_space s = Some (login, rest) ->
  s = (login +:+ String " " rest)%string /\ ~ has_space login.
Proof.
  unfold has_space. revert login rest.
  induction s as [|a s IH]; intros login rest Hsplit; [discriminate|].
  cbn [split_first_space] in Hsplit. destruct (Ascii.eqb_spec a " ") as [->|Hne].
  - injection Hsplit as <- <-. cbn. tauto.
  - destruct (split_first_space s) as [[login' rest']|]; [|discriminate].
    injection Hsplit as <- <-. destruct (IH _ _ eq_refl) as [-> Hno].
    cbn. split; [reflexivity|]. intros [Ha|Hin]; [congruence | tauto].
Qed.

Lemma occurs_append (c : ascii) (a b : string) :
  occurs c (a +:+ b)%string <-> occurs c a \/ occurs c b.
Proof.
  unfold occurs. induction a as [|x a IH]; [cbn; tauto|].
  change (String x a +:+ b)%string with (String x (a +:+ b)).
  cbn [list_ascii_of_string In]. rewrite IH. tauto.
Qed.

Lemma occurs_skip (c : ascii) (n : nat) (s : string) : occurs c (skip n s) -> occurs c s.
Proof.
  unfold occurs. revert s. induction n as [|n IH]; intros s; [trivial|].
  destruct s as [|x s]; cbn; [tauto|]. intros Hin. right. now apply IH.
Qed.

Lemma occurs_trimmed (c : ascii) (s : string) : occurs c (trimmed s) -> occurs c s.
Proof. unfold occurs, trimmed. intros Hin. now apply ltrim_chars, rtrim_chars. Qed.

(** *** Strings that [rtrim] leaves alone *)

Lemma rtrim_tail (c : ascii) (s : string) :
  rtrim (String c s) = String c s -> rtrim s = s.
Proof.
  cbn [rtrim]. destruct (rtrim s) as [|b r] eqn:Hr.
  - destruct (isspace c); [discriminate|]. now intros [= <-].
  - now intros [= <-].
Qed.

Lemma rtrim_suffix (a b : string) :
  rtrim (a +:+ b)%string = (a +:+ b)%string -> rtrim b = b.
Proof.
  induction a as [|c a IH]; [trivial|].
  change (String c a +:+ b)%string with (String c (a +:+ b)).
  intros H%rtrim_tail. auto.
Qed.

Lemma rtrim_skip (n : nat) (s : string) : rtrim s = s -> rtrim (skip n s) = skip n s.
Proof.
  revert s. induction n as [|n IH]; intros s Hs; [exact Hs|].
  destruct s as [|c s]; [reflexivity|]. cbn [skip]. apply IH. now apply rtrim_tail in Hs.
Qed.

Lemma rtrim_ltrim (s : string) : rtrim s = s -> rtrim (ltrim s) = ltrim s.
Proof.
  induction s as [|c s IH]; intros Hs; [reflexivity|].
  cbn [ltrim]. destruct (isspace c); [|exact Hs]. apply IH. now apply rtrim_tail in Hs.
Qed.

Lemma rtrim_idempotent (s : string) : rtrim (rtrim s) = rtrim s.
Proof.
  induction s as [|c s IH]; [reflexivity|].
  cbn [rtrim]. destruct (rtrim s) as [|b r] eqn:Hr.
  - destruct (isspace c) eqn:Hc; [reflexivity|]. cbn. now rewrite Hc.
  - cbn [rtrim]. cbn [rtrim] in IH. destruct (match rtrim r with
                                               | EmptyString => _
                                               | String _ _ => _
                                               end) eqn:Hm; [discriminate|].
    now rewrite IH.
Qed.

Lemma ltrim_nonempty (s : string) :
  rtrim s = s -> s <> EmptyString -> ltrim s <> EmptyString.
Proof.
  induction s as [|c s IH]; intros Hs Hne; [congruence|].
  cbn [ltrim]. destruct (isspace c) eqn:Hc; [|discriminate].
  apply IH; [now apply rtrim_tail in Hs|].
  intros ->. cbn in Hs. rewrite Hc in Hs. discriminate.
Qed.

(** A trimmed text does not start with a white space. *)
Lemma ltrim_head (s : string) (c : ascii) (r : string) :
  ltrim s = String c r -> isspace c = false.
Proof.
  induction s as [|a s IH]; [discriminate|].
  cbn [ltrim]. destruct (isspace a) eqn:Ha; [exact IH|]. now intros [= <- _].
Qed.

Lemma rtrim_head (s : string) (c : ascii) (r : string) :
  rtrim s = String c r -> exists r', s = String c r'.
Proof.
  destruct s as [|a s]; [discriminate|].
  cbn [rtrim]. destruct (rtrim s); [destruct (isspace a)|]; intros [= -> _]; eauto.
Qed.

Lemma trimmed_head (s : string) (c : ascii) (r : string) :
  trimmed s = String c r -> isspace c = false.
Proof.
  unfold trimmed. intros [r' Hr']%rtrim_head. now apply ltrim_head in Hr'.
Qed.

Lemma ltrim_fixed (s : string) :
  (forall c r, s = String c r -> isspace c = false) -> ltrim s = s.
Proof.
  destruct s as [|c s]; [reflexivity|]. intros Hhead. cbn [ltrim].
  now rewrite (Hhead c s eq_refl).
Qed.

(** Trimming twice is trimming once. *)
Lemma trimmed_idempotent (s : string) : trimmed (trimmed s) = trimmed s.
Proof.
  unfold trimmed at 1. rewrite ltrim_fixed.
  - apply rtrim_idempotent.
  - intros c r Hs. now apply trimmed_head in Hs.
Qed.

Lemma trimmed_fixed (s : string) : rtrim (trimmed s) = trimmed s.
Proof. apply rtrim_idempotent. Qed.

Lemma prefix_equals (rest : string) :
  String.prefix "= " rest = true -> exists r, rest = String "=" (String " " r).
Proof.
  destruct rest as [|c1 rest]; [discriminate|]. rewrite string_prefix_cons.
  destruct (ascii_dec "=" c1) as [<-|]; [|discriminate].
  destruct rest as [|c2 rest]; [discriminate|]. rewrite string_prefix_cons.
  destruct (ascii_dec " " c2) as [<-|]; [|discriminate]. eauto.
Qed.

(** What a line that is kept looks like. *)
Lemma identity_of_line_wellformed (line login realname : string) :
  identity_of_line line = Some (login, realname) ->
  login <> "" /\ ~ has_space login /\ ~ occurs "#" login
  /\ realname <> "" /\ trimmed realname = realname /\ ~ occurs "#" realname.
Proof.
  rewrite identity_of_line_entry. unfold entry.
  set (t := trimmed (strip_comment line)).
  destruct (split_first_space t) as [[login' rest]|] eqn:Hsplit; [|discriminate].
  intros [= -> <-].
  destruct (split_first_space_parts _ _ _ Hsplit) as [Ht Hlogin].
  assert (Hhash : ~ occurs "#" t).
  { intros Hin. apply occurs_trimmed in Hin. now apply strip_comment_no_hash in Hin. }
  assert (Hrest : rtrim (String " " rest) = String " " rest).
  { apply (rtrim_suffix login). rewrite <- Ht. apply trimmed_fixed. }
  assert (Hvalue : rtrim (strip_equals rest) = strip_equals rest
                   /\ strip_equals rest <> ""
                   /\ (occurs "#" (strip_equals rest) -> occurs "#" rest)).
  { unfold strip_equals. destruct (String.prefix "= " rest) eqn:Hp.
    - apply prefix_equals in Hp as [r ->]. cbn [skip].
      apply rtrim_tail, rtrim_tail in Hrest. split; [now apply rtrim_tail in Hrest|].
      split; [|unfold occurs; cbn; tauto].
      intros ->. discriminate.
    - split; [now apply rtrim_tail in Hrest|]. split; [|trivial].
      intros ->. discriminate. }
  destruct Hvalue as (Hfixed & Hnonempty & Hsub).
  repeat apply conj.
  - intros ->. cbn in Ht. pose proof (trimmed_head (strip_comment line) " " rest Ht).
    discriminate.
  - exact Hlogin.
  - intros Hin. apply Hhash. rewrite Ht. apply occurs_append. now left.
  - unfold trimmed. rewrite rtrim_ltrim by exact Hfixed. now apply ltrim_nonempty.
  - apply trimmed_idempotent.
  - intros Hin. apply occurs_trimmed, Hsub in Hin. apply Hhash. rewrite Ht.
    apply occurs_append. right. right. exact Hin.
Qed.

End IdentityEntries.

(** X3.  Whatever the file, every entry of the map that
    [loadIdentityMapFile] returns has a login that is not empty and
    holds neither a space nor a ['#'], and an identity that is not
    empty, holds no ['#'] and has no white space at either end. *)
Theorem loadIdentityMapFile_entries_wellformed
    (open : string -> option string) (fileName login realname : string) :
  (loadIdentityMapFile open fileName).1 !! login = Some realname ->
  login <> "" /\ ~ has_space login /\ ~ occurs "#" login
  /\ realname <> "" /\ trimmed realname = realname /\ ~ occurs "#" realname.
Proof.
  unfold loadIdentityMapFile. destruct (String.eqb fileName ""); [discriminate|].
  destruct (open fileName) as [content|]; [|discriminate]. cbn [fst].
  rewrite identity_fold, lookup_empty.
  destruct (last (omap (named login) (readLines content))) as [found|] eqn:Hlast;
    [|discriminate].
  intros [= ->]. apply last_Some_elem_of, list_elem_of_omap in Hlast as (line & _ & Hnamed).
  unfold named in Hnamed.
  destruct (identity_of_line line) as [[login' realname']|] eqn:Hline; [|discriminate].
  destruct (String.eqb_spec login' login) as [->|]; [|discriminate].
  injection Hnamed as ->. now apply identity_of_line_wellformed in Hline.
Qed.

Lemma loadIdentityMapFile_entries_wellformed_witness :
  "bob" <> "" /\ ~ has_space "bob" /\ ~ occurs "#" "bob"
  /\ "Bob B <b@new>" <> "" /\ trimmed "Bob B <b@new>" = "Bob B <b@new>"
  /\ ~ occurs "#" "Bob B <b@new>".
Proof.
  apply (loadIdentityMapFile_entries_wellformed (fun _ => Some Scenario.moved_authors)
           "authors" "bob" "Bob B <b@new>").
  vm_compute. reflexivity.
Defined.

(** ** Further properties of [main] *)



Lemma unchanged_cutoff {Repo : Type} (evs : list (Event Repo)) : forall cutoff cutoff',
  final_cutoff cutoff evs = Some cutoff' ->
  setups_satisfy (fun cutoff_in _ cutoff_out => cutoff_out <= cutoff_in) evs ->
  cutoff' <= cutoff
  /\ (cutoff <= cutoff' ->
      setups_satisfy (fun cutoff_in _ cutoff_out =>
                        cutoff_in = cutoff /\ cutoff_out = cutoff) evs).
Proof.
  unfold setups_satisfy.
  induction evs as [|e evs IH]; intros cutoff cutoff' Hfinal Hlower.
  - injection Hfinal as <-. split; [lia | constructor].
  - apply Forall_cons in Hlower as [He Hlower].
    destruct e; cbn [final_cutoff] in Hfinal;
      try (destruct (IH _ _ Hfinal Hlower) as [Hle Hall];
           split; [exact Hle | intros Hge; constructor; [exact I | auto]]).
    destruct (Z.eqb_spec cutoff_in cutoff) as [->|]; [|discriminate].
    destruct (IH _ _ Hfinal Hlower) as [Hle Hall]. split; [lia|].
    intros Hge. assert (cutoff_out = cutoff) as -> by lia.
    constructor; [split; reflexivity | auto].
Qed.

(** X5.  If [setupIncremental] never raises the cutoff, then in a run
    with a resume point that gets past the resume check the resolved
    cutoff is the resume point itself, every [setupIncremental] call was
    given the resume point and left it unchanged, and [restoreLog] was
    never called. *)
Theorem resumed_run_leaves_cutoff_alone
    {World Repo Rule : Type} `{Externals World Repo Rule}
    (fuel : nat) (args : Args Rule) (w : World)
    (min_rev cutoff : Z) (st1 : State World Repo) :
  never_raises ->
  resume_from args <> 0 ->
  resolve fuel (resume_from args) (rules args) (initial_cutoff (resume_from args)) (start w)
  = Some (Resolved min_rev cutoff, st1) ->
  resume_from args <= cutoff ->
  cutoff = resume_from args
  /\ setups_satisfy (fun cutoff_in _ cutoff_out =>
                       cutoff_in = resume_from args /\ cutoff_out = resume_from args)
                    (trace st1)
  /\ Forall (fun e => is_restoreLog e = false) (trace st1).
Proof.
  intros Hnever Hrequested Hresolve Hle.
  pose proof (resolve_trace _ _ _ _ _ _ _ Hresolve) as (evs & Htrace & Hevs).
  destruct (resolve_threaded (fun _ => True)
              (fun cutoff_in _ cutoff_out => cutoff_out <= cutoff_in)
              (fun repo c w0 _ => conj I (Hnever repo c w0)) _ _ _ _ _ _ _ I Hresolve)
    as (evs' & cutoff' & Htrace' & _ & Hfinal & _ & -> & Hlower & _).
  rewrite Htrace in Htrace'. apply app_inv_head in Htrace' as <-.
  cbn [start trace app] in Htrace. rewrite Htrace.
  assert (Hinitial : initial_cutoff (resume_from args) = resume_from args).
  { unfold initial_cutoff. now settle (resume_from args =? 0). }
  rewrite Hinitial in Hfinal.
  destruct (unchanged_cutoff evs _ _ Hfinal Hlower) as [Hle' Hall].
  specialize (Hall Hle). repeat split; [lia | exact Hall |].
  apply (resolving_without_restoreLog (resume_from args)); [exact Hevs|].
  unfold setups_satisfy in *. eapply Forall_impl; [exact Hall|].
  intros [] He; cbn in *; try exact I. lia.
Qed.

Lemma resumed_run_leaves_cutoff_alone_witness :
  2 <> 0 /\ 2 <= 2
  /\ 2 = 2
  /\ setups_satisfy (fun cutoff_in _ cutoff_out => cutoff_in = 2 /\ cutoff_out = 2)
                    (trace (Scenario.fresh_resolved 2))
  /\ Forall (fun e => is_restoreLog e = false) (trace (Scenario.fresh_resolved 2)).
Proof.
  split; [discriminate|]. split; [reflexivity|].
  apply (resumed_run_leaves_cutoff_alone 1 Scenario.resumed Fixture.fresh 1 2
           (Scenario.fresh_resolved 2) fixture_never_raises).
  - discriminate.
  - vm_compute. reflexivity.
  - reflexivity.
Defined.

(** X6.  If [setupIncremental], given a cutoff of at least 1, leaves
    a cutoff of at least 1, a run without a resume point never calls
    [restoreLog] and never ends on the resume-inconsistency error. *)
Theorem without_resume_point_nothing_is_rewound
    {World Repo Rule : Type} `{Externals World Repo Rule}
    (fuel : nat) (args : Args Rule) (w : World) (code : Z) (st' : State World Repo) :
  keeps_cutoff_positive ->
  resume_from args = 0 ->
  main fuel args w = Some (code, st') ->
  Forall (fun e => is_restoreLog e = false
                   /\ forall resume_from cutoff, e <> Critical resume_from cutoff)
         (trace st').
Proof.
  intros Hcontract Hnone Hmain.
  destruct (main_phases _ _ _ _ _ Hmain)
    as (resolution & rest & -> & _ & Hresolving & Hkinds & (r & st1 & Hresolve & <-) & Hrest).
  assert (Hinitial : 1 <= initial_cutoff (resume_from args))
    by (rewrite Hnone; discriminate).
  destruct (resolve_threaded (fun c => 1 <= c) (fun _ _ cutoff' => 1 <= cutoff')
              (fun repo c w0 Hc => conj (Hcontract repo c w0 Hc) (Hcontract repo c w0 Hc))
              _ _ _ _ _ _ _ Hinitial Hresolve)
    as (evs & cutoff' & Htrace & _ & _ & Hcutoff' & Hr & Hone & _).
  cbn [start trace app] in Htrace. rewrite Htrace in *.
  assert (Hsetups : setups_satisfy (fun _ _ c => resume_from args <= c) evs).
  { unfold setups_satisfy in *. eapply Forall_impl; [exact Hone|].
    intros [] He; cbn in *; try exact I. lia. }
  apply Forall_app. split.
  - pose proof (resolving_without_restoreLog _ _ Hresolving Hsetups) as Hno.
    rewrite Forall_forall in Hno, Hkinds |- *. intros e He. split; [now apply Hno|].
    intros a b ->. specialize (Hkinds _ He). discriminate.
  - destruct Hrest as [(-> & _)|[(m & c & st2 & Hr' & Hlt & _)
                                |(m & c & st2 & prelude & loop & _ & _ & _ & -> & Hp & Hl & _)]].
    + constructor.
    + exfalso. rewrite Hresolve in Hr'. injection Hr' as -> _. subst c. lia.
    + pose proof (closing_kinds (map_to_list (repositories st'))) as Hc.
      rewrite !Forall_app. rewrite Forall_forall in Hp, Hl, Hc.
      repeat split; apply Forall_forall; intros e He;
        apply session_kinds; auto.
Qed.

(** A writer that lowers every cutoff to 4 or below, and so does not
    keep within the cutoff it is given, on a source without
    revisions. *)
Lemma without_resume_point_nothing_is_rewound_witness :
  exists code st',
    main (H := Stubborn.externals) 1 (mkArgs [false] 0 0 "" "") tt = Some (code, st')
    /\ Forall (fun e => is_restoreLog e = false
                        /\ forall resume_from cutoff, e <> Critical resume_from cutoff)
              (trace st').
Proof.
  eexists _, _. split; [vm_compute; reflexivity|].
  apply (without_resume_point_nothing_is_rewound (H := Stubborn.externals)
           1 (mkArgs [false] 0 0 "" "") tt EXIT_SUCCESS _
           stubborn_keeps_cutoff_positive eq_refl).
  vm_compute. reflexivity.
Defined.

(** X7.  At the end of any run that returns, the [repositories] hash
    is what inserting every writer that [makeRepository] returned, in
    the order of the calls, gives: for each name it holds the writer
    made last for that name, so a writer made in an abandoned pass has
    been replaced. *)
Theorem repositories_hold_the_last_writer_made
    {World Repo Rule : Type} `{Externals World Repo Rule}
    (fuel : nat) (args : Args Rule) (w : World) (code : Z) (st' : State World Repo) :
  main fuel args w = Some (code, st') ->
  repositories st' = registered ∅ (trace st').
Proof.
  intros Hmain.
  destruct (main_phases _ _ _ _ _ Hmain)
    as (resolution & rest & Htrace & Hrepos & _ & _ & _ & Hrest).
  rewrite Htrace, Hrepos, registered_app.
  enough (Hnone : made rest = [])
    by (generalize (registered ∅ resolution); intros m; unfold registered;
        now rewrite Hnone).
  apply made_none.
  destruct Hrest as [(-> & _)|[(m & c & st2 & _ & _ & _ & ->)
                              |(m & c & st2 & prelude & loop & _ & _ & _ & -> & Hp & Hl & _)]].
  - constructor.
  - repeat constructor.
  - pose proof (closing_kinds (map_to_list (repositories st'))) as Hc.
    rewrite !Forall_app. rewrite Forall_forall in Hp, Hl, Hc.
    repeat split; apply Forall_forall; intros e He; apply session_kinds; auto.
Qed.

Lemma repositories_hold_the_last_writer_made_witness :
  made (trace (Scenario.ended 3 Scenario.inconsistent Fixture.interrupted))
  = [("a", "a"); ("b", "b"); ("a", "a"); ("b", "b")]
  /\ repositories (Scenario.ended 3 Scenario.inconsistent Fixture.interrupted)
     = registered ∅ (trace (Scenario.ended 3 Scenario.inconsistent Fixture.interrupted)).
Proof.
  split; [vm_compute; reflexivity|].
  apply (repositories_hold_the_last_writer_made 3 Scenario.inconsistent Fixture.interrupted
           EXIT_FAILURE).
  vm_compute. reflexivity.
Defined.

(** X8.  A run that gets past the resume check and leaves the loop
    ends with finalization and nothing else: for each entry of the hash
    [finalizeTags] and then the deletion of that same writer, then
    [printStats]; no writer is finalized or deleted before that, the
    writers deleted are exactly those of the hash, and the world at the
    end is the one these calls produce from the world the loop left.
    With an upper bound below [INT_MAX] the run does return. *)
Theorem run_ends_with_finalization_of_the_hash
    {World Repo Rule : Type} `{Externals World Repo Rule}
    (fuel : nat) (args : Args Rule) (w : World)
    (min_rev cutoff : Z) (st1 : State World Repo) :
  resolve fuel (resume_from args) (rules args) (initial_cutoff (resume_from args)) (start w)
  = Some (Resolved min_rev cutoff, st1) ->
  resume_from args <= cutoff ->
  (forall code st',
      main fuel args w = Some (code, st') ->
      exists before,
        trace st' = before ++ closing (map_to_list (repositories st'))
        /\ Forall (fun e => is_closing_event e = false) before
        /\ deleted (trace st') = (map_to_list (repositories st')).*2
        /\ last (trace st') = Some PrintStats
        /\ exists w1,
             performs w before w1
             /\ world st'
                = foldl (fun w entry => deleteRepository entry.2 (finalizeTags entry.2 w))
                        w1 (map_to_list (repositories st')))
  /\ (upper_bound args (world st1) < INT_MAX ->
      forall fuel',
        (fuel <= fuel')%nat ->
        (turns (lower_bound args min_rev) (upper_bound args (world st1)) <= fuel')%nat ->
        exists code st', main fuel' args w = Some (code, st')).
Proof.
  intros Hresolve Hle. split; [|exact (main_returns _ _ _ _ _ _ Hresolve Hle)].
  intros code st' Hmain.
  pose proof (main_performs _ _ _ _ _ Hmain) as Hperf.
  destruct (main_phases _ _ _ _ _ Hmain)
    as (resolution & rest & Htrace & _ & _ & Hkinds & _ & Hrest).
  destruct Hrest as [(_ & _ & st2 & Hr)|[(m & c & st2 & Hr & Hlt & _)
                                        |(m & c & st2 & prelude & loop & _ & _ & _ & -> & Hp & Hl & _)]].
  - rewrite Hresolve in Hr. discriminate.
  - rewrite Hresolve in Hr. injection Hr as _ <- _. lia.
  - exists (resolution ++ prelude ++ loop).
    assert (Hbefore : Forall (fun e : Event Repo => is_closing_event e = false)
                             (resolution ++ prelude ++ loop)).
    { rewrite !Forall_app. rewrite Forall_forall in Hkinds, Hp, Hl.
      repeat split; apply Forall_forall; intros e He;
        [specialize (Hkinds e He) | specialize (Hp e He) | specialize (Hl e He)];
        destruct e; cbn in *; congruence. }
    assert (Hsplit : trace st' = (resolution ++ prelude ++ loop)
                                   ++ closing (map_to_list (repositories st')))
      by now rewrite Htrace, <- !app_assoc.
    rewrite Hsplit in Hperf |- *.
    split; [reflexivity|]. split; [exact Hbefore|]. split; [|split].
    + now rewrite deleted_app, (deleted_none _ Hbefore), deleted_closing.
    + unfold closing. rewrite !app_assoc. apply last_snoc.
    + apply performs_app_inv in Hperf as (w1 & Hdone & Hclosing).
      exists w1. split; [exact Hdone | now apply performs_closing].
Qed.

Lemma run_ends_with_finalization_of_the_hash_witness :
  0 <= INT_MAX
  /\ main 6 Scenario.filtered Fixture.fresh
     = Some (EXIT_FAILURE, Scenario.final Scenario.filtered)
  /\ (exists before,
        trace (Scenario.final Scenario.filtered)
        = before ++ closing (map_to_list (repositories (Scenario.final Scenario.filtered)))
        /\ Forall (fun e => is_closing_event e = false) before
        /\ deleted (trace (Scenario.final Scenario.filtered))
           = (map_to_list (repositories (Scenario.final Scenario.filtered))).*2
        /\ last (trace (Scenario.final Scenario.filtered)) = Some PrintStats
        /\ exists w1,
             performs Fixture.fresh before w1
             /\ world (Scenario.final Scenario.filtered)
                = foldl (fun w entry => deleteRepository entry.2 (finalizeTags entry.2 w))
                        w1 (map_to_list (repositories (Scenario.final Scenario.filtered))))
  /\ exists code st', main 6 Scenario.filtered Fixture.fresh = Some (code, st').
Proof.
  assert (Hmain : main 6 Scenario.filtered Fixture.fresh
                  = Some (EXIT_FAILURE, Scenario.final Scenario.filtered))
    by (vm_compute; reflexivity).
  destruct (run_ends_with_finalization_of_the_hash 6 Scenario.filtered Fixture.fresh
              1 INT_MAX (Scenario.fresh_resolved 0)) as [Hrun Hreturns].
  - vm_compute. reflexivity.
  - discriminate.
  - split; [discriminate|]. split; [exact Hmain|]. split; [exact (Hrun _ _ Hmain)|].
    apply (Hreturns ltac:(vm_compute; reflexivity) 6%nat); vm_compute; lia.
Defined.

(** X9.  After resolution, [youngestRevision] is asked once, before
    the loop and so before any export, exactly when [--max-rev] is below
    1 (or absent), and never otherwise; its answer, or [--max-rev]
    itself when that is at least 1, is the upper bound of the loop, and
    the world is not changed by it.  In a run that leaves the loop,
    nothing after that asks again, and with an upper bound below
    [INT_MAX] every revision passed to [exportRevision] lies between the
    lower and the upper bound. *)
Theorem youngestRevision_only_without_max_rev
    {World Repo Rule : Type} `{Externals World Repo Rule}
    (args : Args Rule) (min_rev : Z) (st : State World Repo) :
  (exists prelude,
      trace (prepare args st).2 = trace st ++ prelude
      /\ world (prepare args st).2 = world st
      /\ (prepare args st).1.1.2 = upper_bound args (world st)
      /\ export_log prelude = []
      /\ youngest_calls prelude
         = (if max_rev args <? 1 then [youngestRevision (world st)] else []))
  /\ (1 <= max_rev args -> upper_bound args (world st) = max_rev args)
  /\ (forall fuel code st',
        replay fuel args min_rev st = Some (code, st') ->
        exists rest,
          trace st' = trace (prepare args st).2 ++ rest
          /\ youngest_calls rest = []
          /\ (upper_bound args (world st) < INT_MAX ->
              Forall (fun rev => min_rev <= rev <= upper_bound args (world st))
                     (exports rest))).
Proof.
  rewrite prepare_spec. cbn [fst snd trace world].
  split; [|split].
  - exists (prelude_events args (world st)).
    repeat split; [apply (prelude_quiet _ (prelude_kinds args (world st)))
                  | apply prelude_youngest].
  - intros Hmax. unfold upper_bound. now settle (max_rev args <? 1).
  - intros fuel code st' Hreplay.
    apply replay_replayed in Hreplay as (loop & Hrep).
    destruct Hrep as (Htr & _ & Hkinds & _ & _ & _ & _ & _ & Hsel & _).
    destruct (loop_quiet _ Hkinds) as (_ & _ & Hl3).
    pose proof (closing_quiet _ (closing_kinds (map_to_list (repositories st)))) as [Hc1 Hc2].
    exists (loop ++ closing (map_to_list (repositories st))).
    rewrite Htr, <- !app_assoc. unfold exports.
    rewrite youngest_calls_app, export_log_app, Hl3, Hc1, Hc2, app_nil_r.
    split; [reflexivity|]. split; [reflexivity|].
    intros Hmax. destruct (Hsel Hmax) as [Hpre _].
    apply exports_ascending in Hpre as [_ Hbounds]. now rewrite app_nil_r.
Qed.



(** X11.  In a run that returns, everything the resolver does comes
    first: the trace is a part made only of [makeRepository],
    [setupIncremental] and [restoreLog] calls followed by a part that
    holds none of them.  No repository is set up or rewound once the
    first revision has been exported. *)
Theorem resolution_precedes_everything_else
    {World Repo Rule : Type} `{Externals World Repo Rule}
    (fuel : nat) (args : Args Rule) (w : World) (code : Z) (st' : State World Repo) :
  main fuel args w = Some (code, st') ->
  exists resolution rest,
    trace st' = resolution ++ rest
    /\ Forall (fun e => is_resolution_event e = true) resolution
    /\ export_log resolution = []
    /\ Forall (fun e => is_resolution_event e = false) rest.
Proof.
  intros Hmain.
  destruct (main_phases _ _ _ _ _ Hmain)
    as (resolution & rest & Htrace & _ & (Hexports & _) & Hkinds & _ & Hrest).
  exists resolution, rest. repeat split; try assumption.
  destruct Hrest as [(-> & _)|[(m & c & st2 & _ & _ & _ & ->)
                              |(m & c & st2 & prelude & loop & _ & _ & _ & -> & Hp & Hl & _)]].
  - constructor.
  - repeat constructor.
  - pose proof (closing_kinds (map_to_list (repositories st'))) as Hc.
    rewrite !Forall_app. rewrite Forall_forall in Hp, Hl, Hc.
    repeat split; apply Forall_forall; intros e He; apply session_kinds; auto.
Qed.

Lemma resolution_precedes_everything_else_witness :
  exists resolution rest,
    trace (Scenario.final Scenario.filtered) = resolution ++ rest
    /\ Forall (fun e => is_resolution_event e = true) resolution
    /\ export_log resolution = []
    /\ Forall (fun e => is_resolution_event e = false) rest.
Proof.
  apply (resolution_precedes_everything_else 6 Scenario.filtered Fixture.fresh EXIT_FAILURE).
  vm_compute. reflexivity.
Defined.

(** X12.  When the upper bound of the interval is below [INT_MAX],
    every revision that a run passes to [exportRevision] is at least the
    resume point when one was requested, and at least 1 when none was;
    and the revisions are passed in strictly ascending order over the
    whole run. *)
Theorem exports_start_at_the_resume_point
    {World Repo Rule : Type} `{Externals World Repo Rule}
    (fuel : nat) (args : Args Rule) (w : World) (code : Z) (st' : State World Repo) :
  (forall min_rev cutoff st1,
      resolve fuel (resume_from args) (rules args) (initial_cutoff (resume_from args))
              (start w) = Some (Resolved min_rev cutoff, st1) ->
      upper_bound args (world st1) < INT_MAX) ->
  main fuel args w = Some (code, st') ->
  Forall (fun rev => (if resume_from args =? 0 then 1 else resume_from args) <= rev)
         (exports (trace st'))
  /\ StronglySorted Z.lt (exports (trace st')).
Proof.
  intros Hbelow Hmain.
  destruct (main_phases _ _ _ _ _ Hmain)
    as (resolution & rest & Htrace & _ & (Hexports & _) & _ & _ & Hrest).
  unfold exports. rewrite Htrace, export_log_app, Hexports. cbn [app].
  destruct Hrest as [(-> & _)|[(m & c & st2 & _ & _ & _ & ->)
                              |(m & c & st2 & prelude & loop & Hres & _ & Hm & -> & Hp & Hl
                                & Hpre & _)]].
  - split; constructor.
  - split; constructor.
  - specialize (Hpre (Hbelow _ _ _ Hres)).
    rewrite !export_log_app, (proj1 (prelude_quiet _ Hp)).
    rewrite (proj1 (closing_quiet _ (closing_kinds (map_to_list (repositories st'))))).
    cbn [app]. rewrite app_nil_r. fold (exports loop).
    apply exports_ascending in Hpre as [Hsorted Hbounds]. split; [|exact Hsorted].
    eapply Forall_impl; [exact Hbounds|]. cbn. unfold lower_bound.
    destruct (resume_from args =? 0); lia.
Qed.

Lemma exports_start_at_the_resume_point_witness :
  main 6 Scenario.resumed Fixture.fresh = Some (EXIT_FAILURE, Scenario.final Scenario.resumed)
  /\ exports (trace (Scenario.final Scenario.resumed)) = [2; 3]
  /\ Forall (fun rev => 2 <= rev) (exports (trace (Scenario.final Scenario.resumed)))
  /\ StronglySorted Z.lt (exports (trace (Scenario.final Scenario.resumed))).
Proof.
  assert (Hmain : main 6 Scenario.resumed Fixture.fresh
                  = Some (EXIT_FAILURE, Scenario.final Scenario.resumed))
    by (vm_compute; reflexivity).
  split; [exact Hmain|]. split; [vm_compute; reflexivity|].
  apply (exports_start_at_the_resume_point 6 Scenario.resumed Fixture.fresh EXIT_FAILURE);
    [|exact Hmain].
  intros min_rev cutoff st1 Hresolve.
  assert (Hresolved : resolve 6 (resume_from Scenario.resumed) (rules Scenario.resumed)
                              (initial_cutoff (resume_from Scenario.resumed))
                              (start Fixture.fresh)
                      = Some (Resolved 1 2, Scenario.fresh_resolved 2))
    by (vm_compute; reflexivity).
  rewrite Hresolved in Hresolve. injection Hresolve as _ _ <-.
  vm_compute. reflexivity.
Defined.

(** X13.  With no repository configured, one pass settles resolution
    and a run that returns has called neither [makeRepository] nor
    [setupIncremental], has not stopped on the resume-inconsistency
    error, has finalized and deleted nothing, and has ended with
    [printStats].  With an upper bound below [INT_MAX] the run returns
    as soon as there is fuel for one pass and for the candidates of the
    interval. *)
Theorem no_repository_configured
    {World Repo Rule : Type} `{Externals World Repo Rule}
    (args : Args Rule) (w : World) :
  rules args = [] ->
  (forall fuel code st',
      main fuel args w = Some (code, st') ->
      repositories st' = ∅
      /\ Forall (fun e => is_resolution_event e = false
                          /\ forall resume_from cutoff, e <> Critical resume_from cutoff)
                (trace st')
      /\ finalized (trace st') = []
      /\ deleted (trace st') = []
      /\ last (trace st') = Some PrintStats)
  /\ (upper_bound args w < INT_MAX ->
      forall fuel,
        (1 <= fuel)%nat ->
        (turns (lower_bound args 1) (upper_bound args w) <= fuel)%nat ->
        exists code st', main fuel args w = Some (code, st')).
Proof.
  intros Hnone.
  assert (Hresolve : forall fuel,
             resolve (S fuel) (resume_from args) (rules args)
                     (initial_cutoff (resume_from args)) (start w)
             = Some (Resolved 1 (initial_cutoff (resume_from args)), start w))
    by (intros fuel; now rewrite Hnone).
  assert (Hle : resume_from args <= initial_cutoff (resume_from args)).
  { unfold initial_cutoff. destruct (Z.eqb_spec (resume_from args) 0) as [->|]; [|lia].
    discriminate. }
  split.
  - intros [|fuel] code st' Hmain; [discriminate|]. specialize (Hresolve fuel).
    destruct (main_phases _ _ _ _ _ Hmain)
      as (resolution & rest & Htrace & Hrepos & _ & _ & (r & st1 & Hr & Hres) & Hrest).
    rewrite Hresolve in Hr. injection Hr as <- <-. cbn [start trace] in Hres.
    subst resolution. cbn [app] in Htrace. cbn in Hrepos. rewrite Htrace.
    destruct Hrest as [(_ & _ & st2 & Hr)|[(m & c & st2 & Hr & Hlt & _)
                                          |(m & c & st2 & prelude & loop & _ & _ & _ & -> & Hp & Hl & _)]].
    + rewrite Hresolve in Hr. discriminate.
    + rewrite Hresolve in Hr. injection Hr as _ <- _. lia.
    + rewrite Hrepos, map_to_list_empty. split; [reflexivity|].
      destruct (prelude_quiet _ Hp) as (_ & Hp2 & Hp3 & _).
      destruct (loop_quiet _ Hl) as (Hl1 & Hl2 & _).
      rewrite !finalized_app, !deleted_app, Hp2, Hp3, Hl1, Hl2.
      repeat split.
      * pose proof (closing_kinds (@nil (string * Repo))) as Hc.
        rewrite !Forall_app. rewrite Forall_forall in Hp, Hl, Hc.
        repeat split; apply Forall_forall; intros e He;
          (destruct (session_kinds e) as (Ha & _ & Hb); [auto | split; assumption]).
      * unfold closing. cbn [flat_map app]. rewrite !app_assoc. apply last_snoc.
  - intros Hmax [|fuel] Hone Hturns; [lia|].
    apply (main_returns _ _ _ _ _ _ (Hresolve fuel) Hle Hmax); [lia | exact Hturns].
Qed.

Lemma no_repository_configured_witness :
  3 < INT_MAX
  /\ exists code st',
       main 3 Scenario.bare Fixture.fresh = Some (code, st')
       /\ repositories st' = ∅
       /\ Forall (fun e => is_resolution_event e = false
                           /\ forall resume_from cutoff, e <> Critical resume_from cutoff)
                 (trace st')
       /\ finalized (trace st') = []
       /\ deleted (trace st') = []
       /\ last (trace st') = Some PrintStats.
Proof.
  split; [reflexivity|].
  destruct (no_repository_configured Scenario.bare Fixture.fresh eq_refl)
    as [Hrun Hreturns].
  destruct (Hreturns ltac:(vm_compute; reflexivity) 3%nat) as (code & st' & Hmain);
    [lia | vm_compute; lia |].
  exists code, st'. split; [exact Hmain | exact (Hrun _ _ _ Hmain)].
Defined.

(** ** The start of [main] *)

Lemma startup_cases {Rule : Type} (QString_toInt : string -> Z)
    (allRepositories : list Rule) (cl : CommandLine) :
  let usage := contains cl "help" = true \/ length (arguments cl) <> 1%nat in
  (usage /\ startup QString_toInt allRepositories cl = Usage)
  \/ (~ usage /\ undefinedOptions cl <> []
      /\ exists message, startup QString_toInt allRepositories cl = Refused 10 message)
  \/ (~ usage /\ undefinedOptions cl = [] /\ contains cl "rules" = false
      /\ exists message, startup QString_toInt allRepositories cl = Refused 11 message)
  \/ (~ usage /\ undefinedOptions cl = [] /\ contains cl "rules" = true
      /\ exists warning,
           startup QString_toInt allRepositories cl
           = Proceed warning
               (mkArgs allRepositories
                       (QString_toInt (optionArgument cl "resume-from"))
                       (QString_toInt (optionArgument cl "max-rev"))
                       (optionArgument cl "identity-map")
                       (optionArgument cl "revisions-file"))).
Proof.
  cbv zeta. unfold startup.
  destruct (contains cl "help") eqn:Hhelp; cbn [orb]; [left; split; [now left | reflexivity]|].
  destruct (Nat.eqb_spec (length (arguments cl)) 1) as [Hone|Hmany]; cbn [negb];
    [|left; split; [now right | reflexivity]].
  assert (Husage : ~ (false = true \/ length (arguments cl) <> 1%nat))
    by (intros [|]; [discriminate | contradiction]).
  right. destruct (undefinedOptions cl) as [|option options]; cbn [length Nat.eqb negb].
  - right. destruct (contains cl "rules"); cbn [negb]; [right | left]; eauto 10.
  - left. split; [exact Husage|]. split; [discriminate | eauto].
Qed.

(** X14.  Before anything else [main] looks at the command line, in
    this order.  With [--help], or with a number of arguments other
    than one, it exits with status 0.  Otherwise, with an option the
    parser does not know, it exits with status 10.  Otherwise, without
    [--rules], it exits with status 11.  In these three cases nothing is
    done to any repository.  Only otherwise does the run start, and the
    exit status is then 0 or 1. *)
Theorem program_exit_status
    {World Repo Rule : Type} `{Externals World Repo Rule}
    (QString_toInt : string -> Z) (allRepositories : list Rule)
    (fuel : nat) (cl : CommandLine) (w : World)
    (status : Z) (st : option (State World Repo)) :
  program QString_toInt allRepositories fuel cl w = Some (status, st) ->
  let usage := contains cl "help" = true \/ length (arguments cl) <> 1%nat in
  (usage -> status = 0 /\ st = None)
  /\ (status = 10 <-> ~ usage /\ undefinedOptions cl <> [])
  /\ (status = 11
      <-> ~ usage /\ undefinedOptions cl = [] /\ contains cl "rules" = false)
  /\ (is_Some st
      <-> ~ usage /\ undefinedOptions cl = [] /\ contains cl "rules" = true)
  /\ (is_Some st -> status = 0 \/ status = 1).
Proof.
  intros Hprogram usage. subst usage. unfold program in Hprogram.
  destruct (startup_cases QString_toInt allRepositories cl)
    as [(Husage & Hstart)
       |[(Husage & Hundefined & message & Hstart)
        |[(Husage & Hundefined & Hrules & message & Hstart)
         |(Husage & Hundefined & Hrules & warning & Hstart)]]];
    rewrite Hstart in Hprogram.
  - injection Hprogram as <- <-.
    assert (Hnone : ~ is_Some (@None (State World Repo)))
      by (intros [? ?]; discriminate).
    intuition (discriminate || congruence).
  - injection Hprogram as <- <-.
    assert (Hnone : ~ is_Some (@None (State World Repo)))
      by (intros [? ?]; discriminate).
    intuition (discriminate || congruence).
  - injection Hprogram as <- <-.
    assert (Hnone : ~ is_Some (@None (State World Repo)))
      by (intros [? ?]; discriminate).
    rewrite Hundefined, Hrules. intuition (discriminate || congruence).
  - destruct (main fuel _ w) as [[code st']|] eqn:Hmain; [|discriminate].
    injection Hprogram as <- <-.
    assert (Hsome : is_Some (Some st')) by eauto.
    rewrite Hundefined, Hrules.
    destruct (main_exit_status _ _ _ _ _ Hmain) as [-> | ->];
      unfold EXIT_SUCCESS, EXIT_FAILURE;
      intuition (discriminate || congruence).
Qed.

Lemma program_exit_status_witness :
  let usage := contains mistyped "help" = true \/ length (arguments mistyped) <> 1%nat in
  (usage -> 10 = 0 /\ @None (State Fixture.env string) = None)
  /\ (10 = 10 <-> ~ usage /\ undefinedOptions mistyped <> [])
  /\ (10 = 11
      <-> ~ usage /\ undefinedOptions mistyped = [] /\ contains mistyped "rules" = false)
  /\ (is_Some (@None (State Fixture.env string))
      <-> ~ usage /\ undefinedOptions mistyped = [] /\ contains mistyped "rules" = true)
  /\ (is_Some (@None (State Fixture.env string)) -> 10 = 0 \/ 10 = 1).
Proof.
  exact (program_exit_status (fun _ => 0) Fixture.two_rules 1 mistyped Fixture.fresh
           10 None eq_refl).
Defined.

(** ** The counter at [INT_MAX] *)

(** X15.  With [INT_MAX] as the upper bound, as with
    [--max-rev 2147483647], the test [i <= max_rev] never fails and
    after [INT_MAX] the counter is [INT_MIN]: the loop is left by
    [break] only.  A run that returns has exited with [EXIT_FAILURE]
    after a failed export, and when [exportRevision] never fails the run
    does not return, whatever the fuel. *)
Theorem loop_up_to_INT_MAX_ends_by_break_only
    {World Repo Rule : Type} `{Externals World Repo Rule}
    (args : Args Rule) (min_rev : Z) (st : State World Repo) :
  upper_bound args (world st) = INT_MAX ->
  min_rev <= INT_MAX ->
  incr INT_MAX = INT_MIN
  /\ (forall fuel code st',
        replay fuel args min_rev st = Some (code, st') ->
        code = EXIT_FAILURE
        /\ exists evs rev,
             trace st' = trace st ++ evs /\ last (export_log evs) = Some (rev, false))
  /\ (always_exports -> forall fuel, replay fuel args min_rev st = None).
Proof.
  intros Hupper Hmin. split; [reflexivity|]. split.
  - intros fuel code st' Hreplay.
    assert (Hcode : code = EXIT_FAILURE).
    { rewrite replay_unfold, Hupper in Hreplay.
      destruct (export_loop _ _ _ _ _ _ _) as [[errors st1]|] eqn:Hloop; [|discriminate].
      apply export_loop_breaks in Hloop; [|exact Hmin]. subst errors.
      rewrite finish_spec in Hreplay. now injection Hreplay as <- _. }
    split; [exact Hcode|].
    apply replay_replayed in Hreplay as (loop & Hrep).
    destruct Hrep as (Htr & _ & _ & _ & _ & Hlast & _).
    destruct Hlast as [Hok|[_ [rev Hrev]]]; [rewrite Hcode in Hok; discriminate|].
    destruct (prelude_quiet _ (prelude_kinds args (world st))) as (Hp1 & _).
    pose proof (closing_quiet _ (closing_kinds (map_to_list (repositories st)))) as [Hc1 _].
    eexists _, rev. split; [exact Htr|].
    now rewrite !export_log_app, Hp1, Hc1, app_nil_r.
  - intros Halways fuel. rewrite replay_unfold, Hupper.
    now rewrite export_loop_endless.
Qed.

(** [--resume-from 2147483646 --max-rev 2147483647] on a source that
    answers for every revision number but the one after [INT_MIN]. *)
Lemma loop_up_to_INT_MAX_ends_by_break_only_witness :
  upper_bound Scenario.wrapping Fixture.boundless = INT_MAX
  /\ 2147483646 <= INT_MAX
  /\ replay 4 Scenario.wrapping 2147483646 (start Fixture.boundless)
     = Some (EXIT_FAILURE, Scenario.wrapped)
  /\ exports (trace Scenario.wrapped) = [2147483646; 2147483647; -2147483648; -2147483647]
  /\ EXIT_FAILURE = EXIT_FAILURE
  /\ exists evs rev,
       trace Scenario.wrapped = trace (start Fixture.boundless) ++ evs
       /\ last (export_log evs) = Some (rev, false).
Proof.
  assert (Hreplay : replay 4 Scenario.wrapping 2147483646 (start Fixture.boundless)
                    = Some (EXIT_FAILURE, Scenario.wrapped))
    by (vm_compute; reflexivity).
  assert (Hupper : upper_bound Scenario.wrapping Fixture.boundless = INT_MAX)
    by reflexivity.
  assert (Hmin : 2147483646 <= INT_MAX) by discriminate.
  split; [exact Hupper|]. split; [exact Hmin|]. split; [exact Hreplay|].
  split; [vm_compute; reflexivity|].
  destruct (loop_up_to_INT_MAX_ends_by_break_only Scenario.wrapping 2147483646
              (start Fixture.boundless) Hupper Hmin) as (_ & Hrun & _).
  exact (Hrun _ _ _ Hreplay).
Defined.
